(** * Pi_AudioPlayer: the audio analysis and metadata core of
      [sense_music/music_display.py] and [sense_music/audio_visualizer.py]

    A shallow embedding of the Python sources, followed by the properties
    proved of it.

    - Samples, gains, magnitudes and timestamps are floats in the source;
      here a finite float is a real number of [R] (rounding and overflow
      are not modelled) and a cell of a band array is an [npfloat]: a
      finite value or NaN, which is what [np.mean] of an empty slice
      yields.
    - A Python exception is a value of [exn]; a call that may raise
      returns a [result].
    - Module globals ([CONFIG], [STATE], [_HANN_WINDOW]) are passed
      explicitly, and so is what the clock and the pipe supply.
    - A [str] is a list of code points.  [str.find], [str.strip],
      [bytes.fromhex] and the three compiled patterns are written out;
      [base64.b64decode] and [bytes.decode("utf-8", "ignore")] are
      parameters of the reader, with CPython's behaviour given in [Py] for
      the runs on sample streams.
    - The display, the start of the stream and the main loop are modelled
      by what they do to the world around them: the list of the calls
      they make on the [DisplayController], [time.sleep] and the stream,
      in order.  What a turn of the loop reads from the clock, the pipe
      and [pactl] is given with the turn.  The audio callback runs between
      two turns of the loop, not during one.  [str.lower] and the Unicode
      class of decimal digits are parameters. *)

From Stdlib Require Import Strings.String Strings.Ascii Strings.Byte.
From Stdlib Require Import Reals Lra Lia ZArith NArith Bool Arith List.
From Equations Require Import Equations.
Import ListNotations.

(** ** Exceptions *)

Inductive exn : Type :=
| ValueError
| BinasciiError          (* binascii.Error, a subclass of ValueError *)
| ZeroDivisionError
| OSError.

Inductive result (A : Type) : Type :=
| Ok (a : A)
| Raise (e : exn).
Arguments Ok {A} a.
Arguments Raise {A} e.

Definition bind {A B : Type} (r : result A) (k : A -> result B) : result B :=
  match r with
  | Ok a => k a
  | Raise e => Raise e
  end.

Notation "x <- r ;; k" := (bind r (fun x => k))
  (at level 61, r at next level, right associativity).

(** [isinstance(e, ValueError)]. *)
Definition is_ValueError (e : exn) : bool :=
  match e with
  | ValueError | BinasciiError => true
  | _ => false
  end.

(** ** Configuration ([class Config]) *)

Record Config : Type := {
  block_size : nat;
  n_bands : nat;
  smoothing : R;
  agc_target_rms : R;
  agc_max_gain : R;
  agc_min_gain : R;
  agc_attack : R;
  agc_release : R;
  limit_threshold : R;
  day_brightness : R;
  twilight_brightness : R;
  night_brightness : R;
  spinner_color : Z * Z * Z
}.

(** The defaults of the dataclass: [CONFIG = Config()]. *)
Definition CONFIG : Config := {|
  block_size := 2048;
  n_bands := 8;
  smoothing := 0.3;
  agc_target_rms := 0.02;
  agc_max_gain := 4.0;
  agc_min_gain := 0.25;
  agc_attack := 0.1;
  agc_release := 0.01;
  limit_threshold := 0.25;
  day_brightness := 0.10;
  twilight_brightness := 0.05;
  night_brightness := 0.01;
  spinner_color := (255, 0, 0)%Z
|}.

(** ** A fragment of numpy *)

Module Np.
Local Open Scope R_scope.

(** A cell of a float array: NaN or a finite value. *)
Inductive npfloat : Type :=
| NaN
| Num (x : R).

(** An array of finite samples: its shape and its cells in row-major
    order.  [wf] says the two agree, as they do for every ndarray. *)
Record ndarray : Type := {
  shape : list nat;
  data : list R
}.

Definition wf (a : ndarray) : Prop :=
  length (data a) = fold_right Nat.mul 1%nat (shape a).

Definition sum (xs : list R) : R := fold_right Rplus 0 xs.

(** The arithmetic mean of a non-empty list. *)
Definition mean_fin (xs : list R) : R := sum xs / INR (length xs).

(** [np.mean]: NaN (and a RuntimeWarning, no exception) on an empty array. *)
Definition mean (xs : list R) : npfloat :=
  match xs with
  | [] => NaN
  | _ :: _ => Num (mean_fin xs)
  end.

(** [np.mean] of an array of cells: NaN as soon as one cell is. *)
Fixpoint sum_cells (xs : list npfloat) : npfloat :=
  match xs with
  | [] => Num 0
  | NaN :: _ => NaN
  | Num x :: r =>
      match sum_cells r with
      | NaN => NaN
      | Num s => Num (x + s)
      end
  end.

Definition mean_cells (xs : list npfloat) : npfloat :=
  match xs, sum_cells xs with
  | [], _ => NaN
  | _, NaN => NaN
  | _, Num s => Num (s / INR (length xs))
  end.

(** [a[start:end]] for [0 <= start], [0 <= end]: out-of-range bounds are
    clamped, never an error. *)
Definition slice {A : Type} (a : list A) (start stop : nat) : list A :=
  firstn (stop - start) (skipn start a).

(** [np.clip(x, lo, hi)], that is [minimum(maximum(x, lo), hi)]. *)
Definition clip (lo hi x : R) : R := Rmin (Rmax x lo) hi.

(** Cell-wise operations; each propagates NaN, as numpy's do. *)
Definition lift (f : R -> R) (c : npfloat) : npfloat :=
  match c with
  | NaN => NaN
  | Num x => Num (f x)
  end.

Definition lift2 (f : R -> R -> R) (c d : npfloat) : npfloat :=
  match c, d with
  | Num x, Num y => Num (f x y)
  | _, _ => NaN
  end.

Definition log10 (x : R) : R := ln x / ln 10.

(** [np.zeros(n)]. *)
Definition zeros (n : nat) : list npfloat := repeat (Num 0) n.

(** [np.hanning(M)]: empty for [M < 1], [[1.]] for [M = 1], otherwise
    [0.5 + 0.5*cos(pi*n/(M-1))] for [n] in [arange(1-M, M, 2)]. *)
Definition hanning (M : nat) : list R :=
  match M with
  | O => []
  | S O => [1]
  | _ =>
      map (fun k => 0.5 + 0.5 * cos (PI * (1 - INR M + 2 * INR k) / (INR M - 1)))
          (seq 0 M)
  end.

(** One bin of the discrete Fourier transform of a real sequence, as its
    real and imaginary part. *)
Definition dft_bin (x : list R) (k : nat) : R * R :=
  let N := INR (length x) in
  (sum (map (fun p => snd p * cos (2 * PI * INR k * INR (fst p) / N))
            (combine (seq 0 (length x)) x)),
   - sum (map (fun p => snd p * sin (2 * PI * INR k * INR (fst p) / N))
              (combine (seq 0 (length x)) x))).

(** [np.fft.rfft]: the bins [0 .. n/2] of an [n]-point transform;
    [ValueError] on an empty input. *)
Definition rfft (x : list R) : result (list (R * R)) :=
  match x with
  | [] => Raise ValueError
  | _ :: _ => Ok (map (dft_bin x) (seq 0 (length x / 2 + 1)))
  end.

(** [np.abs] of a complex cell. *)
Definition cabs (z : R * R) : R := sqrt (fst z * fst z + snd z * snd z).

(** A cell that is a value of the closed interval [0, 1]. *)
Definition unit_cell (c : npfloat) : Prop := exists y, c = Num y /\ 0 <= y <= 1.

(** Silence: every sample is zero. *)
Definition all_zero (xs : list R) : Prop := Forall (eq 0) xs.

End Np.

(** ** Python's [str] and [bytes] *)

(** A [str] is a sequence of Unicode code points, a [bytes] of octets. *)
Definition str : Type := list N.
Definition bytes : Type := list Byte.byte.

(** ** Shared state ([class ThreadSafeState]) *)

Record State : Type := {
  levels_smooth : list Np.npfloat;
  audio_last_active : R;
  ambient_index : Z;
  agc_gain : R;
  stream_active : bool;
  last_error : option str;
  silence_detected : bool;
  saved_volume : option Z;
  ducked_until : R
}.

(** [ThreadSafeState.__init__], for the configuration in force. *)
Definition State_init (cfg : Config) : State := {|
  levels_smooth := Np.zeros (n_bands cfg);
  audio_last_active := 0%R;
  ambient_index := 0%Z;
  agc_gain := 1%R;
  stream_active := false;
  last_error := None;
  silence_detected := false;
  saved_volume := None;
  ducked_until := 0%R
|}.

(** [STATE = ThreadSafeState()]. *)
Definition STATE : State := State_init CONFIG.

Definition set_levels_smooth (st : State) (v : list Np.npfloat) : State := {|
  levels_smooth := v;
  audio_last_active := audio_last_active st;
  ambient_index := ambient_index st;
  agc_gain := agc_gain st;
  stream_active := stream_active st;
  last_error := last_error st;
  silence_detected := silence_detected st;
  saved_volume := saved_volume st;
  ducked_until := ducked_until st
|}.

Definition set_audio_last_active (st : State) (v : R) : State := {|
  levels_smooth := levels_smooth st;
  audio_last_active := v;
  ambient_index := ambient_index st;
  agc_gain := agc_gain st;
  stream_active := stream_active st;
  last_error := last_error st;
  silence_detected := silence_detected st;
  saved_volume := saved_volume st;
  ducked_until := ducked_until st
|}.

Definition set_ambient_index (st : State) (v : Z) : State := {|
  levels_smooth := levels_smooth st;
  audio_last_active := audio_last_active st;
  ambient_index := v;
  agc_gain := agc_gain st;
  stream_active := stream_active st;
  last_error := last_error st;
  silence_detected := silence_detected st;
  saved_volume := saved_volume st;
  ducked_until := ducked_until st
|}.

Definition set_agc_gain (st : State) (v : R) : State := {|
  levels_smooth := levels_smooth st;
  audio_last_active := audio_last_active st;
  ambient_index := ambient_index st;
  agc_gain := v;
  stream_active := stream_active st;
  last_error := last_error st;
  silence_detected := silence_detected st;
  saved_volume := saved_volume st;
  ducked_until := ducked_until st
|}.

Definition set_silence_detected (st : State) (v : bool) : State := {|
  levels_smooth := levels_smooth st;
  audio_last_active := audio_last_active st;
  ambient_index := ambient_index st;
  agc_gain := agc_gain st;
  stream_active := stream_active st;
  last_error := last_error st;
  silence_detected := v;
  saved_volume := saved_volume st;
  ducked_until := ducked_until st
|}.

(** ** Audio processing *)

Module Audio.
Import Np.
Local Open Scope R_scope.

(** The module global [_HANN_WINDOW]. *)
Definition hann_cache : Type := option (list R).

(** [get_hann_window(size)]: the cached window when it has [size] cells,
    a fresh [np.hanning(size)] (stored in the cache) otherwise. *)
Definition get_hann_window (cache : hann_cache) (sz : nat)
  : hann_cache * list R :=
  match cache with
  | Some w =>
      if (length w =? sz)%nat then (cache, w)
      else (Some (hanning sz), hanning sz)
  | None => (Some (hanning sz), hanning sz)
  end.

(** The rows of a two-dimensional array with [c] columns and [r] rows. *)
Definition rows_of (c r : nat) (d : list R) : list (list R) :=
  map (fun i => slice d (i * c) ((i + 1) * c)) (seq 0 r).

(** The fold to mono at the head of [compute_levels]:
    [block.mean(axis=1)] when [block.ndim == 2 and block.shape[1] > 1],
    [block.reshape(-1)] otherwise. *)
Definition to_mono (block : ndarray) : list R :=
  match shape block with
  | [r; c] =>
      if (1 <? c)%nat then map mean_fin (rows_of c r (data block))
      else data block
  | _ => data block
  end.

(** [mono * window] for two arrays of one length. *)
Definition mul (a b : list R) : list R :=
  map (fun p => fst p * snd p) (combine a b).

(** The bounds [start], [end] of band [i] in the loop of [compute_levels]. *)
Definition band_bounds (nb band_size len i : nat) : nat * nat :=
  ((i * band_size)%nat,
   if (i <? nb - 1)%nat then ((i + 1) * band_size)%nat else len).

(** One turn of the loop: [0.0] when [end <= start], the mean of
    [mag[start:end]] otherwise. *)
Definition band_level (mag : list R) (nb band_size i : nat) : npfloat :=
  let (start, stop) := band_bounds nb band_size (length mag) i in
  if (stop <=? start)%nat then Num 0 else mean (slice mag start stop).

(** The decibel conversion and normalisation that end [compute_levels]. *)
Definition normalise (b : npfloat) : npfloat :=
  lift (clip 0 1)
    (lift (fun d => (d + 60) / 60)
       (lift (fun v => 20 * log10 v)
          (lift (fun v => Rmax v 1e-8) b))).

(** [compute_levels(block)], with the window cache threaded through. *)
Definition compute_levels (cfg : Config) (cache : hann_cache) (block : ndarray)
  : hann_cache * result (list npfloat) :=
  let mono := to_mono block in
  if (length mono =? 0)%nat then (cache, Ok (zeros (n_bands cfg)))
  else
    let (cache1, window0) := get_hann_window cache (length mono) in
    let window :=
      if negb (length window0 =? length mono)%nat then hanning (length mono)
      else window0 in
    match rfft (mul mono window) with
    | Raise e => (cache1, Raise e)
    | Ok spectrum =>
        let mag := tl (map cabs spectrum) in
        let len := length mag in
        if (len <=? 0)%nat then (cache1, Ok (zeros (n_bands cfg)))
        else if (n_bands cfg =? 0)%nat then (cache1, Raise ZeroDivisionError)
        else
          let band_size := Nat.max 1 (len / n_bands cfg) in
          let bands :=
            map (band_level mag (n_bands cfg) band_size)
                (seq 0 (n_bands cfg)) in
          (cache1, Ok (map normalise bands))
    end.

(** The window [compute_levels] multiplies a mono signal of [n] samples
    with, and the magnitude spectrum without its DC bin that it derives
    its bands from. *)
Definition window_for (cache : hann_cache) (n : nat) : list R :=
  let window0 := snd (get_hann_window cache n) in
  if negb (length window0 =? n)%nat then hanning n else window0.

Definition magnitudes (cache : hann_cache) (mono : list R) : list R :=
  tl (map cabs (map (dft_bin (mul mono (window_for cache (length mono))))
                    (seq 0 (length mono / 2 + 1)))).

(** [float(np.sqrt(np.mean(x ** 2))) if x.size else 0.0]. *)
Definition rms_of (samples : list R) : R :=
  match samples with
  | [] => 0
  | _ :: _ => sqrt (mean_fin (map (fun x => x * x) samples))
  end.

(** The RMS [audio_callback] measures: that of the frame clipped to
    [-1, 1]. *)
Definition frame_rms (indata : ndarray) : R :=
  rms_of (map (clip (-1) 1) (data indata)).

(** The AGC update of [audio_callback]: the gain after the callback. *)
Definition agc_update (cfg : Config) (current_gain rms : R) : R :=
  if Rlt_dec 1e-6 rms then
    let target_gain := agc_target_rms cfg / rms in
    let target_gain :=
      Rmax (Rmin target_gain (agc_max_gain cfg)) (agc_min_gain cfg) in
    if Rlt_dec current_gain target_gain
    then current_gain + agc_attack cfg * (target_gain - current_gain)
    else current_gain + agc_release cfg * (target_gain - current_gain)
  else current_gain.

(** The frame handed to [compute_levels]: clipped to [-1, 1], scaled by
    the gain, limited to [-limit_threshold, limit_threshold]. *)
Definition limited_frame (cfg : Config) (gain : R) (indata : ndarray) : ndarray :=
  {| shape := shape indata;
     data :=
       map (fun x => clip (- limit_threshold cfg) (limit_threshold cfg)
                          (clip (-1) 1 x * gain))
           (data indata) |}.

(** [s * p + (1 - s) * b] on two cells. *)
Definition ema (s : R) (p b : npfloat) : npfloat :=
  lift2 Rplus (lift (Rmult s) p) (lift (Rmult (1 - s)) b).

(** [smoothing * current_levels + (1 - smoothing) * levels], cell by cell,
    for two arrays of one length. *)
Definition smooth (s : R) (current_levels levels : list npfloat) : list npfloat :=
  map (fun p => ema s (fst p) (snd p)) (combine current_levels levels).

(** [x > c] and [x < c] on a cell: false on NaN. *)
Definition gtb (x : npfloat) (c : R) : bool :=
  match x with
  | NaN => false
  | Num v => if Rlt_dec c v then true else false
  end.

Definition ltb (x : npfloat) (c : R) : bool :=
  match x with
  | NaN => false
  | Num v => if Rlt_dec v c then true else false
  end.

(** The two globals the callback works on. *)
Record World : Type := {
  W_STATE : State;
  W_HANN : hann_cache
}.

(** [audio_callback(indata, frames, time_info, status)]; [now] is what
    [time.time()] returns.  The status flags are only logged. *)
Definition audio_callback (cfg : Config) (w : World) (indata : ndarray) (now : R)
  : World * result unit :=
  let st := W_STATE w in
  let rms := frame_rms indata in
  let current_gain := agc_update cfg (agc_gain st) rms in
  let st1 := if Rlt_dec 1e-6 rms then set_agc_gain st current_gain else st in
  let (cache1, r) := compute_levels cfg (W_HANN w) (limited_frame cfg current_gain indata) in
  match r with
  | Raise e => ({| W_STATE := st1; W_HANN := cache1 |}, Raise e)
  | Ok levels =>
      let st2 :=
        set_levels_smooth st1 (smooth (smoothing cfg) (levels_smooth st1) levels) in
      let current_mean := mean_cells levels in
      let st3 :=
        if gtb current_mean 0.01 then
          set_silence_detected (set_audio_last_active st2 now) false
        else if ltb current_mean 0.001 then set_silence_detected st2 true
        else st2 in
      ({| W_STATE := st3; W_HANN := cache1 |}, Ok tt)
  end.

(** The globals when the program starts. *)
Definition World_init (cfg : Config) : World :=
  {| W_STATE := State_init cfg; W_HANN := None |}.

(** The audio thread: one callback per delivered block, each with the
    time it runs at; a callback that raises stops the stream. *)
Fixpoint run_callbacks (cfg : Config) (w : World) (blocks : list (ndarray * R))
  : World :=
  match blocks with
  | [] => w
  | (indata, now) :: rest =>
      match audio_callback cfg w indata now with
      | (w', Ok _) => run_callbacks cfg w' rest
      | (w', Raise _) => w'
      end
  end.

(** The gain [audio_callback] applies to a frame and the frame it hands to
    [compute_levels]. *)
Definition callback_gain (cfg : Config) (w : World) (indata : ndarray) : R :=
  agc_update cfg (agc_gain (W_STATE w)) (frame_rms indata).

Definition callback_frame (cfg : Config) (w : World) (indata : ndarray) : ndarray :=
  limited_frame cfg (callback_gain cfg w indata) indata.

(** *** Sample blocks *)

(** Four stereo frames, as the input stream delivers them. *)
Definition short_block : ndarray :=
  {| shape := [4; 2]%nat;
     data := [0.5; 0.5; -0.5; -0.5; 0.25; 0.25; 0; 0] |}.

(** Four stereo frames of silence. *)
Definition silent_block : ndarray :=
  {| shape := [4; 2]%nat; data := [0; 0; 0; 0; 0; 0; 0; 0] |}.

(** Two loud stereo frames, one sample beyond full scale. *)
Definition loud_block : ndarray :=
  {| shape := [2; 2]%nat; data := [0.9; -1.5; 0.75; 1] |}.

(** Sixteen mono samples: eight bins, one for each default band. *)
Definition ramp_block : ndarray :=
  {| shape := [16]%nat;
     data := [0; 0.1; 0.2; 0.3; 0.4; 0.5; 0.6; 0.7;
              0.8; 0.7; 0.6; 0.5; 0.4; 0.3; 0.2; 0.1] |}.

(** A default-sized block of stereo silence. *)
Definition silence_2048 : ndarray :=
  {| shape := [2048; 2]%nat; data := repeat 0 4096 |}.

End Audio.

(** ** The ambient spinner *)

Module Ambient.
Local Open Scope R_scope.

(** [SPINNER_PATH]: a spiral over the 8x8 matrix, as [(x, y)] pairs. *)
Definition SPINNER_PATH : list (Z * Z) := [
  (0, 0); (1, 0); (2, 0); (3, 0); (4, 0); (5, 0); (6, 0); (7, 0);
  (7, 1); (7, 2); (7, 3); (7, 4); (7, 5); (7, 6); (7, 7);
  (6, 7); (5, 7); (4, 7); (3, 7); (2, 7); (1, 7); (0, 7);
  (0, 6); (0, 5); (0, 4); (0, 3); (0, 2); (0, 1);
  (1, 1); (2, 1); (3, 1); (4, 1); (5, 1); (6, 1);
  (6, 2); (6, 3); (6, 4); (6, 5); (6, 6);
  (5, 6); (4, 6); (3, 6); (2, 6); (1, 6);
  (1, 5); (1, 4); (1, 3); (1, 2);
  (2, 2); (3, 2); (4, 2); (5, 2);
  (5, 3); (5, 4); (5, 5);
  (4, 5); (3, 5); (2, 5);
  (2, 4); (2, 3);
  (3, 3); (4, 3);
  (4, 4); (3, 4)
]%Z.

Definition TAIL_LENGTH : nat := 28.

(** [len(SPINNER_PATH)]. *)
Definition path_len : Z := Z.of_nat (length SPINNER_PATH).

Definition Rleb (a b : R) : bool := if Rle_dec a b then true else false.
Definition Rltb (a b : R) : bool := if Rlt_dec a b then true else false.

(** [get_brightness_factor(now)], with [h = now.hour + now.minute / 60.0]. *)
Definition get_brightness_factor (cfg : Config) (h : R) : R :=
  if Rleb 8 h && Rltb h 22 then day_brightness cfg
  else if (Rleb 6.5 h && Rltb h 8) || (Rleb 22 h && Rltb h 23.5)
       then twilight_brightness cfg
  else night_brightness cfg.

(** [int(x)] on a float: truncation towards zero. *)
Definition py_int (x : R) : Z :=
  if Rle_dec 0 x then Int_part x else (- Int_part (- x))%Z.

(** [apply_brightness(color, factor)]. *)
Definition apply_brightness (color : Z * Z * Z) (factor : R) : Z * Z * Z :=
  let '(r, g, b) := color in
  (py_int (IZR r * factor), py_int (IZR g * factor), py_int (IZR b * factor)).

(** [pixels[i] = v] on a list long enough (it is: 64 cells, [i < 64]). *)
Fixpoint list_set {A : Type} (l : list A) (i : nat) (v : A) : list A :=
  match l, i with
  | [], _ => []
  | _ :: t, O => v :: t
  | x :: t, S j => x :: list_set t j v
  end.

(** The index visited by turn [i] of the loop of [ambient_step]. *)
Definition pos_index (current_index : Z) (i : nat) : Z :=
  ((current_index - Z.of_nat i) mod path_len)%Z.

(** One turn of the loop of [ambient_step] over the pixel buffer. *)
Definition tail_pixel (cfg : Config) (brightness : R) (current_index : Z)
    (pixels : list (Z * Z * Z)) (i : nat) : list (Z * Z * Z) :=
  let '(x, y) := nth (Z.to_nat (pos_index current_index i)) SPINNER_PATH (0, 0)%Z in
  let tail_factor := Rmax 0 (1 - INR i / INR TAIL_LENGTH) in
  let total := brightness * tail_factor in
  let '(r, g, b) := apply_brightness (spinner_color cfg) total in
  if negb (r =? 0)%Z || negb (g =? 0)%Z || negb (b =? 0)%Z
  then list_set pixels (Z.to_nat (y * 8 + x)) (r, g, b)
  else pixels.

(** [ambient_step(display)]: the pixel buffer handed to the display and
    the state with the cursor advanced.  [h] is the hour of day read by
    [get_brightness_factor], [t] is [time.time()]. *)
Definition ambient_step (cfg : Config) (h t : R) (st : State)
  : list (Z * Z * Z) * State :=
  let factor := get_brightness_factor cfg h in
  let pulse := 0.6 + 0.4 * (0.5 + 0.5 * sin (t * 1.5)) in
  let brightness := Rmax 0 (Rmin 1 (factor * pulse)) in
  let current_index := ambient_index st in
  let pixels :=
    fold_left (tail_pixel cfg brightness current_index)
              (seq 0 TAIL_LENGTH) (repeat (0, 0, 0)%Z 64) in
  (pixels, set_ambient_index st ((current_index + 4) mod path_len)%Z).

(** [k] idle render ticks in a row; tick [i] reads the clocks [h i], [t i]. *)
Fixpoint idle_ticks (cfg : Config) (h t : nat -> R) (k : nat) (st : State) : State :=
  match k with
  | O => st
  | S k' => snd (ambient_step cfg (h k') (t k') (idle_ticks cfg h t k' st))
  end.

End Ambient.

(** ** The Python library functions the metadata reader calls *)

Module Py.
Local Open Scope N_scope.

(** A [str] and a [bytes] literal. *)
Definition lit (s : String.string) : str :=
  map Ascii.N_of_ascii (String.list_ascii_of_string s).
Definition blit (s : String.string) : bytes := String.list_byte_of_string s.

(** [a == b] on [str]. *)
Fixpoint str_eqb (a b : str) : bool :=
  match a, b with
  | [], [] => true
  | x :: a', y :: b' => (x =? y) && str_eqb a' b'
  | _, _ => false
  end.

(** [bool(s)]: a [str] is true when it is not empty. *)
Definition truthy (s : str) : bool :=
  match s with
  | [] => false
  | _ :: _ => true
  end.

(** The rest of [s] after the prefix [p], when [s.startswith(p)]. *)
Fixpoint strip_prefix (p s : str) : option str :=
  match p, s with
  | [], _ => Some s
  | x :: p', y :: s' => if x =? y then strip_prefix p' s' else None
  | _ :: _, [] => None
  end.

Definition startswith (p s : str) : bool :=
  match strip_prefix p s with
  | Some _ => true
  | None => false
  end.

(** [s.find(sub)]: the lowest index at which [sub] occurs in [s]; [None]
    stands for [-1]. *)
Fixpoint find (sub s : str) : option nat :=
  if startswith sub s then Some O
  else
    match s with
    | [] => None
    | _ :: s' => option_map S (find sub s')
    end.

(** [s.find(sub, start)] for [0 <= start]. *)
Definition find_from (sub s : str) (start : nat) : option nat :=
  if (length s <? start)%nat then None
  else option_map (Nat.add start) (find sub (skipn start s)).

(** [s[-n:]] for [n > 0]: the last [n] characters, all of [s] when it is
    shorter. *)
Definition last_chars (n : nat) (s : str) : str := skipn (length s - n) s.

(** [c.isspace()]: the code points [str.strip()] removes. *)
Definition isspace (c : N) : bool :=
  existsb (N.eqb c)
    [0x9; 0xa; 0xb; 0xc; 0xd; 0x1c; 0x1d; 0x1e; 0x1f; 0x20; 0x85; 0xa0;
     0x1680; 0x2000; 0x2001; 0x2002; 0x2003; 0x2004; 0x2005; 0x2006;
     0x2007; 0x2008; 0x2009; 0x200a; 0x2028; 0x2029; 0x202f; 0x205f;
     0x3000].

Fixpoint lstrip (s : str) : str :=
  match s with
  | [] => []
  | c :: s' => if isspace c then lstrip s' else s
  end.

(** [s.strip()]. *)
Definition strip (s : str) : str := rev (lstrip (rev (lstrip s))).

(** The value of a hexadecimal digit. *)
Definition hexval (c : N) : option N :=
  if (48 <=? c) && (c <=? 57) then Some (c - 48)
  else if (65 <=? c) && (c <=? 70) then Some (c - 55)
  else if (97 <=? c) && (c <=? 102) then Some (c - 87)
  else None.

Definition byte_of_N (n : N) : Byte.byte :=
  match Byte.of_N n with
  | Some b => b
  | None => Byte.x00
  end.

(** ASCII whitespace, which [bytes.fromhex] skips between two bytes. *)
Definition is_ascii_space (c : N) : bool :=
  ((9 <=? c) && (c <=? 13)) || (c =? 32).

(** [bytes.fromhex(s)]: pairs of hexadecimal digits; [ValueError] on an
    odd digit or any other character. *)
Fixpoint fromhex (s : str) : result bytes :=
  match s with
  | [] => Ok []
  | c :: s1 =>
      if is_ascii_space c then fromhex s1
      else
        match hexval c, s1 with
        | Some hi, d :: s2 =>
            match hexval d with
            | Some lo => r <- fromhex s2 ;; Ok (byte_of_N (hi * 16 + lo) :: r)
            | None => Raise ValueError
            end
        | _, _ => Raise ValueError
        end
  end.

(** [b.decode("ascii", "ignore")]: the bytes above 127 are dropped. *)
Definition decode_ascii_ignore (b : bytes) : str :=
  filter (fun c => c <? 128) (map Byte.to_N b).

(** A continuation byte within [lo .. hi], as its six payload bits. *)
Definition cont (lo hi : N) (b : Byte.byte) : option N :=
  let n := Byte.to_N b in
  if (lo <=? n) && (n <=? hi) then Some (N.land n 0x3F) else None.

(** [b.decode("utf-8", "ignore")] as CPython does it: a well-formed
    sequence (Unicode table 3-7) yields its code point, any other byte
    is dropped. *)
Fixpoint decode_utf8_ignore (b : bytes) : str :=
  match b with
  | [] => []
  | c :: r =>
      let n := Byte.to_N c in
      let skip := decode_utf8_ignore r in
      if n <? 0x80 then n :: skip
      else if (0xC2 <=? n) && (n <=? 0xDF) then
        match r with
        | c1 :: r1 =>
            match cont 0x80 0xBF c1 with
            | Some x1 =>
                (N.shiftl (N.land n 0x1F) 6 + x1) :: decode_utf8_ignore r1
            | None => skip
            end
        | _ => skip
        end
      else if (0xE0 <=? n) && (n <=? 0xEF) then
        match r with
        | c1 :: ((c2 :: r2) as r1) =>
            match cont (if n =? 0xE0 then 0xA0 else 0x80)
                       (if n =? 0xED then 0x9F else 0xBF) c1,
                  cont 0x80 0xBF c2 with
            | Some x1, Some x2 =>
                (N.shiftl (N.land n 0x0F) 12 + N.shiftl x1 6 + x2)
                  :: decode_utf8_ignore r2
            | _, _ => skip
            end
        | _ => skip
        end
      else if (0xF0 <=? n) && (n <=? 0xF4) then
        match r with
        | c1 :: c2 :: c3 :: r3 =>
            match cont (if n =? 0xF0 then 0x90 else 0x80)
                       (if n =? 0xF4 then 0x8F else 0xBF) c1,
                  cont 0x80 0xBF c2, cont 0x80 0xBF c3 with
            | Some x1, Some x2, Some x3 =>
                (N.shiftl (N.land n 0x07) 18 + N.shiftl x1 12
                 + N.shiftl x2 6 + x3) :: decode_utf8_ignore r3
            | _, _, _ => skip
            end
        | _ => skip
        end
      else skip
  end.

(** The value of a character of the base64 alphabet. *)
Definition b64val (c : N) : option N :=
  if (65 <=? c) && (c <=? 90) then Some (c - 65)
  else if (97 <=? c) && (c <=? 122) then Some (c - 71)
  else if (48 <=? c) && (c <=? 57) then Some (c + 4)
  else if c =? 43 then Some 62
  else if c =? 47 then Some 63
  else None.

(** [binascii.a2b_base64] (not strict): characters outside the alphabet
    are skipped, a pad that completes a quad ends the input, and an
    incomplete quad at the end raises [binascii.Error]. *)
Fixpoint a2b_base64 (s : str) (quad_pos : nat) (leftchar : N) (pads : nat)
  : result bytes :=
  match s with
  | [] => if (quad_pos =? 0)%nat then Ok [] else Raise BinasciiError
  | ch :: s' =>
      if ch =? 61 then
        if (2 <=? quad_pos)%nat then
          if (4 <=? quad_pos + S pads)%nat then Ok []
          else a2b_base64 s' quad_pos leftchar (S pads)
        else a2b_base64 s' quad_pos leftchar pads
      else
        match b64val ch with
        | None => a2b_base64 s' quad_pos leftchar pads
        | Some v =>
            match quad_pos with
            | 0%nat => a2b_base64 s' 1%nat v 0%nat
            | 1%nat =>
                r <- a2b_base64 s' 2%nat (N.land v 0x0f) 0%nat ;;
                Ok (byte_of_N (N.lor (N.shiftl leftchar 2) (N.shiftr v 4)) :: r)
            | 2%nat =>
                r <- a2b_base64 s' 3%nat (N.land v 0x03) 0%nat ;;
                Ok (byte_of_N (N.lor (N.shiftl leftchar 4) (N.shiftr v 2)) :: r)
            | _ =>
                r <- a2b_base64 s' 0%nat 0 0%nat ;;
                Ok (byte_of_N (N.lor (N.shiftl leftchar 6) v) :: r)
            end
        end
  end.

(** [base64.b64decode(s)] on a [str]: [ValueError] when [s] is not ASCII. *)
Definition b64decode (s : str) : result bytes :=
  if existsb (fun c => 127 <? c) s then Raise ValueError
  else a2b_base64 s 0%nat 0 0%nat.

End Py.

(** ** The metadata reader ([class MetadataReader]) *)

Module Metadata.
Import Py.

Record Reader : Type := {
  pipe_path : str;
  pipe : bool;                  (* [self.pipe is not None] *)
  buffer : str;
  last_artist : option str;
  last_title : option str;
  last_update : R
}.

(** [MetadataReader(pipe_path)]. *)
Definition MetadataReader (path : str) : Reader := {|
  pipe_path := path;
  pipe := false;
  buffer := [];
  last_artist := None;
  last_title := None;
  last_update := 0%R
|}.

Definition set_pipe (r : Reader) (v : bool) : Reader := {|
  pipe_path := pipe_path r;
  pipe := v;
  buffer := buffer r;
  last_artist := last_artist r;
  last_title := last_title r;
  last_update := last_update r
|}.

Definition set_buffer (r : Reader) (v : str) : Reader := {|
  pipe_path := pipe_path r;
  pipe := pipe r;
  buffer := v;
  last_artist := last_artist r;
  last_title := last_title r;
  last_update := last_update r
|}.

(** [self.last_artist = v; self.last_update = now]. *)
Definition set_artist (r : Reader) (v : str) (now : R) : Reader := {|
  pipe_path := pipe_path r;
  pipe := pipe r;
  buffer := buffer r;
  last_artist := Some v;
  last_title := last_title r;
  last_update := now
|}.

(** [self.last_title = v; self.last_update = now]. *)
Definition set_title (r : Reader) (v : str) (now : R) : Reader := {|
  pipe_path := pipe_path r;
  pipe := pipe r;
  buffer := buffer r;
  last_artist := last_artist r;
  last_title := Some v;
  last_update := now
|}.

(** *** The compiled patterns *)

(** The longest prefix of [l] whose elements satisfy [f], and the rest. *)
Fixpoint span {A : Type} (f : A -> bool) (l : list A) : list A * list A :=
  match l with
  | [] => ([], [])
  | x :: t =>
      if f x then let (a, b) := span f t in (x :: a, b) else ([], l)
  end.

(** [pattern.search(s)]: the match at the leftmost position where the
    pattern matches; [m] matches the pattern at the head of its argument
    and returns [group(1)]. *)
Fixpoint re_search {A : Type} (m : str -> option A) (s : str) : option A :=
  match m s with
  | Some g => Some g
  | None =>
      match s with
      | [] => None
      | _ :: s' => re_search m s'
      end
  end.

Definition is_hexdigit (c : N) : bool :=
  match hexval c with
  | Some _ => true
  | None => false
  end.

(** [<tag>([0-9A-Fa-f]+)</tag>] at the head of [s]. *)
Definition match_hex_element (tag_open tag_close s : str) : option str :=
  match strip_prefix tag_open s with
  | None => None
  | Some rest =>
      let (h, rest') := span is_hexdigit rest in
      match h with
      | [] => None
      | _ :: _ => if startswith tag_close rest' then Some h else None
      end
  end.

(** [<data[^>]*>(.*?)</data>] with [re.S] at the head of [s]. *)
Definition match_data_element (s : str) : option str :=
  match strip_prefix (lit "<data") s with
  | None => None
  | Some rest =>
      match snd (span (fun c => negb (c =? 62)%N) rest) with
      | [] => None
      | _ :: body =>
          match find (lit "</data>") body with
          | Some i => Some (firstn i body)
          | None => None
          end
      end
  end.

(** [group(1)] of [RE_PIPE_TYPE.search(s)], [RE_PIPE_CODE.search(s)] and
    [RE_PIPE_DATA.search(s)]; [None] when there is no match. *)
Definition RE_PIPE_TYPE (s : str) : option str :=
  re_search (match_hex_element (lit "<type>") (lit "</type>")) s.
Definition RE_PIPE_CODE (s : str) : option str :=
  re_search (match_hex_element (lit "<code>") (lit "</code>")) s.
Definition RE_PIPE_DATA (s : str) : option str :=
  re_search match_data_element s.

(** *** What the operating system supplies to one call of [get_track] *)

(** One turn of the read loop in which [select] reports the pipe ready:
    [os.read] returns [data] (empty at end of stream), or [select] or
    [os.read] raises [OSError]. *)
Inductive read_event : Type :=
| Chunk (data : bytes)
| Fault.

Record PipeEnv : Type := {
  can_open : bool;              (* the path exists and [open] succeeds *)
  events : list read_event;     (* what is ready; then [select] says no *)
  now_at : nat -> R             (* [time.time()] while item [k] is handled *)
}.

Section Reader.

(** [base64.b64decode] and [bytes.decode("utf-8", "ignore")]: any
    functions of these types; [Py.b64decode] and [Py.decode_utf8_ignore]
    are CPython's. *)
Variable b64decode : str -> result bytes.
Variable decode_utf8 : bytes -> str.

(** The first [try] of [_handle_item_xml]: both sub-fields from hex. *)
Definition decode_type_code (g_type g_code : str) : result (str * str) :=
  let type_hex := strip g_type in
  let code_hex := strip g_code in
  b1 <- fromhex type_hex ;;
  let type_code := decode_ascii_ignore b1 in
  b2 <- fromhex code_hex ;;
  Ok (type_code, decode_ascii_ignore b2).

(** [_handle_item_xml(item_xml)]; [now] is what [time.time()] returns. *)
Definition handle_item_xml (r : Reader) (now : R) (item_xml : str)
  : result Reader :=
  match RE_PIPE_TYPE item_xml, RE_PIPE_CODE item_xml, RE_PIPE_DATA item_xml with
  | Some g_type, Some g_code, Some g_data =>
      match decode_type_code g_type g_code with
      | Raise e => if is_ValueError e then Ok r else Raise e
      | Ok (type_code, code) =>
          match b64decode (strip g_data) with
          | Raise _ => Ok r
          | Ok payload =>
              if str_eqb type_code (lit "core") && str_eqb code (lit "asar")
              then Ok (set_artist r (strip (decode_utf8 payload)) now)
              else if str_eqb type_code (lit "core") && str_eqb code (lit "minm")
              then Ok (set_title r (strip (decode_utf8 payload)) now)
              else Ok r
          end
      end
  | _, _, _ => Ok r
  end.

(** Scrutinise [x] and keep the equation that says what it was. *)
Definition inspect {A : Type} (x : A) : {y : A | x = y} := exist _ x eq_refl.

Definition ITEM_START : str := lit "<item>".
Definition ITEM_END : str := lit "</item>".

(** The inner [while True] of [_read_chunks]: extract and handle the
    complete items of the buffer.  [k] counts the items handled in this
    call; the result carries the count after the loop, or the exception
    that left it. *)
Equations? process_items (now_at : nat -> R) (k : nat) (r : Reader)
  : Reader * result nat by wf (length (buffer r)) lt :=
  process_items now_at k r with inspect (find ITEM_START (buffer r)) := {
    | exist _ None _ => (set_buffer r (last_chars 1024 (buffer r)), Ok k)
    | exist _ (Some start) _
        with inspect (find_from ITEM_END (buffer r) start) := {
        | exist _ None _ =>
            (if (0 <? start)%nat then set_buffer r (skipn start (buffer r))
             else r, Ok k)
        | exist _ (Some stop) _
            with inspect
                   (handle_item_xml
                      (set_buffer r (skipn (stop + length ITEM_END) (buffer r)))
                      (now_at k)
                      (Np.slice (buffer r) start (stop + length ITEM_END))) := {
            | exist _ (Raise e) _ =>
                (set_buffer r (skipn (stop + length ITEM_END) (buffer r)),
                 Raise e)
            | exist _ (Ok r') _ => process_items now_at (S k) r' } } }.
Proof.
  assert (Hb : buffer r' = skipn (stop + length ITEM_END) (buffer r)).
  { revert e1. unfold handle_item_xml.
    repeat match goal with
           | |- context [match ?x with _ => _ end] => destruct x
           end; intros H; inversion H; reflexivity. }
  rewrite Hb, length_skipn.
  change (length ITEM_END) with 7.
  destruct (buffer r) as [|c b]; [vm_compute in e; discriminate|].
  cbn [length]. lia.
Qed.

(** [_close_pipe()]. *)
Definition close_pipe (r : Reader) : Reader := set_pipe r false.

(** The outer [while True] of [_read_chunks] with its [except] clauses. *)
Fixpoint read_loop (now_at : nat -> R) (k : nat) (r : Reader)
    (evs : list read_event) : Reader :=
  match evs with
  | [] => r
  | Fault :: _ => close_pipe r
  | Chunk [] :: _ => close_pipe r
  | Chunk data :: rest =>
      match process_items now_at k (set_buffer r (buffer r ++ decode_utf8 data)) with
      | (r', Raise _) => close_pipe r'
      | (r', Ok k') => read_loop now_at k' r' rest
      end
  end.

(** [_ensure_pipe()]: the reader and the returned flag. *)
Definition ensure_pipe (env : PipeEnv) (r : Reader) : Reader * bool :=
  if pipe r then (r, true)
  else if can_open env then (set_pipe r true, true)
  else (set_pipe r false, false).

(** [_read_chunks()]. *)
Definition read_chunks (env : PipeEnv) (r : Reader) : Reader :=
  let (r1, ok) := ensure_pipe env r in
  if ok then read_loop (now_at env) 0 r1 (events env) else r1.

(** [a or b] on an optional [str]. *)
Definition or_default (a : option str) (b : str) : str :=
  match a with
  | Some s => if truthy s then s else b
  | None => b
  end.

(** [bool(a)] on an optional [str]: neither [None] nor empty. *)
Definition is_set (a : option str) : bool :=
  match a with
  | Some s => truthy s
  | None => false
  end.

(** The locked block that ends [get_track]. *)
Definition current_track (r : Reader) : option str * option str * R :=
  let artist := or_default (last_artist r) (lit "Unknown Artist") in
  let title := or_default (last_title r) (lit "Unknown Track") in
  if is_set (last_artist r) || is_set (last_title r)
  then (Some artist, Some title, last_update r)
  else (None, None, 0%R).

(** [get_track()]: the reader after the drain and the returned tuple. *)
Definition get_track (env : PipeEnv) (r : Reader)
  : Reader * (option str * option str * R) :=
  let r' := read_chunks env r in
  (r', current_track r').

(** *** Vocabulary for the statements about the reader *)

(** The text a list of read events carries: its chunks, decoded, in order. *)
Fixpoint text_of (evs : list read_event) : str :=
  match evs with
  | [] => []
  | Chunk data :: rest => decode_utf8 data ++ text_of rest
  | Fault :: rest => text_of rest
  end.

(** [item] is one complete item: it opens with the start marker and its
    only end marker closes it. *)
Definition framed (item : str) : Prop :=
  startswith ITEM_START item = true /\
  find ITEM_END item = Some (length item - length ITEM_END)%nat.

(** [item] decodes to type ["core"], code [code] and [payload]. *)
Definition carries (code item : str) (payload : bytes) : Prop :=
  exists g_type g_code g_data b_type b_code,
    RE_PIPE_TYPE item = Some g_type /\
    RE_PIPE_CODE item = Some g_code /\
    RE_PIPE_DATA item = Some g_data /\
    fromhex (strip g_type) = Ok b_type /\
    fromhex (strip g_code) = Ok b_code /\
    decode_ascii_ignore b_type = lit "core" /\
    decode_ascii_ignore b_code = code /\
    b64decode (strip g_data) = Ok payload.

(** A sub-field of [item] is missing or fails to decode. *)
Definition undecodable (item : str) : Prop :=
  RE_PIPE_TYPE item = None \/
  RE_PIPE_CODE item = None \/
  RE_PIPE_DATA item = None \/
  (exists g e, RE_PIPE_TYPE item = Some g /\ fromhex (strip g) = Raise e) \/
  (exists g e, RE_PIPE_CODE item = Some g /\ fromhex (strip g) = Raise e) \/
  (exists g e, RE_PIPE_DATA item = Some g /\ b64decode (strip g) = Raise e).

(** Items handled one after the other, each with the time it is handled
    at. *)
Fixpoint handle_all (r : Reader) (its : list (R * str)) : Reader :=
  match its with
  | [] => r
  | (now, item) :: rest =>
      match handle_item_xml r now item with
      | Ok r' => handle_all r' rest
      | Raise _ => r
      end
  end.

(** [get_track()] called once for each of [envs], in turn: the reader after
    the last call and what each call returned. *)
Fixpoint get_track_calls (envs : list PipeEnv) (r : Reader)
  : Reader * list (option str * option str * R) :=
  match envs with
  | [] => (r, [])
  | env :: rest =>
      let (r1, out) := get_track env r in
      let (r2, outs) := get_track_calls rest r1 in
      (r2, out :: outs)
  end.

(** The text the pipe delivers over these calls. *)
Definition delivered (envs : list PipeEnv) : str :=
  text_of (flat_map events envs).

End Reader.

(** *** Sample streams *)

Definition dquote : string := String (ascii_of_nat 34) EmptyString.
Definition newline : string := String (ascii_of_nat 10) EmptyString.

(** One item as shairport-sync writes it, with type ["core"] in hex. *)
Definition item_text (code_hex len data_b64 : string) : string :=
  String.concat EmptyString
    ["<item><type>636f7265</type><code>"; code_hex; "</code><length>"; len;
     "</length>"; newline; "<data encoding="; dquote; "base64"; dquote; ">";
     newline; data_b64; "</data></item>"]%string.

(** Artist ["Daft Punk"] ([asar]) and title ["One More Time"] ([minm]). *)
Definition artist_item : string := item_text "61736172" "9" "RGFmdCBQdW5r".
Definition title_item : string := item_text "6d696e6d" "13" "T25lIE1vcmUgVGltZQ==".

(** An artist item whose payload is one space and a title item whose
    payload is empty. *)
Definition blank_artist_item : string := item_text "61736172" "1" "IA==".
Definition blank_title_item : string := item_text "6d696e6d" "0" "".

(** An artist item whose type field has an odd number of hex digits. *)
Definition odd_hex_item : string :=
  "<item><type>636f726</type><code>61736172</code><data>QQ==</data></item>".

(** A chunk of 1600 characters, none of them [<]. *)
Definition noise : string :=
  String.concat EmptyString (repeat "no marker here, " 100)%string.

(** A chunk whose bytes hold no start marker, but whose text does once
    the byte [0xff] inside ["<it" 0xff "em>"] is dropped by the decoder. *)
Definition split_marker_chunk : string :=
  String.concat EmptyString
    ["<it"; String (ascii_of_nat 255) EmptyString; "em>"; noise]%string.

(** The octets of a [bytes] as code points, to search it for a marker. *)
Definition octets (b : bytes) : str := map Byte.to_N b.

Definition PIPE_PATH : str := lit "/tmp/shairport-sync-metadata".

(** What the pipe delivers to one call: [chunks], read at [t]. *)
Definition pipe_env (chunks : list string) (t : R) : PipeEnv :=
  {| can_open := true;
     events := map (fun c => Chunk (blit c)) chunks;
     now_at := fun k => (t + INR k)%R |}.

End Metadata.

(** ** The stand-alone visualizer ([audio_visualizer.py]) *)

Module Visualizer.
Import Np.
Local Open Scope R_scope.

Definition N_BANDS : nat := 8.

(** [class AudioVisualizer]: the field its callback works on. *)
Record AudioVisualizer : Type := {
  levels : list npfloat
}.

(** [AudioVisualizer.__init__]: [self.levels = np.zeros(N_BANDS)]. *)
Definition AudioVisualizer_init : AudioVisualizer :=
  {| levels := zeros N_BANDS |}.

(** One turn of the band loop: the mean of [mag[start:end]] when
    [end > start], [0.0] otherwise. *)
Definition band_level (mag : list R) (band_size i : nat) : npfloat :=
  let start := (i * band_size)%nat in
  let stop :=
    if (i <? N_BANDS - 1)%nat then ((i + 1) * band_size)%nat else length mag in
  if (start <? stop)%nat then mean (slice mag start stop) else Num 0.

(** [clip((20 * log10(b + 1e-8) + 60) / 60, 0, 1)]. *)
Definition normalise (b : npfloat) : npfloat :=
  lift (clip 0 1)
    (lift (fun d => (d + 60) / 60)
       (lift (fun v => 20 * log10 (v + 1e-8)) b)).

(** [0.7 * self.levels + 0.3 * bands], cell by cell. *)
Definition smooth (current_levels bands : list npfloat) : list npfloat :=
  map (fun p => lift2 Rplus (lift (Rmult 0.7) (fst p)) (lift (Rmult 0.3) (snd p)))
      (combine current_levels bands).

(** The bands [audio_callback] computes from a mono signal. *)
Definition bands_of (mono : list R) : result (list npfloat) :=
  spectrum <- rfft (Audio.mul mono (hanning (length mono))) ;;
  let mag := tl (map cabs spectrum) in
  let band_size := Nat.max 1 (length mag / N_BANDS) in
  Ok (map normalise (map (band_level mag band_size) (seq 0 N_BANDS))).

(** [AudioVisualizer.audio_callback(indata, frames, time_info, status)].
    The stream is opened with [channels=2], so [indata] is a two-column
    array, here a list of (left, right) frames, and [indata.ndim == 2]. *)
Definition audio_callback (self : AudioVisualizer) (indata : list (R * R))
  : result AudioVisualizer :=
  let mono := map (fun f => mean_fin [fst f; snd f]) indata in
  bands <- bands_of mono ;;
  Ok {| levels := smooth (levels self) bands |}.

End Visualizer.

(** ** The rest of the configuration *)

(** The fields of [class Config] that the display, the stream start-up and
    the main loop read; [core] holds the fields above. *)
Record AppConfig : Type := {
  core :> Config;
  config_pipe_path : str;       (* [pipe_path], a name the reader uses *)
  scroll_speed : R;
  check_interval : R;
  metadata_timeout : R;
  no_audio_timeout : R;
  airplay_blue : Z * Z * Z;
  spotify_green : Z * Z * Z;
  track_white : Z * Z * Z;
  error_red : Z * Z * Z;
  green : Z * Z * Z;
  orange : Z * Z * Z;
  red : Z * Z * Z;
  audio_max_retries : Z;
  audio_retry_delay : R
}.

(** The defaults of these fields. *)
Definition APP_CONFIG : AppConfig := {|
  core := CONFIG;
  config_pipe_path :=
    map Ascii.N_of_ascii
        (String.list_ascii_of_string "/tmp/shairport-sync-metadata");
  scroll_speed := 0.02;
  check_interval := 0.12;
  metadata_timeout := 20.0;
  no_audio_timeout := 10.0;
  airplay_blue := (0, 100, 255)%Z;
  spotify_green := (30, 215, 96)%Z;
  track_white := (255, 255, 255)%Z;
  error_red := (255, 0, 0)%Z;
  green := (0, 255, 0)%Z;
  orange := (255, 140, 0)%Z;
  red := (255, 0, 0)%Z;
  audio_max_retries := 3;
  audio_retry_delay := 2.0
|}.

(** ** Exceptions and effects of the display and the main loop *)

(** The exceptions met outside the audio callback and the reader: those of
    [exn], [IndexError], and any other exception, kept as its message. *)
Inductive app_exn : Type :=
| Base (e : exn)
| IndexError
| Uncaught (message : str).

Inductive outcome (A : Type) : Type :=
| Returns (a : A)
| Raises (e : app_exn).
Arguments Returns {A} a.
Arguments Raises {A} e.

Definition and_then {A B : Type} (r : outcome A) (k : A -> outcome B) : outcome B :=
  match r with
  | Returns a => k a
  | Raises e => Raises e
  end.

Notation "x <~ r ;; k" := (and_then r (fun x => k))
  (at level 61, r at next level, right associativity).

(** What the program does to the world around it, in the order it does it:
    the calls of the [DisplayController] methods (which do nothing when
    there is no Sense HAT, and swallow what the Sense HAT raises),
    [time.sleep], the connection sound and the calls on the input stream. *)
Inductive call : Type :=
| display_clear
| display_set_pixels (pixels : list (Z * Z * Z))
| display_show_message (text : str) (text_colour : Z * Z * Z) (speed : R)
| sleep (seconds : R)
| play_connection_sound
| stream_stop_close.

(** [time.sleep(d)]: [ValueError] on a negative length. *)
Definition time_sleep (d : R) : outcome (list call) :=
  if Rlt_dec d 0 then Raises (Base ValueError) else Returns [sleep d].

(** ** The display functions *)

Module Display.
Import Np Ambient.
Local Open Scope R_scope.

Definition off : Z * Z * Z := (0, 0, 0)%Z.

(** [round(x)] on a float: the nearest integer, the even one on a tie. *)
Definition py_round (x : R) : Z :=
  let f := Int_part x in
  let d := x - IZR f in
  if Rlt_dec d (1 / 2) then f
  else if Rlt_dec (1 / 2) d then (f + 1)%Z
  else if Z.even f then f else (f + 1)%Z.

(** A pixel the Sense HAT accepts: three values within [0 .. 255]. *)
Definition valid_pixel (p : Z * Z * Z) : Prop :=
  let '(r, g, b) := p in
  (0 <= r <= 255 /\ 0 <= g <= 255 /\ 0 <= b <= 255)%Z.

(** [pixels[i] = v]: [IndexError] beyond the end. *)
Definition set_item {A : Type} (l : list A) (i : nat) (v : A) : outcome (list A) :=
  if (i <? length l)%nat then Returns (list_set l i v) else Raises IndexError.

(** [scroll_text(display, text, base_color)]; [h] is the hour of day read
    by [get_brightness_factor]. *)
Definition scroll_text (cfg : AppConfig) (h : R) (text : str) (base_color : Z * Z * Z)
  : list call :=
  let factor := get_brightness_factor cfg h in
  let color := apply_brightness base_color factor in
  [display_show_message text color (scroll_speed cfg)].

(** [show_airplay_icon(display)]. *)
Definition show_airplay_icon (cfg : AppConfig) (h : R) : list call :=
  let factor := get_brightness_factor cfg h in
  let W := apply_brightness (255, 255, 255)%Z factor in
  let B := apply_brightness (0, 0, 255)%Z factor in
  let pixels := [
    W; W; B; B; B; B; W; W;
    W; B; W; W; W; W; B; W;
    B; W; W; B; B; W; W; B;
    W; W; B; W; W; B; W; W;
    W; B; W; W; W; W; B; W;
    W; W; W; B; B; W; W; W;
    W; W; B; W; W; B; W; W;
    W; W; W; W; W; W; W; W
  ] in
  [display_clear; display_set_pixels pixels; sleep 1.5].

(** [show_no_audio_x(display)]. *)
Definition show_no_audio_x (cfg : AppConfig) (h : R) : list call :=
  let factor := get_brightness_factor cfg h in
  let rgb := apply_brightness (error_red cfg) factor in
  let coords := [
    (0, 0); (1, 1); (2, 2); (3, 3);
    (4, 4); (5, 5); (6, 6); (7, 7);
    (7, 0); (6, 1); (5, 2); (4, 3);
    (3, 4); (2, 5); (1, 6); (0, 7)
  ]%nat in
  let pixels :=
    fold_left (fun px xy => list_set px (snd xy * 8 + fst xy) rgb)
              coords (repeat off 64) in
  [display_set_pixels pixels].

(** The colour of a bar at [row], counted from the bottom. *)
Definition row_color (cfg : AppConfig) (row : nat) : Z * Z * Z :=
  if (row <=? 2)%nat then green cfg
  else if (row <=? 4)%nat then orange cfg
  else red cfg.

(** The inner loop of [draw_levels]: the rows of column [x]. *)
Fixpoint fill_rows (cfg : AppConfig) (brightness : R) (x : nat) (rows : list nat)
    (pixels : list (Z * Z * Z)) : outcome (list (Z * Z * Z)) :=
  match rows with
  | [] => Returns pixels
  | row :: rest =>
      let y := (7 - row)%nat in
      let rgb := apply_brightness (row_color cfg row) brightness in
      px <~ set_item pixels (y * 8 + x) rgb ;;
      fill_rows cfg brightness x rest px
  end.

(** [h = max(0, min(8, int(round(v * 8))))] for [v = float(lv[x])]:
    [IndexError] beyond the end of [lv], [ValueError] on NaN. *)
Definition bar_height (lv : list npfloat) (x : nat) : outcome nat :=
  match nth_error lv x with
  | None => Raises IndexError
  | Some NaN => Raises (Base ValueError)
  | Some (Num v) => Returns (Z.to_nat (Z.max 0 (Z.min 8 (py_round (v * 8)))))
  end.

(** The height drawn for band [x]; 0 where [bar_height] raises. *)
Definition height_of (lv : list npfloat) (x : nat) : nat :=
  match bar_height lv x with
  | Returns h => h
  | Raises _ => 0%nat
  end.

(** The outer loop of [draw_levels]: the columns. *)
Fixpoint fill_columns (cfg : AppConfig) (brightness : R) (lv : list npfloat)
    (xs : list nat) (pixels : list (Z * Z * Z)) : outcome (list (Z * Z * Z)) :=
  match xs with
  | [] => Returns pixels
  | x :: rest =>
      h <~ bar_height lv x ;;
      px <~ fill_rows cfg brightness x (seq 0 h) pixels ;;
      fill_columns cfg brightness lv rest px
  end.

(** [draw_levels(display)]; [h] is the hour of day. *)
Definition draw_levels (cfg : AppConfig) (h : R) (st : State) : outcome (list call) :=
  let brightness := get_brightness_factor cfg h in
  pixels <~ fill_columns cfg brightness (levels_smooth st) (seq 0 (n_bands cfg))
                         (repeat off 64) ;;
  Returns [display_set_pixels pixels].

(** The levels have [n_bands] cells and one of them is NaN. *)
Definition unreadable (cfg : AppConfig) (st : State) : Prop :=
  length (levels_smooth st) = n_bands cfg /\
  exists i, (i < n_bands cfg)%nat /\ nth_error (levels_smooth st) i = Some NaN.

End Display.

(** ** Picking the input device and starting the stream *)

Module Stream.
Import Py.

(** An entry of [sd.query_devices()]. *)
Record Device : Type := {
  name : str;
  max_input_channels : Z
}.

(** The started [sd.InputStream]. *)
Record InputStream : Type := {
  device : nat
}.

(** [sub in s]. *)
Definition contains (sub s : str) : bool :=
  match find sub s with
  | Some _ => true
  | None => false
  end.

(** The index of the first element that satisfies [p], counted from [idx]. *)
Fixpoint first_index {A : Type} (p : A -> bool) (l : list A) (idx : nat) : option nat :=
  match l with
  | [] => None
  | x :: t => if p x then Some idx else first_index p t (S idx)
  end.

(** What one start attempt meets: the result of [sd.query_devices()], and
    for each device index whether [sd.InputStream(...)] and [start()]
    succeed or raise, with [str(e)] of the exception. *)
Inductive opening : Type :=
| Started
| Fails (message : str).

Record Attempt : Type := {
  query : option (list Device);
  open : nat -> opening
}.

Section Lower.

(** [str.lower]. *)
Variable lower : str -> str.

Definition has_input (dev : Device) : bool := (0 <? max_input_channels dev)%Z.

Definition is_pulse_input (dev : Device) : bool :=
  has_input dev && contains (lit "pulse") (lower (name dev)).

(** [pick_audio_device()]; [None] in [devices] is a raising
    [sd.query_devices()]. *)
Definition pick_audio_device (devices : option (list Device)) : option nat :=
  match devices with
  | None => None
  | Some devices =>
      match first_index is_pulse_input devices 0 with
      | Some idx => Some idx
      | None => first_index has_input devices 0
      end
  end.

(** An attempt that does not start the stream: no device is picked, or
    opening the stream on the device picked raises. *)
Definition attempt_fails (a : Attempt) : Prop :=
  match pick_audio_device (query a) with
  | None => True
  | Some dev => open a dev <> Started
  end.

(** The loop of [start_audio_stream] over the attempts left; [env i] is
    what attempt [i] meets.  The result carries [STATE] and the calls made
    so far, also when [time.sleep] raises. *)
Fixpoint start_attempts (cfg : AppConfig) (env : nat -> Attempt)
    (attempts : list nat) (st : State) (calls : list call)
  : State * list call * outcome (option InputStream) :=
  match attempts with
  | [] => (st, calls, Returns None)
  | attempt :: rest =>
      match pick_audio_device (query (env attempt)) with
      | None =>
          match time_sleep (audio_retry_delay cfg) with
          | Raises e => (st, calls, Raises e)
          | Returns c => start_attempts cfg env rest st (calls ++ c)
          end
      | Some dev =>
          match open (env attempt) dev with
          | Started =>
              ({| levels_smooth := levels_smooth st;
                  audio_last_active := audio_last_active st;
                  ambient_index := ambient_index st;
                  agc_gain := agc_gain st;
                  stream_active := true;
                  last_error := last_error st;
                  silence_detected := silence_detected st;
                  saved_volume := saved_volume st;
                  ducked_until := ducked_until st |},
               calls, Returns (Some {| device := dev |}))
          | Fails message =>
              let st1 :=
                {| levels_smooth := levels_smooth st;
                   audio_last_active := audio_last_active st;
                   ambient_index := ambient_index st;
                   agc_gain := agc_gain st;
                   stream_active := stream_active st;
                   last_error := Some message;
                   silence_detected := silence_detected st;
                   saved_volume := saved_volume st;
                   ducked_until := ducked_until st |} in
              match time_sleep (audio_retry_delay cfg) with
              | Raises e => (st1, calls, Raises e)
              | Returns c => start_attempts cfg env rest st1 (calls ++ c)
              end
          end
      end
  end.

(** [start_audio_stream()]. *)
Definition start_audio_stream (cfg : AppConfig) (env : nat -> Attempt) (st : State)
  : State * list call * outcome (option InputStream) :=
  start_attempts cfg env (seq 0 (Z.to_nat (audio_max_retries cfg))) st [].

End Lower.

End Stream.

(** ** The application that plays: [detect_current_app] and [get_app_color] *)

Module Pactl.
Import Py Metadata.

(** The characters [str.splitlines] breaks a line at. *)
Definition is_linebreak (c : N) : bool :=
  existsb (N.eqb c) [0xa; 0xb; 0xc; 0xd; 0x1c; 0x1d; 0x1e; 0x85; 0x2028; 0x2029]%N.

(** [s.splitlines()], with the line read so far in [cur], last character
    first: a carriage return and the line feed after it are one break, and
    there is no empty last line. *)
Fixpoint splitlines_from (cur s : str) : list str :=
  match s with
  | [] =>
      match cur with
      | [] => []
      | _ :: _ => [rev cur]
      end
  | c :: rest =>
      if is_linebreak c then
        rev cur ::
        (if (c =? 0xd)%N then
           match rest with
           | d :: rest' =>
               if (d =? 0xa)%N then splitlines_from [] rest'
               else splitlines_from [] rest
           | [] => splitlines_from [] rest
           end
         else splitlines_from [] rest)
      else splitlines_from (c :: cur) rest
  end.

Definition splitlines (s : str) : list str := splitlines_from [] s.

(** What [subprocess.run(["pactl", ...], capture_output=True, text=True,
    timeout=2)] does: it completes with some standard output, or raises. *)
Inductive run_result : Type :=
| Completed (stdout : str)
| TimeoutExpired
| FileNotFoundError
| CalledProcessError
| OtherFailure (message : str).

(** The pattern of [RE_APP_NAME] at the head of [s]: the literal
    [application.name=], a double quote, one or more characters other than
    a double quote (as many as there are), and a double quote. *)
Definition match_app_name (s : str) : option str :=
  match strip_prefix (lit "application.name=" ++ lit dquote) s with
  | None => None
  | Some rest =>
      let (g, rest') := span (fun c => negb (c =? 34)%N) rest in
      match g, rest' with
      | _ :: _, _ :: _ => Some g
      | _, _ => None
      end
  end.

(** [group(1)] of [RE_APP_NAME.search(s)]. *)
Definition RE_APP_NAME (s : str) : option str := re_search match_app_name s.

(** [bool(l)] on a list. *)
Definition truthy_list {A : Type} (l : list A) : bool :=
  match l with
  | [] => false
  | _ :: _ => true
  end.

(** The first line of [block] that names an application, as the two
    [for] loops over a block look for it. *)
Fixpoint block_app_name (block : list str) : option str :=
  match block with
  | [] => None
  | line :: rest =>
      match RE_APP_NAME line with
      | Some g => Some g
      | None => block_app_name rest
      end
  end.

Section Unicode.

(** The code points of Unicode category [Nd], which [\d] matches, and
    [str.lower]. *)
Variable isdecimal : N -> bool.
Variable lower : str -> str.

(** [RE_SINK_INPUT.match(line)], for [^\s*Sink Input #\d+]. *)
Definition RE_SINK_INPUT (line : str) : bool :=
  match strip_prefix (lit "Sink Input #") (lstrip line) with
  | Some (c :: _) => isdecimal c
  | _ => false
  end.

(** The loop of [detect_current_app] over the lines left, and the check of
    the final block. *)
Fixpoint scan_lines (lines current_block : list str) : str :=
  match lines with
  | [] =>
      match block_app_name current_block with
      | Some g => g
      | None => lit "unknown"
      end
  | line :: rest =>
      if RE_SINK_INPUT line then
        match (if truthy_list current_block then block_app_name current_block
               else None) with
        | Some g => g
        | None => scan_lines rest [line]
        end
      else scan_lines rest (current_block ++ [line])
  end.

(** [detect_current_app()], given what [subprocess.run] does. *)
Definition detect_current_app (run : run_result) : outcome str :=
  match run with
  | Completed stdout => Returns (scan_lines (splitlines stdout) [])
  | TimeoutExpired | FileNotFoundError | CalledProcessError =>
      Returns (lit "unknown")
  | OtherFailure message => Raises (Uncaught message)
  end.

(** [self.app_colors], in the order of insertion. *)
Definition app_colors (cfg : AppConfig) : list (str * (Z * Z * Z)) :=
  [(lit "Shairport Sync", airplay_blue cfg);
   (lit "AirPlay", airplay_blue cfg);
   (lit "Spotify", spotify_green cfg);
   (lit "librespot", spotify_green cfg)].

(** [Config.get_app_color(app_name)]. *)
Definition get_app_color (cfg : AppConfig) (app_name : str) : Z * Z * Z :=
  let app_lower := lower app_name in
  match List.find (fun kc => Stream.contains (lower (fst kc)) app_lower)
                  (app_colors cfg) with
  | Some (_, color) => color
  | None => track_white cfg
  end.

End Unicode.

End Pactl.

(** ** The application ([class MusicDisplayApp]) *)

Module App.
Import Np Audio Ambient Py Metadata Display Stream Pactl.
Local Open Scope R_scope.

Record MusicDisplayApp : Type := {
  reader : Reader;
  stream : option InputStream;
  running : bool;
  last_connection_sound_time : R
}.

(** [MusicDisplayApp.__init__]. *)
Definition MusicDisplayApp_init (cfg : AppConfig) : MusicDisplayApp := {|
  reader := MetadataReader (config_pipe_path cfg);
  stream := None;
  running := false;
  last_connection_sound_time := 0
|}.

(** The local variables of [_main_loop]. *)
Record Locals : Type := {
  last_shown_track : option str;
  last_track_display_time : R;
  no_audio_shown : bool;
  consecutive_errors : Z
}.

(** Their values when the loop is entered. *)
Definition Locals_init : Locals := {|
  last_shown_track := None;
  last_track_display_time := 0;
  no_audio_shown := false;
  consecutive_errors := 0
|}.

(** The program between two turns of the loop: the application object, the
    locals of the loop, and the globals [STATE] and [_HANN_WINDOW]. *)
Record Program : Type := {
  self : MusicDisplayApp;
  locals : Locals;
  globals : World
}.

(** What one turn of the loop meets: what the pipe supplies to
    [get_track()], the clock and the hour of day where they are read, what
    [pactl] does, and what the attempts of a restart of the stream meet. *)
Record Turn : Type := {
  pipe_supply : PipeEnv;
  now : R;                      (* [now = time.time()] *)
  hour_icon : R;                (* in [show_airplay_icon] *)
  pactl : run_result;           (* in [detect_current_app] *)
  hour_scroll : R;              (* in [scroll_text] *)
  shown_at : R;                 (* [last_track_display_time = time.time()] *)
  hour_no_audio : R;            (* in [show_no_audio_x] *)
  hour_frame : R;               (* in [draw_levels] or [ambient_step] *)
  frame_at : R;                 (* [t = time.time()] in [ambient_step] *)
  restart_env : nat -> Attempt
}.

(** How a turn, or the loop, ends: the loop goes on, it is left (and
    [_shutdown] follows), or an exception leaves [_main_loop]. *)
Inductive status : Type :=
| Running
| Finished
| Escaped (e : app_exn).

(** [f"{x}"] on an optional [str]. *)
Definition fmt (x : option str) : str :=
  match x with
  | Some s => s
  | None => lit "None"
  end.

(** [current_track != last_shown_track]. *)
Definition differs (current_track : str) (last : option str) : bool :=
  match last with
  | None => true
  | Some s => negb (str_eqb current_track s)
  end.

Definition is_None {A : Type} (x : option A) : bool :=
  match x with
  | None => true
  | Some _ => false
  end.

Definition set_stream_active (st : State) (v : bool) : State := {|
  levels_smooth := levels_smooth st;
  audio_last_active := audio_last_active st;
  ambient_index := ambient_index st;
  agc_gain := agc_gain st;
  stream_active := v;
  last_error := last_error st;
  silence_detected := silence_detected st;
  saved_volume := saved_volume st;
  ducked_until := ducked_until st
|}.

(** The texts scrolled across the display, and the number of frames
    drawn, by a sequence of calls. *)
Definition announcements (calls : list call) : list str :=
  flat_map (fun c => match c with
                     | display_show_message text _ _ => [text]
                     | _ => []
                     end) calls.

Definition frames (calls : list call) : nat :=
  length (filter (fun c => match c with
                           | display_set_pixels _ => true
                           | _ => false
                           end) calls).

Section Libraries.

Variable b64decode : str -> result bytes.
Variable decode_utf8 : bytes -> str.
Variable isdecimal : N -> bool.
Variable lower : str -> str.

(** The body of [if current_track != last_shown_track or no_audio_shown]:
    the track is announced. *)
Definition announce (cfg : AppConfig) (turn : Turn) (current_track : str)
    (app : MusicDisplayApp) (loc : Locals)
  : MusicDisplayApp * Locals * list call * outcome unit :=
  let should_play_connection_sound :=
    (is_None (last_shown_track loc) || no_audio_shown loc)
    && Rltb 5 (now turn - last_connection_sound_time app) in
  let app1 :=
    if should_play_connection_sound then
      {| reader := reader app; stream := stream app; running := running app;
         last_connection_sound_time := now turn |}
    else app in
  let calls1 :=
    (if should_play_connection_sound then [play_connection_sound] else [])
    ++ show_airplay_icon cfg (hour_icon turn) in
  match detect_current_app isdecimal (pactl turn) with
  | Raises e => (app1, loc, calls1, Raises e)
  | Returns app_name =>
      let base_color := get_app_color lower cfg app_name in
      (app1,
       {| last_shown_track := Some current_track;
          last_track_display_time := shown_at turn;
          no_audio_shown := false;
          consecutive_errors := consecutive_errors loc |},
       calls1 ++ scroll_text cfg (hour_scroll turn) current_track base_color,
       Returns tt)
  end.

(** [audio_recent] and [metadata_fresh]. *)
Definition audio_recent (turn : Turn) (st : State) : bool :=
  Rltb (now turn - audio_last_active st) 1.5.

Definition metadata_fresh (cfg : AppConfig) (turn : Turn) (updated_at : R) : bool :=
  Rltb 0 updated_at && Rleb (now turn - updated_at) (metadata_timeout cfg).

(** The body of the inner [try] of [_main_loop].  The audio callback does
    not run while it does: [st] is [STATE] for the whole turn. *)
Definition try_body (cfg : AppConfig) (turn : Turn) (app : MusicDisplayApp)
    (loc : Locals) (st : State)
  : MusicDisplayApp * Locals * State * list call * outcome unit :=
  let '(r', (artist, title, updated_at)) :=
    get_track b64decode decode_utf8 (pipe_supply turn) (reader app) in
  let app0 :=
    {| reader := r'; stream := stream app; running := running app;
       last_connection_sound_time := last_connection_sound_time app |} in
  let recent := audio_recent turn st in
  let fresh := metadata_fresh cfg turn updated_at in
  (* Track display logic *)
  let '(app1, loc1, calls1, shown) :=
    if recent && fresh && (is_set artist || is_set title) then
      let current_track := fmt artist ++ lit " - " ++ fmt title in
      if differs current_track (last_shown_track loc) || no_audio_shown loc
      then announce cfg turn current_track app0 loc
      else (app0, loc, [], Returns tt)
    else (app0, loc, [], Returns tt) in
  match shown with
  | Raises e => (app1, loc1, st, calls1, Raises e)
  | Returns _ =>
      (* No audio indicator *)
      let '(loc2, calls2) :=
        if negb recent
           && Rltb (no_audio_timeout cfg) (now turn - audio_last_active st)
        then
          if negb (no_audio_shown loc1) then
            ({| last_shown_track := last_shown_track loc1;
                last_track_display_time := last_track_display_time loc1;
                no_audio_shown := true;
                consecutive_errors := consecutive_errors loc1 |},
             calls1 ++ show_no_audio_x cfg (hour_no_audio turn) ++ [sleep 0.7])
          else (loc1, calls1)
        else (loc1, calls1) in
      (* Draw visualizer or ambient *)
      if recent then
        match draw_levels cfg (hour_frame turn) st with
        | Raises e => (app1, loc2, st, calls2, Raises e)
        | Returns c =>
            (app1,
             {| last_shown_track := last_shown_track loc2;
                last_track_display_time := last_track_display_time loc2;
                no_audio_shown := false;
                consecutive_errors := 0 |},
             st, calls2 ++ c, Returns tt)
        end
      else
        let (pixels, st') := ambient_step cfg (hour_frame turn) (frame_at turn) st in
        (app1,
         {| last_shown_track := last_shown_track loc2;
            last_track_display_time := last_track_display_time loc2;
            no_audio_shown := no_audio_shown loc2;
            consecutive_errors := 0 |},
         st', calls2 ++ [display_set_pixels pixels], Returns tt)
  end.

(** The condition of [if self.stream is not None and not
    STATE.stream_active]. *)
Definition stream_died (app : MusicDisplayApp) (st : State) : bool :=
  negb (is_None (stream app)) && negb (stream_active st).

(** The [except Exception] clause of the inner [try]. *)
Definition on_error (cfg : AppConfig) (turn : Turn) (app : MusicDisplayApp)
    (loc : Locals) (st : State)
  : MusicDisplayApp * Locals * State * list call * status :=
  let loc1 :=
    {| last_shown_track := last_shown_track loc;
       last_track_display_time := last_track_display_time loc;
       no_audio_shown := no_audio_shown loc;
       consecutive_errors := consecutive_errors loc + 1 |} in
  if (10 <? consecutive_errors loc1)%Z then (app, loc1, st, [], Finished)
  else if stream_died app st then
    match start_audio_stream lower cfg (restart_env turn) st with
    | (st', calls, Raises e) => (app, loc1, st', sleep 1 :: calls, Escaped e)
    | (st', calls, Returns s) =>
        ({| reader := reader app; stream := s; running := running app;
            last_connection_sound_time := last_connection_sound_time app |},
         loc1, st', sleep 1 :: calls, Running)
    end
  else (app, loc1, st, [], Running).

(** One turn of [while self.running], for a [running] application: the
    inner [try] with its [except] clause, then
    [time.sleep(CONFIG.check_interval)]. *)
Definition one_turn (cfg : AppConfig) (turn : Turn) (p : Program)
  : Program * list call * status :=
  let st := W_STATE (globals p) in
  let '(app1, loc1, st1, calls1, r) := try_body cfg turn (self p) (locals p) st in
  let '(app2, loc2, st2, calls2, s) :=
    match r with
    | Returns _ => (app1, loc1, st1, calls1, Running)
    | Raises _ =>
        let '(a, l, t, c, s) := on_error cfg turn app1 loc1 st1 in
        (a, l, t, calls1 ++ c, s)
    end in
  let p2 :=
    {| self := app2; locals := loc2;
       globals := {| W_STATE := st2; W_HANN := W_HANN (globals p) |} |} in
  match s with
  | Running =>
      match time_sleep (check_interval cfg) with
      | Returns c => (p2, calls2 ++ c, Running)
      | Raises e => (p2, calls2, Escaped e)
      end
  | _ => (p2, calls2, s)
  end.

(** The audio thread between two turns: the callbacks on the blocks the
    stream delivers, when there is a stream. *)
Definition deliver (cfg : AppConfig) (blocks : list (ndarray * R)) (p : Program)
  : Program :=
  match stream (self p) with
  | None => p
  | Some _ =>
      {| self := self p; locals := locals p;
         globals := run_callbacks cfg (globals p) blocks |}
  end.

(** [while self.running] over the turns observed; each comes with the
    blocks delivered since the turn before.  The result is the program
    when the loop is left or the observation ends, and the calls made. *)
Fixpoint while_running (cfg : AppConfig) (turns : list (list (ndarray * R) * Turn))
    (p : Program) : Program * list call * status :=
  match turns with
  | [] => (p, [], Running)
  | (blocks, turn) :: rest =>
      if running (self p) then
        match one_turn cfg turn (deliver cfg blocks p) with
        | (p1, calls, Running) =>
            let '(p2, calls', s) := while_running cfg rest p1 in
            (p2, calls ++ calls', s)
        | (p1, calls, s) => (p1, calls, s)
        end
      else (p, [], Finished)
  end.

(** [_shutdown()]. *)
Definition shutdown (p : Program) : Program * list call :=
  ({| self :=
        {| reader := reader (self p); stream := stream (self p);
           running := false;
           last_connection_sound_time := last_connection_sound_time (self p) |};
      locals := locals p; globals := globals p |},
   (if is_None (stream (self p)) then [] else [stream_stop_close])
   ++ [display_clear]).

(** [_main_loop()]: the loop, entered with fresh locals, and [_shutdown]
    when the loop is left. *)
Definition main_loop (cfg : AppConfig) (turns : list (list (ndarray * R) * Turn))
    (app : MusicDisplayApp) (w : World) : Program * list call * status :=
  let '(p, calls, s) :=
    while_running cfg turns {| self := app; locals := Locals_init; globals := w |} in
  match s with
  | Finished => let (p', c) := shutdown p in (p', calls ++ c, Finished)
  | _ => (p, calls, s)
  end.

(** [start()]: the stream is started, then the main loop runs. *)
Definition start (cfg : AppConfig) (env : nat -> Attempt)
    (turns : list (list (ndarray * R) * Turn)) (app : MusicDisplayApp) (w : World)
  : Program * list call * status :=
  match start_audio_stream lower cfg env (W_STATE w) with
  | (st, calls, Raises e) =>
      ({| self := app; locals := Locals_init;
          globals := {| W_STATE := st; W_HANN := W_HANN w |} |},
       calls, Escaped e)
  | (st, calls, Returns s) =>
      let app1 :=
        {| reader := reader app; stream := s; running := true;
           last_connection_sound_time := last_connection_sound_time app |} in
      let '(p, calls', s') :=
        main_loop cfg turns app1 {| W_STATE := st; W_HANN := W_HANN w |} in
      (p, calls ++ display_clear :: calls', s')
  end.

(** *** Vocabulary for the statements about the loop *)

(** The track a turn would announce: the text built from what
    [get_track()] returns, when the metadata is fresh and names an artist
    or a title. *)
Definition playing_track (cfg : AppConfig) (turn : Turn) (app : MusicDisplayApp)
  : option str :=
  let '(_, (artist, title, updated_at)) :=
    get_track b64decode decode_utf8 (pipe_supply turn) (reader app) in
  if metadata_fresh cfg turn updated_at && (is_set artist || is_set title)
  then Some (fmt artist ++ lit " - " ++ fmt title)
  else None.

(** A property of the program and the turn that holds at every turn the
    loop runs, with the program as the turn finds it. *)
Fixpoint throughout (cfg : AppConfig) (P : Program -> Turn -> Prop)
    (turns : list (list (ndarray * R) * Turn)) (p : Program) : Prop :=
  match turns with
  | [] => True
  | (blocks, turn) :: rest =>
      P (deliver cfg blocks p) turn /\
      throughout cfg P rest (fst (fst (one_turn cfg turn (deliver cfg blocks p))))
  end.

End Libraries.

End App.

(** ** Sample inputs for the display, the stream and the loop *)

Module Samples.
Import Np Audio Py Metadata Stream Pactl App.
Local Open Scope R_scope.

(** Two mono samples at full scale: the RMS of the block is 1. *)
Definition full_scale_block : ndarray :=
  {| shape := [2]%nat; data := [1; 1] |}.

(** An album item ([asal]), and the artist item cut in two. *)
Definition album_item : string := item_text "6173616c" "5" "QWxidW0=".

Definition artist_item_head : string := String.substring 0 30 artist_item.
Definition artist_item_tail : string :=
  String.substring 30 (String.length artist_item - 30) artist_item.

(** [str.lower] and [\d] on ASCII text. *)
Definition ascii_lower (s : str) : str :=
  map (fun c => if (65 <=? c) && (c <=? 90) then c + 32 else c)%N s.

Definition ascii_digit (c : N) : bool := ((48 <=? c) && (c <=? 57))%N.

(** An output device, the monitor of the PulseAudio sink, and what a start
    attempt meets when the stream opens and when it does not. *)
Definition hdmi_device : Device :=
  {| name := lit "vc4-hdmi"; max_input_channels := 0 |}.
Definition pulse_device : Device :=
  {| name := lit "PulseAudio"; max_input_channels := 2 |}.

Definition ready : Attempt :=
  {| query := Some [hdmi_device; pulse_device]; open := fun _ => Started |}.
Definition busy : Attempt :=
  {| query := Some [hdmi_device; pulse_device];
     open := fun _ => Fails (lit "Device unavailable") |}.

(** A turn at time [t] in which the pipe cannot be opened. *)
Definition quiet_turn (t : R) : Turn := {|
  pipe_supply := {| can_open := false; events := []; now_at := fun _ => t |};
  now := t;
  hour_icon := 12;
  pactl := TimeoutExpired;
  hour_scroll := 12;
  shown_at := t;
  hour_no_audio := 12;
  hour_frame := 12;
  frame_at := t;
  restart_env := fun _ => busy
|}.

(** A turn at time [t] in which the pipe delivers the artist and the title
    item, handled at the times 0 and 1. *)
Definition track_turn (t : R) : Turn := {|
  pipe_supply := pipe_env [String.append artist_item title_item] 0;
  now := t;
  hour_icon := 12;
  pactl := TimeoutExpired;
  hour_scroll := 12;
  shown_at := t;
  hour_no_audio := 12;
  hour_frame := 12;
  frame_at := t;
  restart_env := fun _ => busy
|}.

(** The program when the loop is entered without a stream, and the same
    with a NaN among the levels. *)
Definition fresh_program : Program := {|
  self := {| reader := MetadataReader PIPE_PATH; stream := None; running := true;
             last_connection_sound_time := 0 |};
  locals := Locals_init;
  globals := World_init APP_CONFIG
|}.

Definition poisoned_program : Program := {|
  self := self fresh_program;
  locals := Locals_init;
  globals := {| W_STATE := set_levels_smooth STATE (NaN :: zeros 7);
                W_HANN := None |}
|}.

End Samples.

(** * Properties *)

(** ** Band levels *)

Section AudioFacts.
Import Np Audio.
Local Open Scope R_scope.

Lemma clip_bounds lo hi x : lo <= hi -> lo <= clip lo hi x <= hi.
Proof.
  intros H. unfold clip, Rmin, Rmax.
  destruct (Rle_dec x lo); destruct (Rle_dec _ hi); lra.
Qed.

Lemma length_hanning M : length (hanning M) = M.
Proof.
  destruct M as [|[|M]]; try reflexivity.
  unfold hanning. now rewrite length_map, length_seq.
Qed.

Lemma length_mul a b : length a = length b -> length (mul a b) = length a.
Proof.
  intros H. unfold mul. rewrite length_map, length_combine. lia.
Qed.

Lemma log10_1e8 : log10 1e-8 = -8.
Proof.
  unfold log10.
  replace 1e-8 with (/ 10 ^ 8) by lra.
  rewrite ln_Rinv by (apply pow_lt; lra).
  rewrite ln_pow by lra.
  assert (0 < ln 10) by (rewrite <- ln_1; apply ln_increasing; lra).
  simpl INR. field. lra.
Qed.

Lemma normalise_zero : normalise (Num 0) = Num 0.
Proof.
  unfold normalise. simpl. f_equal.
  rewrite (Rmax_right 0 1e-8) by lra.
  rewrite log10_1e8. unfold clip.
  rewrite Rmax_right by lra. rewrite Rmin_left by lra. reflexivity.
Qed.

Lemma normalise_unit v : exists y, normalise (Num v) = Num y /\ 0 <= y <= 1.
Proof.
  unfold normalise. simpl. eexists. split; [reflexivity|].
  apply clip_bounds. lra.
Qed.


Lemma length_window_for cache n : length (window_for cache n) = n.
Proof.
  unfold window_for.
  destruct (length (snd (get_hann_window cache n)) =? n)%nat eqn:E; simpl.
  - now apply Nat.eqb_eq.
  - apply length_hanning.
Qed.


Lemma length_magnitudes cache mono :
  length (magnitudes cache mono) = (length mono / 2)%nat.
Proof.
  unfold magnitudes.
  destruct (length mono / 2 + 1)%nat eqn:E; [lia|].
  cbn [seq map tl]. rewrite !length_map, length_seq. lia.
Qed.

Lemma compute_levels_eq cfg cache block :
  snd (compute_levels cfg cache block) =
  let mono := to_mono block in
  let mag := magnitudes cache mono in
  if (length mono =? 0)%nat then Ok (zeros (n_bands cfg))
  else if (length mag <=? 0)%nat then Ok (zeros (n_bands cfg))
  else if (n_bands cfg =? 0)%nat then Raise ZeroDivisionError
  else Ok (map normalise
             (map (band_level mag (n_bands cfg)
                     (Nat.max 1 (length mag / n_bands cfg)))
                  (seq 0 (n_bands cfg)))).
Proof.
  unfold compute_levels. cbv zeta.
  destruct (length (to_mono block) =? 0)%nat eqn:E0; [reflexivity|].
  destruct (get_hann_window cache (length (to_mono block))) as [c1 w0] eqn:G.
  assert (Hw : (if negb (length w0 =? length (to_mono block))%nat
                then hanning (length (to_mono block)) else w0)
               = window_for cache (length (to_mono block))).
  { unfold window_for. now rewrite G. }
  rewrite Hw.
  assert (Hl : length (mul (to_mono block) (window_for cache (length (to_mono block))))
               = length (to_mono block)).
  { apply length_mul. symmetry. apply length_window_for. }
  unfold rfft.
  destruct (mul (to_mono block) (window_for cache (length (to_mono block)))) as [|m ms] eqn:M.
  { apply Nat.eqb_neq in E0. simpl in Hl. lia. }
  unfold magnitudes. rewrite M. rewrite Hl.
  set (mag := tl _).
  destruct (length mag <=? 0)%nat; [reflexivity|].
  destruct (n_bands cfg =? 0)%nat; reflexivity.
Qed.

Lemma slice_nil_iff {A} (a : list A) s e :
  (s < e)%nat -> (slice a s e = [] <-> (length a <= s)%nat).
Proof.
  intros H. unfold slice. split.
  - intros E. apply (f_equal (@length A)) in E.
    rewrite length_firstn, length_skipn in E. simpl in E. lia.
  - intros L. rewrite skipn_all2 by exact L. apply firstn_nil.
Qed.

Lemma mean_nan_iff xs : mean xs = NaN <-> xs = [].
Proof. destruct xs; simpl; split; intros H; congruence. Qed.

(** A band is NaN exactly when it lies past the last bin without being
    the last band. *)
Lemma band_level_nan_iff mag nb bs i :
  band_level mag nb bs i = NaN <->
  (i < nb - 1 /\ 0 < bs /\ length mag <= i * bs)%nat.
Proof.
  unfold band_level, band_bounds.
  destruct (i <? nb - 1)%nat eqn:Ei.
  - apply Nat.ltb_lt in Ei.
    destruct ((i + 1) * bs <=? i * bs)%nat eqn:El.
    + apply Nat.leb_le in El. split; [discriminate|]. intros (_ & Hb & _). nia.
    + apply Nat.leb_gt in El. rewrite mean_nan_iff, slice_nil_iff by exact El.
      split; [intros H; repeat split; try assumption; nia | tauto].
  - apply Nat.ltb_ge in Ei.
    destruct (length mag <=? i * bs)%nat eqn:El.
    + split; [discriminate | lia].
    + apply Nat.leb_gt in El. rewrite mean_nan_iff, slice_nil_iff by exact El.
      lia.
Qed.

Lemma normalise_nan_iff c : normalise c = NaN <-> c = NaN.
Proof. destruct c; unfold normalise; simpl; split; congruence. Qed.


Lemma normalise_cases c : normalise c = NaN \/ unit_cell (normalise c).
Proof.
  destruct c as [|v]; [now left|]. right. apply normalise_unit.
Qed.

Lemma zeros_unit n : Forall unit_cell (zeros n).
Proof.
  unfold zeros. apply Forall_forall. intros c Hc.
  apply repeat_spec in Hc. subst. exists 0. split; [reflexivity | lra].
Qed.

Lemma length_zeros n : length (zeros n) = n.
Proof. apply repeat_length. Qed.

(** [compute_levels] returns, and returns [n_bands] cells. *)
Lemma compute_levels_length cfg cache block :
  (1 <= n_bands cfg)%nat ->
  exists l, snd (compute_levels cfg cache block) = Ok l /\
            length l = n_bands cfg.
Proof.
  intros Hn. rewrite compute_levels_eq. cbv zeta.
  destruct (length (to_mono block) =? 0)%nat;
    [eexists; split; [reflexivity | apply length_zeros]|].
  destruct (length (magnitudes cache (to_mono block)) <=? 0)%nat;
    [eexists; split; [reflexivity | apply length_zeros]|].
  destruct (n_bands cfg =? 0)%nat eqn:E; [apply Nat.eqb_eq in E; lia|].
  eexists; split; [reflexivity|]. now rewrite !length_map, length_seq.
Qed.


(** The result when the block is empty or has a single sample. *)
Lemma compute_levels_no_bins cfg cache block :
  (length (to_mono block) / 2 = 0)%nat ->
  snd (compute_levels cfg cache block) = Ok (zeros (n_bands cfg)).
Proof.
  intros Hb. rewrite compute_levels_eq. cbv zeta.
  rewrite length_magnitudes, Hb.
  destruct (length (to_mono block) =? 0)%nat; reflexivity.
Qed.

(** Cell [i] of the result when there is at least one bin. *)
Lemma compute_levels_cell cfg cache block l i :
  let bins := (length (to_mono block) / 2)%nat in
  (0 < bins)%nat ->
  snd (compute_levels cfg cache block) = Ok l ->
  (i < n_bands cfg)%nat ->
  nth i l (Num 0) =
  normalise (band_level (magnitudes cache (to_mono block)) (n_bands cfg)
               (Nat.max 1 (bins / n_bands cfg)) i).
Proof.
  intros bins Hb. rewrite compute_levels_eq. cbv zeta.
  rewrite length_magnitudes. fold bins.
  destruct (length (to_mono block) =? 0)%nat eqn:E0.
  { apply Nat.eqb_eq in E0. unfold bins in Hb. rewrite E0 in Hb. simpl in Hb. lia. }
  destruct (bins <=? 0)%nat eqn:E1; [apply Nat.leb_le in E1; lia|].
  destruct (n_bands cfg =? 0)%nat eqn:E2; [discriminate|].
  intros H Hi. injection H as <-.
  rewrite map_map.
  set (f := fun x => normalise (band_level _ _ _ x)).
  rewrite (nth_indep _ (Num 0) (f 0%nat)) by now rewrite length_map, length_seq.
  rewrite (map_nth f), seq_nth by exact Hi. reflexivity.
Qed.

(** Which cells of the result are NaN: those of the bands
    [bins .. n_bands - 2]. *)
Lemma compute_levels_nan_cells cfg cache block l i :
  let bins := (length (to_mono block) / 2)%nat in
  (0 < bins)%nat ->
  snd (compute_levels cfg cache block) = Ok l ->
  (i < n_bands cfg)%nat ->
  (nth i l (Num 0) = NaN <-> (bins <= i < n_bands cfg - 1)%nat).
Proof.
  intros bins Hb Hl Hi.
  rewrite (compute_levels_cell cfg cache block l i Hb Hl Hi).
  rewrite normalise_nan_iff, band_level_nan_iff, length_magnitudes.
  fold bins.
  assert (E2 : n_bands cfg <> 0%nat) by lia.
  pose proof (Nat.div_mod_eq bins (n_bands cfg)) as Hdm.
  pose proof (Nat.mod_upper_bound bins (n_bands cfg) E2) as Hmod.
  destruct (bins / n_bands cfg)%nat as [|q]; simpl Nat.max; split; intros; nia.
Qed.

(** The cells are in [0, 1] when every band but the last has a bin. *)
Lemma compute_levels_unit_interval cfg cache block :
  let bins := (length (to_mono block) / 2)%nat in
  (1 <= n_bands cfg)%nat ->
  (bins = 0 \/ n_bands cfg - 1 <= bins)%nat ->
  exists l, snd (compute_levels cfg cache block) = Ok l /\
            length l = n_bands cfg /\ Forall unit_cell l.
Proof.
  intros bins Hn Hb.
  destruct (compute_levels_length cfg cache block Hn) as (l & Hl & Hlen).
  exists l. repeat split; try assumption.
  destruct (Nat.eq_dec bins 0) as [Hz|Hnz].
  - rewrite compute_levels_no_bins in Hl by exact Hz.
    injection Hl as <-. apply zeros_unit.
  - assert (Hpos : (0 < bins)%nat) by lia.
    apply Forall_nth. intros i d Hi. rewrite (nth_indep _ d (Num 0)) by exact Hi.
    rewrite Hlen in Hi.
    pose proof (compute_levels_nan_cells cfg cache block l i Hpos Hl Hi) as Hnan.
    rewrite (compute_levels_cell cfg cache block l i Hpos Hl Hi) in *.
    destruct (normalise_cases (band_level (magnitudes cache (to_mono block)) (n_bands cfg)
                (Nat.max 1 (bins / n_bands cfg)) i)) as [Hc|Hc]; [|exact Hc].
    apply Hnan in Hc. lia.
Qed.

(** *** Silence *)


Lemma sum_all_zero xs : all_zero xs -> sum xs = 0.
Proof.
  induction 1 as [|x xs Hx _ IH]; simpl; [reflexivity|].
  rewrite IH, <- Hx. lra.
Qed.

Lemma mean_fin_all_zero xs : all_zero xs -> mean_fin xs = 0.
Proof.
  intros H. unfold mean_fin. rewrite (sum_all_zero _ H).
  unfold Rdiv. apply Rmult_0_l.
Qed.

Lemma Forall_slice {A} (P : A -> Prop) a s e :
  Forall P a -> Forall P (slice a s e).
Proof.
  intros H. unfold slice.
  rewrite <- (firstn_skipn s a) in H. apply Forall_app in H as [_ H].
  rewrite <- (firstn_skipn (e - s) (skipn s a)) in H.
  now apply Forall_app in H as [H _].
Qed.

Lemma to_mono_all_zero block :
  all_zero (data block) -> all_zero (to_mono block).
Proof.
  intros H. unfold to_mono.
  destruct (shape block) as [|r [|c [|x s]]]; try exact H.
  destruct (1 <? c)%nat; [|exact H].
  unfold all_zero, rows_of. rewrite map_map. apply Forall_map.
  apply Forall_forall. intros i _. symmetry.
  apply mean_fin_all_zero. now apply Forall_slice.
Qed.

Lemma mul_all_zero a b : all_zero a -> all_zero (mul a b).
Proof.
  intros H. unfold mul, all_zero in *. apply Forall_map.
  apply Forall_forall. intros [x y] Hin.
  apply in_combine_l in Hin. simpl.
  rewrite Forall_forall in H. rewrite <- (H x Hin). lra.
Qed.

Lemma dft_bin_all_zero x k : all_zero x -> cabs (dft_bin x k) = 0.
Proof.
  intros H. unfold cabs, dft_bin, all_zero in *. cbv zeta. simpl fst. simpl snd.
  rewrite !sum_all_zero.
  - replace (0 * 0 + - 0 * - 0) with 0 by lra. apply sqrt_0.
  - apply Forall_map, Forall_forall. intros [n v] Hin.
    apply in_combine_r in Hin. simpl.
    rewrite Forall_forall in H. rewrite <- (H v Hin). lra.
  - apply Forall_map, Forall_forall. intros [n v] Hin.
    apply in_combine_r in Hin. simpl.
    rewrite Forall_forall in H. rewrite <- (H v Hin). lra.
Qed.

Lemma magnitudes_all_zero cache mono :
  all_zero mono -> all_zero (magnitudes cache mono).
Proof.
  intros H. unfold magnitudes.
  assert (Hall : all_zero (map cabs (map (dft_bin (mul mono (window_for cache (length mono))))
                                     (seq 0 (length mono / 2 + 1))))).
  { rewrite map_map. apply Forall_map, Forall_forall. intros k _.
    symmetry. apply dft_bin_all_zero. now apply mul_all_zero. }
  destruct (map cabs _); [constructor|]. now inversion Hall.
Qed.

Lemma band_level_all_zero mag nb bs i :
  all_zero mag ->
  band_level mag nb bs i = NaN \/ band_level mag nb bs i = Num 0.
Proof.
  intros H. unfold band_level.
  destruct (band_bounds nb bs (length mag) i) as [start stop].
  destruct (stop <=? start)%nat; [now right|].
  pose proof (Forall_slice _ mag start stop H) as Hs.
  destruct (slice mag start stop) eqn:E; [now left|].
  right. simpl. f_equal. now apply mean_fin_all_zero.
Qed.

(** The cells of the result on silence: NaN for the bands
    [bins .. n_bands - 2], zero for the others. *)
Lemma compute_levels_silence_cell cfg cache block l i :
  let bins := (length (to_mono block) / 2)%nat in
  (0 < bins)%nat ->
  all_zero (data block) ->
  snd (compute_levels cfg cache block) = Ok l ->
  (i < n_bands cfg)%nat ->
  nth i l (Num 0) =
  if (bins <=? i)%nat && (i <? n_bands cfg - 1)%nat then NaN else Num 0.
Proof.
  intros bins Hpos Hz Hl Hi.
  pose proof (compute_levels_nan_cells cfg cache block l i Hpos Hl Hi) as Hnan.
  fold bins in Hnan.
  destruct ((bins <=? i)%nat && (i <? n_bands cfg - 1)%nat) eqn:E.
  - apply andb_true_iff in E as [E1 E2].
    apply Nat.leb_le in E1. apply Nat.ltb_lt in E2. apply Hnan. lia.
  - rewrite (compute_levels_cell cfg cache block l i Hpos Hl Hi) in *.
    destruct (band_level_all_zero (magnitudes cache (to_mono block)) (n_bands cfg)
                (Nat.max 1 (bins / n_bands cfg)) i) as [Hc|Hc].
    + apply magnitudes_all_zero, to_mono_all_zero, Hz.
    + apply (f_equal normalise) in Hc. apply Hnan in Hc.
      apply andb_false_iff in E as [E|E];
        [apply Nat.leb_gt in E | apply Nat.ltb_ge in E]; lia.
    + fold bins. rewrite Hc. apply normalise_zero.
Qed.

(** Silence gives all-zero bands when every band but the last has a bin. *)
Lemma compute_levels_silence cfg cache block :
  let bins := (length (to_mono block) / 2)%nat in
  (1 <= n_bands cfg)%nat ->
  (bins = 0 \/ n_bands cfg - 1 <= bins)%nat ->
  all_zero (data block) ->
  snd (compute_levels cfg cache block) = Ok (zeros (n_bands cfg)).
Proof.
  intros bins Hn Hb Hz.
  destruct (Nat.eq_dec bins 0) as [Hz0|Hnz];
    [now apply compute_levels_no_bins|].
  destruct (compute_levels_length cfg cache block Hn) as (l & Hl & Hlen).
  rewrite Hl. f_equal. unfold zeros. rewrite <- Hlen.
  apply Forall_eq_repeat.
  apply Forall_nth. intros i d Hi. rewrite (nth_indep _ d (Num 0)) by exact Hi.
  rewrite Hlen in Hi.
  rewrite (compute_levels_silence_cell cfg cache block l i) by (assumption || lia).
  fold bins.
  destruct (bins <=? i)%nat eqn:E1; [|reflexivity].
  destruct (i <? n_bands cfg - 1)%nat eqn:E2; [|reflexivity].
  apply Nat.leb_le in E1. apply Nat.ltb_lt in E2. lia.
Qed.

(** *** The callback *)


Lemma agc_update_in_bounds cfg g rms :
  agc_min_gain cfg <= agc_max_gain cfg ->
  0 <= agc_attack cfg <= 1 ->
  0 <= agc_release cfg <= 1 ->
  agc_min_gain cfg <= g <= agc_max_gain cfg ->
  agc_min_gain cfg <= agc_update cfg g rms <= agc_max_gain cfg.
Proof.
  intros Hmm Ha Hr Hg. unfold agc_update.
  destruct (Rlt_dec 1e-6 rms); [|exact Hg].
  set (t := Rmax (Rmin (agc_target_rms cfg / rms) (agc_max_gain cfg)) (agc_min_gain cfg)).
  assert (Ht : agc_min_gain cfg <= t <= agc_max_gain cfg).
  { unfold t. split; [apply Rmax_r|].
    apply Rmax_lub; [apply Rmin_r | exact Hmm]. }
  destruct (Rlt_dec g t); nra.
Qed.

Lemma agc_update_quiet cfg g rms : rms <= 1e-6 -> agc_update cfg g rms = g.
Proof.
  intros H. unfold agc_update. destruct (Rlt_dec 1e-6 rms); [lra | reflexivity].
Qed.

(** The gain the callback leaves in [STATE]. *)
Lemma audio_callback_gain cfg w indata now :
  agc_gain (W_STATE (fst (audio_callback cfg w indata now))) =
  callback_gain cfg w indata.
Proof.
  unfold audio_callback, callback_gain. cbv zeta.
  destruct (compute_levels _ _ _) as [c [levels|e]].
  - destruct (Rlt_dec 1e-6 (frame_rms indata)) as [H|H];
      destruct (gtb _ _); try destruct (ltb _ _); simpl;
      try reflexivity;
      unfold agc_update; destruct (Rlt_dec 1e-6 (frame_rms indata)); try lra; reflexivity.
  - destruct (Rlt_dec 1e-6 (frame_rms indata)) as [H|H]; simpl;
      try reflexivity;
      unfold agc_update; destruct (Rlt_dec 1e-6 (frame_rms indata)); try lra; reflexivity.
Qed.

(** The callback returns, and what it stores as smoothed levels. *)
Lemma audio_callback_levels cfg w indata now :
  (1 <= n_bands cfg)%nat ->
  exists bands,
    snd (compute_levels cfg (W_HANN w) (callback_frame cfg w indata)) = Ok bands /\
    length bands = n_bands cfg /\
    snd (audio_callback cfg w indata now) = Ok tt /\
    levels_smooth (W_STATE (fst (audio_callback cfg w indata now))) =
      smooth (smoothing cfg) (levels_smooth (W_STATE w)) bands.
Proof.
  intros Hn.
  destruct (compute_levels_length cfg (W_HANN w) (callback_frame cfg w indata) Hn)
    as (bands & Hb & Hlen).
  exists bands. split; [exact Hb|]. split; [exact Hlen|].
  unfold audio_callback. cbv zeta.
  unfold callback_frame, callback_gain in Hb.
  destruct (compute_levels _ _ _) as [c r]. simpl in Hb. subst r.
  destruct (Rlt_dec 1e-6 (frame_rms indata));
    destruct (gtb _ _); try destruct (ltb _ _); simpl; split; reflexivity.
Qed.

Lemma length_smooth s a b : length a = length b -> length (smooth s a b) = length a.
Proof.
  intros H. unfold smooth. rewrite length_map, length_combine. lia.
Qed.

Lemma nth_smooth s a b i :
  length a = length b -> (i < length a)%nat ->
  nth i (smooth s a b) NaN = ema s (nth i a NaN) (nth i b NaN).
Proof.
  intros H Hi. unfold smooth.
  rewrite (nth_indep _ NaN ((fun p => ema s (fst p) (snd p)) (NaN, NaN)))
    by (rewrite length_map, length_combine; lia).
  rewrite (map_nth (fun p => ema s (fst p) (snd p))).
  rewrite combine_nth by exact H. reflexivity.
Qed.

(** The stored levels have [n_bands] cells in every state the audio thread
    reaches. *)
Lemma run_callbacks_levels_length cfg blocks :
  (1 <= n_bands cfg)%nat ->
  forall w, length (levels_smooth (W_STATE w)) = n_bands cfg ->
  length (levels_smooth (W_STATE (run_callbacks cfg w blocks))) = n_bands cfg.
Proof.
  intros Hn. induction blocks as [|[indata now] rest IH]; intros w Hw; [exact Hw|].
  simpl.
  destruct (audio_callback_levels cfg w indata now Hn) as (bands & _ & Hlen & Hok & Hs).
  destruct (audio_callback cfg w indata now) as [w' r]. simpl in *. subst r.
  apply IH. rewrite Hs, length_smooth; congruence.
Qed.

Lemma run_callbacks_gain_bounds cfg blocks :
  agc_min_gain cfg <= agc_max_gain cfg ->
  0 <= agc_attack cfg <= 1 ->
  0 <= agc_release cfg <= 1 ->
  forall w,
    agc_min_gain cfg <= agc_gain (W_STATE w) <= agc_max_gain cfg ->
    agc_min_gain cfg <= agc_gain (W_STATE (run_callbacks cfg w blocks))
      <= agc_max_gain cfg.
Proof.
  intros Hmm Ha Hr. induction blocks as [|[indata now] rest IH]; intros w Hw; [exact Hw|].
  simpl.
  pose proof (audio_callback_gain cfg w indata now) as Hg.
  assert (Hb : agc_min_gain cfg <= callback_gain cfg w indata <= agc_max_gain cfg)
    by now apply agc_update_in_bounds.
  destruct (audio_callback cfg w indata now) as [w' [u|e]]; simpl in Hg.
  - apply IH. now rewrite Hg.
  - now rewrite Hg.
Qed.

Lemma Rabs_clip T x : 0 <= T -> Rabs (clip (- T) T x) <= T.
Proof.
  intros H. apply Rabs_le. apply clip_bounds. lra.
Qed.

(** C1 (the code departs from the claim).  The claim: for every band count
    [N >= 1] and every finite block, [compute_levels] returns exactly [N]
    values, each in [[0, 1]].  The length holds ([compute_levels_length]),
    and so does the range when the spectrum has at least [N - 1] bins
    ([compute_levels_unit_interval]).  On four stereo frames with the
    default eight bands there are two bins: the call returns eight cells,
    cell 2 is NaN, and so the cells are not all in [[0, 1]]. *)
Theorem compute_levels_short_block_nan :
  wf short_block /\
  exists l,
    snd (compute_levels CONFIG None short_block) = Ok l /\
    length l = n_bands CONFIG /\
    nth 2 l (Num 0) = NaN /\
    ~ Forall unit_cell l.
Proof.
  split; [reflexivity|].
  assert (Hn : (1 <= n_bands CONFIG)%nat) by (simpl; lia).
  destruct (compute_levels_length CONFIG None short_block Hn) as (l & Hl & Hlen).
  exists l. split; [exact Hl|]. split; [exact Hlen|].
  assert (H2 : nth 2 l (Num 0) = NaN).
  { apply (compute_levels_nan_cells CONFIG None short_block l 2); simpl; try lia.
    exact Hl. }
  split; [exact H2|].
  intros Hall. rewrite Forall_nth in Hall.
  destruct (Hall 2%nat (Num 0)) as (y & Hy & _); [rewrite Hlen; simpl; lia|].
  congruence.
Qed.

(** C4 (the code departs from the claim).  The claim: on an empty and on
    an all-zero block [compute_levels] returns all-zero bands and raises
    nothing.  It does on an empty block ([compute_levels_no_bins]) and on
    silence with at least [N - 1] bins ([compute_levels_silence]).  On four
    stereo frames of silence with the default eight bands it returns,
    without raising, NaN in the cells 2 to 6. *)
Theorem compute_levels_short_silence_nan :
  wf silent_block /\
  snd (compute_levels CONFIG None silent_block)
  = Ok [Num 0; Num 0; NaN; NaN; NaN; NaN; NaN; Num 0].
Proof.
  split; [reflexivity|].
  assert (Hn : (1 <= n_bands CONFIG)%nat) by (simpl; lia).
  destruct (compute_levels_length CONFIG None silent_block Hn) as (l & Hl & Hlen).
  rewrite Hl. f_equal.
  assert (Hz : all_zero (data silent_block)) by (repeat constructor).
  assert (Hc : forall i, (i < 8)%nat ->
             nth i l (Num 0) = if (2 <=? i)%nat && (i <? 7)%nat then NaN else Num 0).
  { intros i Hi.
    apply (compute_levels_silence_cell CONFIG None silent_block l i); simpl; try lia;
      assumption. }
  simpl in Hlen.
  do 9 (destruct l as [|? l]; try discriminate Hlen).
  pose proof (Hc 0%nat) as H0. pose proof (Hc 1%nat) as H1.
  pose proof (Hc 2%nat) as H2. pose proof (Hc 3%nat) as H3.
  pose proof (Hc 4%nat) as H4. pose proof (Hc 5%nat) as H5.
  pose proof (Hc 6%nat) as H6. pose proof (Hc 7%nat) as H7.
  simpl in *.
  rewrite H0, H1, H2, H3, H4, H5, H6, H7 by lia. reflexivity.
Qed.


(** C2.  For every input frame and every gain, each sample of the frame
    that [audio_callback] passes on to [compute_levels] (the input clipped
    to [[-1, 1]], scaled by the gain, limited) has absolute value at most
    [limit_threshold], a threshold that is not negative. *)
Theorem limiter_bounds_frame cfg gain indata :
  0 <= limit_threshold cfg ->
  Forall (fun x => Rabs x <= limit_threshold cfg)
         (data (limited_frame cfg gain indata)).
Proof.
  intros HT. unfold limited_frame. simpl.
  apply Forall_map, Forall_forall. intros x _.
  now apply Rabs_clip.
Qed.

Lemma limiter_bounds_frame_witness :
  0 <= limit_threshold CONFIG /\
  Forall (fun x => Rabs x <= limit_threshold CONFIG)
         (data (limited_frame CONFIG 4 loud_block)).
Proof.
  assert (H : 0 <= limit_threshold CONFIG) by (simpl; lra).
  split; [exact H | exact (limiter_bounds_frame CONFIG 4 loud_block H)].
Defined.

(** C3.  Starting from the initial gain [1.0], after any number of
    callbacks on any frames, the gain stored by one more callback is within
    [[agc_min_gain, agc_max_gain]]; and when the RMS of the frame is at
    most [1e-6] that callback leaves the gain as it was.  The configuration
    is one whose bounds enclose the initial gain and whose attack and
    release coefficients are in [[0, 1]], as the defaults are. *)
Theorem agc_gain_stays_in_bounds cfg blocks indata now :
  agc_min_gain cfg <= 1 <= agc_max_gain cfg ->
  0 <= agc_attack cfg <= 1 ->
  0 <= agc_release cfg <= 1 ->
  let w := run_callbacks cfg (World_init cfg) blocks in
  let w' := fst (audio_callback cfg w indata now) in
  agc_min_gain cfg <= agc_gain (W_STATE w') <= agc_max_gain cfg /\
  (frame_rms indata <= 1e-6 -> agc_gain (W_STATE w') = agc_gain (W_STATE w)).
Proof.
  intros Hmm Ha Hr w w'. unfold w'.
  rewrite audio_callback_gain. unfold callback_gain.
  assert (Hw : agc_min_gain cfg <= agc_gain (W_STATE w) <= agc_max_gain cfg).
  { apply run_callbacks_gain_bounds; try assumption. lra. }
  split.
  - apply agc_update_in_bounds; try assumption. lra.
  - apply agc_update_quiet.
Qed.

Lemma agc_gain_stays_in_bounds_witness :
  (agc_min_gain CONFIG <= 1 <= agc_max_gain CONFIG) /\
  (0 <= agc_attack CONFIG <= 1) /\
  (0 <= agc_release CONFIG <= 1) /\
  let w := run_callbacks CONFIG (World_init CONFIG) [(loud_block, 1)] in
  let w' := fst (audio_callback CONFIG w silent_block 2) in
  agc_min_gain CONFIG <= agc_gain (W_STATE w') <= agc_max_gain CONFIG /\
  (frame_rms silent_block <= 1e-6 -> agc_gain (W_STATE w') = agc_gain (W_STATE w)).
Proof.
  assert (H1 : agc_min_gain CONFIG <= 1 <= agc_max_gain CONFIG) by (simpl; lra).
  assert (H2 : 0 <= agc_attack CONFIG <= 1) by (simpl; lra).
  assert (H3 : 0 <= agc_release CONFIG <= 1) by (simpl; lra).
  exact (conj H1 (conj H2 (conj H3
    (agc_gain_stays_in_bounds CONFIG [(loud_block, 1)] silent_block 2 H1 H2 H3)))).
Defined.

(** C8.  On every audio callback, in every state the audio thread
    reaches, the callback returns normally and replaces the stored levels,
    band by band, by [smoothing * previous + (1 - smoothing) * new_bands],
    where [new_bands] are the levels [compute_levels] returns for the
    gain-adjusted, limited frame of this callback. *)
Theorem levels_smooth_is_moving_average cfg blocks indata now :
  (1 <= n_bands cfg)%nat ->
  let w := run_callbacks cfg (World_init cfg) blocks in
  let w' := fst (audio_callback cfg w indata now) in
  let s := smoothing cfg in
  exists bands,
    snd (compute_levels cfg (W_HANN w)
           (limited_frame cfg
              (agc_update cfg (agc_gain (W_STATE w)) (frame_rms indata)) indata))
      = Ok bands /\
    snd (audio_callback cfg w indata now) = Ok tt /\
    length bands = n_bands cfg /\
    length (levels_smooth (W_STATE w)) = n_bands cfg /\
    length (levels_smooth (W_STATE w')) = n_bands cfg /\
    forall i, (i < n_bands cfg)%nat ->
      nth i (levels_smooth (W_STATE w')) NaN
        = ema s (nth i (levels_smooth (W_STATE w)) NaN) (nth i bands NaN) /\
      forall p b,
        nth i (levels_smooth (W_STATE w)) NaN = Num p ->
        nth i bands NaN = Num b ->
        nth i (levels_smooth (W_STATE w')) NaN = Num (s * p + (1 - s) * b).
Proof.
  intros Hn w w' s.
  destruct (audio_callback_levels cfg w indata now Hn) as (bands & Hb & Hlen & Hok & Hs).
  assert (Hw : length (levels_smooth (W_STATE w)) = n_bands cfg).
  { apply run_callbacks_levels_length; [exact Hn|]. apply length_zeros. }
  exists bands. split; [exact Hb|]. split; [exact Hok|]. split; [exact Hlen|].
  split; [exact Hw|].
  assert (Hnth : forall i, (i < n_bands cfg)%nat ->
            nth i (levels_smooth (W_STATE w')) NaN
            = ema s (nth i (levels_smooth (W_STATE w)) NaN) (nth i bands NaN)).
  { intros i Hi. unfold w'. rewrite Hs. apply nth_smooth; congruence || lia. }
  split.
  - unfold w'. rewrite Hs, length_smooth; congruence.
  - intros i Hi. split; [now apply Hnth|].
    intros p b Hp Hq. rewrite (Hnth i Hi), Hp, Hq. reflexivity.
Qed.

Lemma levels_smooth_is_moving_average_witness :
  (1 <= n_bands CONFIG)%nat /\
  let w := run_callbacks CONFIG (World_init CONFIG) [(loud_block, 1)] in
  let w' := fst (audio_callback CONFIG w short_block 2) in
  let s := smoothing CONFIG in
  exists bands,
    snd (compute_levels CONFIG (W_HANN w)
           (limited_frame CONFIG
              (agc_update CONFIG (agc_gain (W_STATE w)) (frame_rms short_block))
              short_block))
      = Ok bands /\
    snd (audio_callback CONFIG w short_block 2) = Ok tt /\
    length bands = n_bands CONFIG /\
    length (levels_smooth (W_STATE w)) = n_bands CONFIG /\
    length (levels_smooth (W_STATE w')) = n_bands CONFIG /\
    forall i, (i < n_bands CONFIG)%nat ->
      nth i (levels_smooth (W_STATE w')) NaN
        = ema s (nth i (levels_smooth (W_STATE w)) NaN) (nth i bands NaN) /\
      forall p b,
        nth i (levels_smooth (W_STATE w)) NaN = Num p ->
        nth i bands NaN = Num b ->
        nth i (levels_smooth (W_STATE w')) NaN = Num (s * p + (1 - s) * b).
Proof.
  assert (H : (1 <= n_bands CONFIG)%nat) by (simpl; lia).
  exact (conj H (levels_smooth_is_moving_average CONFIG [(loud_block, 1)] short_block 2 H)).
Defined.

End AudioFacts.

(** ** The ambient cursor *)

Section AmbientFacts.
Import Ambient.
Local Open Scope Z_scope.

Lemma path_len_64 : path_len = 64.
Proof. reflexivity. Qed.

Lemma ambient_step_index cfg h t st :
  ambient_index (snd (ambient_step cfg h t st))
  = (ambient_index st + 4) mod path_len.
Proof. reflexivity. Qed.

(** Every index the loop of [ambient_step] reads is within the path, also
    where [current_index - i] is negative. *)
Lemma pos_index_valid c i : 0 <= pos_index c i < path_len.
Proof. unfold pos_index. apply Z.mod_pos_bound. reflexivity. Qed.

Lemma idle_ticks_index cfg h t K st :
  0 <= ambient_index st < path_len ->
  ambient_index (idle_ticks cfg h t K st)
  = (ambient_index st + Z.of_nat K * 4) mod path_len.
Proof.
  intros Hst. induction K as [|K IH].
  - cbn [idle_ticks]. rewrite Z.mod_small; [lia | simpl Z.of_nat; lia].
  - cbn [idle_ticks]. rewrite ambient_step_index, IH.
    rewrite Z.add_mod_idemp_l by (rewrite path_len_64; lia).
    f_equal. lia.
Qed.

(** C9.  Starting from cursor 0, after [K] idle render ticks (each steps
    by 4 on the closed path of 64 coordinates) the ambient cursor is
    [(K * 4) mod 64], whatever the clocks read; so it is always a valid
    index into [SPINNER_PATH]. *)
Theorem ambient_cursor_after_ticks cfg h t K :
  let cursor := ambient_index (idle_ticks cfg h t K (State_init cfg)) in
  cursor = (Z.of_nat K * 4) mod Z.of_nat (length SPINNER_PATH) /\
  length SPINNER_PATH = 64%nat /\
  0 <= cursor < Z.of_nat (length SPINNER_PATH).
Proof.
  intros cursor.
  assert (H : cursor = (Z.of_nat K * 4) mod Z.of_nat (length SPINNER_PATH)).
  { unfold cursor. rewrite idle_ticks_index by (simpl; rewrite path_len_64; lia).
    reflexivity. }
  split; [exact H|]. split; [reflexivity|].
  rewrite H. apply Z.mod_pos_bound. reflexivity.
Qed.

End AmbientFacts.

(** ** The metadata reader *)

Section PyFacts.
Import Py.

(** *** [startswith] and [find] *)

Lemma strip_prefix_app p t : strip_prefix p (p ++ t) = Some t.
Proof.
  induction p as [|x p IH]; simpl; [reflexivity|].
  now rewrite N.eqb_refl.
Qed.

Lemma strip_prefix_Some p s t : strip_prefix p s = Some t -> s = p ++ t.
Proof.
  revert s. induction p as [|x p IH]; intros s H; simpl in *.
  - now injection H as ->.
  - destruct s as [|y s]; [discriminate|].
    destruct (x =? y)%N eqn:E; [|discriminate].
    apply N.eqb_eq in E. subst y. f_equal. now apply IH.
Qed.

Lemma startswith_iff p s : startswith p s = true <-> exists t, s = p ++ t.
Proof.
  unfold startswith. split.
  - destruct (strip_prefix p s) as [t|] eqn:E; [|discriminate].
    intros _. exists t. now apply strip_prefix_Some.
  - intros [t ->]. now rewrite strip_prefix_app.
Qed.


Lemma find_Some sub s i :
  find sub s = Some i -> exists pre post, s = pre ++ sub ++ post /\ length pre = i.
Proof.
  revert i. induction s as [|c s IH]; intros i H; simpl in H.
  - destruct (startswith sub []) eqn:E; [|discriminate].
    injection H as <-. apply startswith_iff in E as [t E].
    exists [], t. now split.
  - destruct (startswith sub (c :: s)) eqn:E.
    + injection H as <-. apply startswith_iff in E as [t E].
      exists [], t. now split.
    + destruct (find sub s) as [j|] eqn:F; [|discriminate].
      injection H as <-.
      destruct (IH j eq_refl) as (pre & post & Hs & Hl).
      exists (c :: pre), post. simpl. split; congruence.
Qed.

Lemma find_occurrence sub pre post : find sub (pre ++ sub ++ post) <> None.
Proof.
  induction pre as [|c pre IH]; simpl.
  - destruct (sub ++ post) eqn:E; simpl;
      (destruct (startswith sub _) eqn:S; [discriminate|]);
      exfalso; rewrite <- E in S;
      assert (startswith sub (sub ++ post) = true) by (apply startswith_iff; eauto);
      congruence.
  - destruct (startswith sub _); [discriminate|].
    destruct (find sub (pre ++ sub ++ post)); [discriminate | contradiction].
Qed.

(** No occurrence in [s]: none in a suffix, none in a prefix. *)
Lemma find_None_skipn sub s n : find sub s = None -> find sub (skipn n s) = None.
Proof.
  intros H. destruct (find sub (skipn n s)) as [i|] eqn:E; [|reflexivity].
  apply find_Some in E as (pre & post & Hs & _).
  exfalso. apply (find_occurrence sub (firstn n s ++ pre) post).
  rewrite <- app_assoc, <- Hs, firstn_skipn. exact H.
Qed.

Lemma find_None_app_l sub a b : find sub (a ++ b) = None -> find sub a = None.
Proof.
  intros H. destruct (find sub a) as [i|] eqn:E; [|reflexivity].
  apply find_Some in E as (pre & post & Hs & _).
  exfalso. apply (find_occurrence sub pre (post ++ b)).
  rewrite Hs in H. now rewrite <- !app_assoc in H.
Qed.

Lemma find_Some_bound sub s i : find sub s = Some i -> (i + length sub <= length s)%nat.
Proof.
  intros H. apply find_Some in H as (pre & post & -> & <-).
  rewrite !length_app. lia.
Qed.

Lemma length_last_chars n s : (length (last_chars n s) <= n)%nat.
Proof. unfold last_chars. rewrite length_skipn. lia. Qed.

Lemma find_startswith sub s : startswith sub s = true -> find sub s = Some 0%nat.
Proof. intros H. destruct s; simpl; now rewrite H. Qed.

Lemma startswith_length p s : startswith p s = true -> (length p <= length s)%nat.
Proof.
  intros H. apply startswith_iff in H as [t ->]. rewrite length_app. lia.
Qed.

Lemma startswith_app p a b :
  (length p <= length a)%nat -> startswith p (a ++ b) = startswith p a.
Proof.
  unfold startswith. revert a. induction p as [|x p IH]; intros a H; [reflexivity|].
  destruct a as [|y a]; [simpl in H; lia|]. simpl.
  destruct (x =? y)%N; [|reflexivity]. apply IH. simpl in H. lia.
Qed.

(** The first occurrence in [a] is the first occurrence in [a ++ b]. *)
Lemma find_app_Some sub a b i : find sub a = Some i -> find sub (a ++ b) = Some i.
Proof.
  revert i. induction a as [|c a IH]; intros i H.
  - simpl in H. destruct (startswith sub []) eqn:E; [|discriminate].
    injection H as <-. apply find_startswith.
    apply startswith_iff in E as [t E]. symmetry in E.
    apply app_eq_nil in E as [-> _]. apply startswith_iff. now exists b.
  - pose proof (find_Some_bound _ _ _ H) as Hb.
    simpl in H. simpl app. cbn [find].
    change (c :: a ++ b) with ((c :: a) ++ b).
    rewrite (startswith_app sub (c :: a) b) by lia.
    destruct (startswith sub (c :: a)); [exact H|].
    destruct (find sub a) as [j|] eqn:F; [|discriminate].
    now rewrite (IH j eq_refl).
Qed.


Lemma str_eqb_eq a b : str_eqb a b = true <-> a = b.
Proof.
  revert b. induction a as [|x a IH]; intros [|y b]; simpl; split; try congruence.
  - intros H. apply andb_true_iff in H as [H1 H2].
    apply N.eqb_eq in H1. apply IH in H2. congruence.
  - intros H. injection H as -> ->. rewrite N.eqb_refl. now apply IH.
Qed.

Lemma fromhex_raises s e : fromhex s = Raise e -> e = ValueError.
Proof.
  remember (length s) as n eqn:Hn. revert s Hn.
  induction n as [n IH] using lt_wf_ind. intros s Hn H.
  destruct s as [|c s1]; simpl in H; [discriminate|].
  destruct (is_ascii_space c).
  - apply (IH (length s1)) in H; [exact H | subst; simpl; lia | reflexivity].
  - destruct (hexval c); [|congruence].
    destruct s1 as [|d s2]; [congruence|].
    destruct (hexval d); [|congruence].
    destruct (fromhex s2) eqn:E; simpl in H; [discriminate|].
    injection H as <-.
    apply (IH (length s2)) in E; [exact E | subst; simpl; lia | reflexivity].
Qed.


End PyFacts.

Section HexFacts.
Import Py Metadata.

Lemma decode_type_code_raises g_type g_code e :
  decode_type_code g_type g_code = Raise e -> is_ValueError e = true.
Proof.
  unfold decode_type_code. cbv zeta.
  destruct (fromhex (strip g_type)) eqn:E1; simpl.
  - destruct (fromhex (strip g_code)) eqn:E2; simpl; [discriminate|].
    intros H. injection H as <-. now rewrite (fromhex_raises _ _ E2).
  - intros H. injection H as <-. now rewrite (fromhex_raises _ _ E1).
Qed.

Lemma decode_type_code_Ok g_type g_code t c :
  decode_type_code g_type g_code = Ok (t, c) <->
  exists b1 b2, fromhex (strip g_type) = Ok b1 /\ fromhex (strip g_code) = Ok b2 /\
                t = decode_ascii_ignore b1 /\ c = decode_ascii_ignore b2.
Proof.
  unfold decode_type_code. cbv zeta.
  destruct (fromhex (strip g_type)) as [b1|]; simpl.
  - destruct (fromhex (strip g_code)) as [b2|]; simpl.
    + split.
      * intros H. injection H as <- <-. now exists b1, b2.
      * intros (x & y & H1 & H2 & -> & ->). congruence.
    + split; [discriminate|]. intros (x & y & _ & H & _). discriminate.
  - split; [discriminate|]. intros (x & y & H & _). discriminate.
Qed.


End HexFacts.

Import Py Metadata.

Lemma truthy_nonempty s : s <> [] -> truthy s = true.
Proof. destruct s; [congruence | reflexivity]. Qed.

Lemma current_track_sentinel_iff r :
  current_track r = (None, None, 0%R) <->
  is_set (last_artist r) = false /\ is_set (last_title r) = false.
Proof.
  unfold current_track.
  destruct (is_set (last_artist r)); destruct (is_set (last_title r)); simpl;
    split; try discriminate; try tauto; intros [? ?]; discriminate.
Qed.


Section ReaderFacts.
Variable b64decode : str -> result bytes.
Variable decode_utf8 : bytes -> str.

Local Abbreviation handle := (handle_item_xml b64decode decode_utf8).
Local Abbreviation items := (process_items b64decode decode_utf8).
Local Abbreviation loop := (read_loop b64decode decode_utf8).
Local Abbreviation track := (get_track b64decode decode_utf8).
Local Abbreviation carry := (carries b64decode).
Local Abbreviation text := (text_of decode_utf8).

(** [_handle_item_xml] never raises and never touches the pipe or the
    buffer. *)
Lemma handle_item_xml_total r now item :
  exists r', handle r now item = Ok r' /\ buffer r' = buffer r /\ pipe r' = pipe r.
Proof.
  unfold handle_item_xml.
  destruct (RE_PIPE_TYPE item); [|now exists r].
  destruct (RE_PIPE_CODE item); [|now exists r].
  destruct (RE_PIPE_DATA item); [|now exists r].
  destruct (decode_type_code _ _) as [[t c]|e] eqn:E.
  - destruct (b64decode _); [|now exists r].
    destruct (_ && _); [eexists; split; [reflexivity|now split]|].
    destruct (_ && _); [eexists; split; [reflexivity|now split]|now exists r].
  - rewrite (decode_type_code_raises _ _ _ E). now exists r.
Qed.

(** C6.  If a sub-field of an item is missing, or its type or code field
    fails to decode from hex, or its data field fails to decode from
    base64, then [_handle_item_xml] raises nothing and leaves the reader,
    and with it the stored artist, title and [last_update], as it was. *)
Theorem undecodable_item_is_dropped r now item :
  undecodable b64decode item ->
  handle r now item = Ok r.
Proof.
  intros H. unfold undecodable in H. unfold handle_item_xml.
  destruct (RE_PIPE_TYPE item) as [g_type|] eqn:Et; [|reflexivity].
  destruct (RE_PIPE_CODE item) as [g_code|] eqn:Ec; [|reflexivity].
  destruct (RE_PIPE_DATA item) as [g_data|] eqn:Ed; [|reflexivity].
  destruct (decode_type_code g_type g_code) as [[t c]|e] eqn:E.
  - apply decode_type_code_Ok in E as (b1 & b2 & H1 & H2 & _).
    destruct H as [H|[H|[H|[H|[H|H]]]]]; try discriminate;
      destruct H as (g & e & Hg & He); injection Hg as <-; try congruence.
    now rewrite He.
  - now rewrite (decode_type_code_raises _ _ _ E).
Qed.

Lemma process_items_eq now_at k r :
  process_items b64decode decode_utf8 now_at k r =
  match find ITEM_START (buffer r) with
  | None => (set_buffer r (last_chars 1024 (buffer r)), Ok k)
  | Some start =>
      match find_from ITEM_END (buffer r) start with
      | None =>
          (if (0 <? start)%nat then set_buffer r (skipn start (buffer r)) else r,
           Ok k)
      | Some stop =>
          match handle_item_xml b64decode decode_utf8
                  (set_buffer r (skipn (stop + length ITEM_END) (buffer r)))
                  (now_at k)
                  (Np.slice (buffer r) start (stop + length ITEM_END)) with
          | Raise e =>
              (set_buffer r (skipn (stop + length ITEM_END) (buffer r)), Raise e)
          | Ok r' => process_items b64decode decode_utf8 now_at (S k) r'
          end
      end
  end.
Proof.
  funelim (process_items b64decode decode_utf8 now_at k r).
  - rewrite e. reflexivity.
  - rewrite e, e0. reflexivity.
  - rewrite e, e0, e1. reflexivity.
  - rewrite e3, e0, e1. reflexivity.
Qed.

Lemma text_of_app a b : text (a ++ b) = text a ++ text b.
Proof.
  induction a as [|[d|] a IH]; simpl; [reflexivity | | exact IH].
  now rewrite IH, app_assoc.
Qed.

Lemma process_items_no_start now_at k r :
  find ITEM_START (buffer r) = None ->
  items now_at k r = (set_buffer r (last_chars 1024 (buffer r)), Ok k).
Proof.
  intros H. rewrite process_items_eq.
  destruct (find ITEM_START (buffer r)); [discriminate | reflexivity].
Qed.

Lemma read_loop_buffer_bounded now_at evs : forall k r,
  find ITEM_START (buffer r ++ text evs) = None ->
  (length (buffer r) <= 1024)%nat ->
  (length (buffer (loop now_at k r evs)) <= 1024)%nat.
Proof.
  induction evs as [|[data|] rest IH]; intros k r Hf Hl; simpl; try exact Hl.
  destruct data as [|b d]; [exact Hl|].
  simpl in Hf. rewrite app_assoc in Hf.
  set (r1 := set_buffer r (buffer r ++ decode_utf8 (b :: d))) in *.
  change (buffer r ++ decode_utf8 (b :: d)) with (buffer r1) in Hf.
  rewrite process_items_no_start by (eapply find_None_app_l; exact Hf).
  apply IH.
  - cbn [buffer set_buffer]. unfold last_chars.
    apply (find_None_skipn _ _ (length (buffer r1) - 1024)) in Hf.
    rewrite skipn_app in Hf.
    replace (length (buffer r1) - 1024 - length (buffer r1))%nat with 0%nat in Hf by lia.
    exact Hf.
  - cbn [buffer set_buffer]. apply length_last_chars.
Qed.


Lemma handle_item_xml_artist r now item payload :
  carry (lit "asar") item payload ->
  handle r now item = Ok (set_artist r (strip (decode_utf8 payload)) now).
Proof.
  intros (gt & gc & gd & bt & bc & Ht & Hc & Hd & Hbt & Hbc & Et & Ec & Hp).
  unfold handle_item_xml, decode_type_code. rewrite Ht, Hc, Hd. cbv zeta.
  rewrite Hbt, Hbc. simpl bind. cbv beta iota. rewrite Hp, Et, Ec. reflexivity.
Qed.

Lemma handle_item_xml_title r now item payload :
  carry (lit "minm") item payload ->
  handle r now item = Ok (set_title r (strip (decode_utf8 payload)) now).
Proof.
  intros (gt & gc & gd & bt & bc & Ht & Hc & Hd & Hbt & Hbc & Et & Ec & Hp).
  unfold handle_item_xml, decode_type_code. rewrite Ht, Hc, Hd. cbv zeta.
  rewrite Hbt, Hbc. simpl bind. cbv beta iota. rewrite Hp, Et, Ec. reflexivity.
Qed.

(** An item that is neither an artist nor a title item changes nothing. *)
Lemma handle_item_xml_other r now item :
  (forall p, ~ carry (lit "asar") item p) ->
  (forall p, ~ carry (lit "minm") item p) ->
  handle r now item = Ok r.
Proof.
  intros Ha Hm. unfold handle_item_xml.
  destruct (RE_PIPE_TYPE item) as [g_type|] eqn:Et; [|reflexivity].
  destruct (RE_PIPE_CODE item) as [g_code|] eqn:Ec; [|reflexivity].
  destruct (RE_PIPE_DATA item) as [g_data|] eqn:Ed; [|reflexivity].
  destruct (decode_type_code g_type g_code) as [[t c]|e] eqn:E.
  - apply decode_type_code_Ok in E as (b1 & b2 & H1 & H2 & -> & ->).
    destruct (b64decode _) as [payload|] eqn:Hp; [|reflexivity].
    destruct (str_eqb _ _ && str_eqb _ (lit "asar")) eqn:B1.
    { apply andb_true_iff in B1 as [B1 B2]. apply str_eqb_eq in B1, B2.
      exfalso. apply (Ha payload). now exists g_type, g_code, g_data, b1, b2. }
    destruct (str_eqb _ _ && str_eqb _ (lit "minm")) eqn:B2; [|reflexivity].
    apply andb_true_iff in B2 as [B2 B3]. apply str_eqb_eq in B2, B3.
    exfalso. apply (Hm payload). now exists g_type, g_code, g_data, b1, b2.
  - now rewrite (decode_type_code_raises _ _ _ E).
Qed.

(** The loop takes a complete item off the head of the buffer, handles it
    and goes on with the rest. *)
Lemma process_items_framed now_at k r item rest :
  buffer r = item ++ rest ->
  framed item ->
  items now_at k r =
  match handle (set_buffer r rest) (now_at k) item with
  | Raise e => (set_buffer r rest, Raise e)
  | Ok r' => items now_at (S k) r'
  end.
Proof.
  intros Hb [Hs He].
  pose proof (find_Some_bound _ _ _ He) as Hlen.
  change (length ITEM_END) with 7%nat in *.
  rewrite process_items_eq, Hb.
  change (length ITEM_END) with 7%nat.
  rewrite find_startswith
    by (rewrite startswith_app; [exact Hs | now apply startswith_length]).
  unfold find_from.
  replace (length (item ++ rest) <? 0)%nat with false by reflexivity.
  change (skipn 0 (item ++ rest)) with (item ++ rest).
  rewrite (find_app_Some _ _ _ _ He). cbn [option_map Nat.add].
  replace (length item - 7 + 7)%nat with (length item) by lia.
  unfold Np.slice. rewrite Nat.sub_0_r.
  change (skipn 0 (item ++ rest)) with (item ++ rest).
  rewrite skipn_app, skipn_all, Nat.sub_diag.
  rewrite firstn_app, firstn_all, Nat.sub_diag. simpl firstn. simpl skipn.
  rewrite app_nil_r. reflexivity.
Qed.

Lemma handle_all_unobserved its : forall r,
  (forall now item, In (now, item) its ->
     (forall p, ~ carry (lit "asar") item p) /\
     (forall p, ~ carry (lit "minm") item p)) ->
  handle_all b64decode decode_utf8 r its = r.
Proof.
  induction its as [|[now item] rest IH]; intros r H; [reflexivity|].
  simpl. destruct (H now item (or_introl eq_refl)) as [Ha Hm].
  rewrite handle_item_xml_other by assumption.
  apply IH. intros n i Hin. apply (H n i). now right.
Qed.

Lemma read_chunks_idle env r :
  events env = [] ->
  current_track (read_chunks b64decode decode_utf8 env r) = current_track r.
Proof.
  intros He. unfold read_chunks, ensure_pipe. rewrite He.
  destruct (pipe r); [reflexivity|]. destruct (can_open env); reflexivity.
Qed.

(** C10 (amended).  When exactly one of artist and title is stored as a
    non-empty string after the drain, [get_track()] returns it, the
    placeholder ["Unknown Artist"] or ["Unknown Track"] for the other and
    the stored timestamp.  A field of the result is [None] only in the
    sentinel [(None, None, 0.0)], which is returned exactly when neither a
    non-empty artist nor a non-empty title is stored. *)
Theorem get_track_placeholders env r :
  let out := track env r in
  let r' := fst out in
  (is_set (last_artist r') = true -> is_set (last_title r') = false ->
   snd out = (last_artist r', Some (lit "Unknown Track"), last_update r')) /\
  (is_set (last_artist r') = false -> is_set (last_title r') = true ->
   snd out = (Some (lit "Unknown Artist"), last_title r', last_update r')) /\
  (forall a t u,
     snd out = (a, t, u) -> a = None \/ t = None ->
     (a, t, u) = (None, None, 0%R) /\
     is_set (last_artist r') = false /\ is_set (last_title r') = false).
Proof.
  intros out r'. unfold out, get_track. cbn [snd fst].
  set (q := read_chunks b64decode decode_utf8 env r). unfold r', out, get_track. cbn [fst].
  fold q. unfold current_track.
  destruct (last_artist q) as [[|a1 a]|]; destruct (last_title q) as [[|t1 t]|];
    cbn [is_set truthy or_default orb]; (split; [|split]);
    try (intros; discriminate); try (intros; reflexivity);
    intros x y z Hx [E|E]; injection Hx as <- <- <-; try discriminate E;
    repeat split; reflexivity.
Qed.

End ReaderFacts.

(** ** The reader on sample streams, with CPython's decoders *)

Section SampleRuns.
Local Open Scope R_scope.

Local Abbreviation py_track := (get_track Py.b64decode Py.decode_utf8_ignore).

Lemma artist_item_framed : framed (lit artist_item) /\ framed (lit title_item).
Proof. repeat split; vm_compute; reflexivity. Qed.

Lemma artist_item_carries :
  carries Py.b64decode (lit "asar") (lit artist_item) (blit "Daft Punk").
Proof. unfold carries. do 5 eexists. repeat split; vm_compute; reflexivity. Qed.

Lemma title_item_carries :
  carries Py.b64decode (lit "minm") (lit title_item) (blit "One More Time").
Proof. unfold carries. do 5 eexists. repeat split; vm_compute; reflexivity. Qed.

Lemma blank_artist_item_carries :
  carries Py.b64decode (lit "asar") (lit blank_artist_item) (blit " ").
Proof. unfold carries. do 5 eexists. repeat split; vm_compute; reflexivity. Qed.

Lemma blank_title_item_carries :
  carries Py.b64decode (lit "minm") (lit blank_title_item) (blit "").
Proof. unfold carries. do 5 eexists. repeat split; vm_compute; reflexivity. Qed.

(** C7, the claim as stated fails: an artist item whose payload is a single
    space is handled and stored, at time 5, and [get_track()] still
    returns the sentinel. *)
Lemma get_track_sentinel_after_artist_item :
  let out := py_track (pipe_env [blank_artist_item] 5) (MetadataReader PIPE_PATH) in
  carries Py.b64decode (lit "asar") (lit blank_artist_item) (blit " ") /\
  last_artist (fst out) = Some [] /\
  last_update (fst out) = 5 + 0 /\
  snd out = (None, None, 0).
Proof.
  split; [exact blank_artist_item_carries|].
  repeat split; vm_compute; reflexivity.
Qed.

(** C10, the claim as stated fails: after a title item with an empty
    payload only the title has been observed, at time 7; [get_track()]
    returns [None], not ["Unknown Artist"], for the artist, and the
    timestamp it hides is set. *)
Lemma get_track_no_placeholder_for_blank_title :
  let out := py_track (pipe_env [blank_title_item] 7) (MetadataReader PIPE_PATH) in
  carries Py.b64decode (lit "minm") (lit blank_title_item) (blit "") /\
  last_artist (fst out) = None /\
  last_title (fst out) = Some [] /\
  last_update (fst out) = 7 + 0 /\
  snd out = (None, None, 0).
Proof.
  split; [exact blank_title_item_carries|].
  repeat split; vm_compute; reflexivity.
Qed.

Example get_track_daft_punk :
  snd (py_track (pipe_env [String.append artist_item title_item] 5)
         (MetadataReader PIPE_PATH))
  = (Some (lit "Daft Punk"), Some (lit "One More Time"), 5 + 1).
Proof. vm_compute. reflexivity. Qed.



Lemma undecodable_item_is_dropped_witness :
  undecodable Py.b64decode (lit odd_hex_item) /\
  handle_item_xml Py.b64decode Py.decode_utf8_ignore
    (MetadataReader PIPE_PATH) 5 (lit odd_hex_item)
  = Ok (MetadataReader PIPE_PATH).
Proof.
  assert (H : undecodable Py.b64decode (lit odd_hex_item)).
  { do 3 right. left. do 2 eexists. split; vm_compute; reflexivity. }
  exact (conj H
    (undecodable_item_is_dropped Py.b64decode Py.decode_utf8_ignore
       (MetadataReader PIPE_PATH) 5 (lit odd_hex_item) H)).
Defined.

End SampleRuns.

(** ** The stand-alone visualizer *)

Section VisualizerFacts.
Import Np.
Local Open Scope R_scope.

Lemma visualizer_smooth_cell p b :
  lift2 Rplus (lift (Rmult 0.7) p) (lift (Rmult 0.3) b) = Audio.ema 0.7 p b.
Proof.
  unfold Audio.ema.
  destruct p as [|x]; destruct b as [|y]; simpl; try reflexivity.
  apply (f_equal Num). lra.
Qed.

Lemma visualizer_bands_of mono :
  mono <> [] ->
  exists bands, Visualizer.bands_of mono = Ok bands /\
                length bands = Visualizer.N_BANDS.
Proof.
  intros Hm. unfold Visualizer.bands_of.
  assert (Hl : length (Audio.mul mono (hanning (length mono))) = length mono)
    by (apply length_mul; now rewrite length_hanning).
  destruct (Audio.mul mono (hanning (length mono))) as [|m ms] eqn:E.
  - destruct mono; [congruence | discriminate Hl].
  - cbn [bind]. eexists. split; [reflexivity|].
    now rewrite !length_map, length_seq.
Qed.

(** X1.  The callback of [audio_visualizer.py], on a block of at least one
    stereo frame, returns normally and replaces [self.levels], band by
    band, by [0.7 * previous + (1 - 0.7) * new_bands]. *)
Theorem visualizer_levels_moving_average self indata :
  indata <> [] ->
  length (Visualizer.levels self) = Visualizer.N_BANDS ->
  exists bands self',
    Visualizer.bands_of (map (fun f => mean_fin [fst f; snd f]) indata) = Ok bands /\
    Visualizer.audio_callback self indata = Ok self' /\
    length (Visualizer.levels self') = Visualizer.N_BANDS /\
    forall i, (i < Visualizer.N_BANDS)%nat ->
      nth i (Visualizer.levels self') NaN
      = Audio.ema 0.7 (nth i (Visualizer.levels self) NaN) (nth i bands NaN).
Proof.
  intros Hi Hl.
  destruct (visualizer_bands_of (map (fun f => mean_fin [fst f; snd f]) indata))
    as (bands & Hb & Hlen).
  { destruct indata; [congruence | discriminate]. }
  exists bands. unfold Visualizer.audio_callback. rewrite Hb. cbn [bind].
  eexists. split; [reflexivity|]. split; [reflexivity|].
  cbn [Visualizer.levels]. unfold Visualizer.smooth. split.
  - rewrite length_map, length_combine. lia.
  - intros i Hlt.
    rewrite (nth_indep _ NaN
               ((fun p => lift2 Rplus (lift (Rmult 0.7) (fst p))
                                      (lift (Rmult 0.3) (snd p))) (NaN, NaN)))
      by (rewrite length_map, length_combine; lia).
    rewrite (map_nth (fun p => lift2 Rplus (lift (Rmult 0.7) (fst p))
                                           (lift (Rmult 0.3) (snd p)))).
    rewrite combine_nth by congruence. apply visualizer_smooth_cell.
Qed.

Lemma visualizer_levels_moving_average_witness :
  [(0.5, 0.25); (-0.5, 0)] <> [] /\
  length (Visualizer.levels Visualizer.AudioVisualizer_init) = Visualizer.N_BANDS /\
  exists bands self',
    Visualizer.bands_of
      (map (fun f => mean_fin [fst f; snd f]) [(0.5, 0.25); (-0.5, 0)]) = Ok bands /\
    Visualizer.audio_callback Visualizer.AudioVisualizer_init [(0.5, 0.25); (-0.5, 0)]
      = Ok self' /\
    length (Visualizer.levels self') = Visualizer.N_BANDS /\
    forall i, (i < Visualizer.N_BANDS)%nat ->
      nth i (Visualizer.levels self') NaN
      = Audio.ema 0.7 (nth i (Visualizer.levels Visualizer.AudioVisualizer_init) NaN)
                      (nth i bands NaN).
Proof.
  assert (H1 : [(0.5, 0.25); (-0.5, 0)] <> []) by discriminate.
  assert (H2 : length (Visualizer.levels Visualizer.AudioVisualizer_init)
               = Visualizer.N_BANDS) by reflexivity.
  exact (conj H1 (conj H2
    (visualizer_levels_moving_average Visualizer.AudioVisualizer_init
       [(0.5, 0.25); (-0.5, 0)] H1 H2))).
Defined.

End VisualizerFacts.

(** ** Further properties of [compute_levels], the handler and the spinner *)

Section FurtherFacts.
Import Np Audio.
Local Open Scope R_scope.

(** X2.  For every band count [N >= 1], every window cache and every block
    of finite samples, [compute_levels] returns normally and returns
    exactly [N] cells. *)
Theorem compute_levels_returns_n_bands cfg cache block :
  (1 <= n_bands cfg)%nat ->
  exists l, snd (compute_levels cfg cache block) = Ok l /\
            length l = n_bands cfg.
Proof. apply compute_levels_length. Qed.

Lemma compute_levels_returns_n_bands_witness :
  (1 <= n_bands CONFIG)%nat /\
  exists l, snd (compute_levels CONFIG None loud_block) = Ok l /\
            length l = n_bands CONFIG.
Proof.
  assert (H : (1 <= n_bands CONFIG)%nat) by (simpl; lia).
  exact (conj H (compute_levels_returns_n_bands CONFIG None loud_block H)).
Defined.

(** X3.  When the mono signal has no spectrum bin besides DC, or at least
    [N - 1] of them, every cell [compute_levels] returns is a value of
    [[0, 1]]. *)
Theorem compute_levels_values_in_unit_interval cfg cache block :
  (1 <= n_bands cfg)%nat ->
  (length (to_mono block) / 2 = 0 \/
   n_bands cfg - 1 <= length (to_mono block) / 2)%nat ->
  exists l, snd (compute_levels cfg cache block) = Ok l /\
            length l = n_bands cfg /\ Forall unit_cell l.
Proof. apply compute_levels_unit_interval. Qed.

Lemma compute_levels_values_in_unit_interval_witness :
  (1 <= n_bands CONFIG)%nat /\
  (length (to_mono ramp_block) / 2 = 0 \/
   n_bands CONFIG - 1 <= length (to_mono ramp_block) / 2)%nat /\
  exists l, snd (compute_levels CONFIG None ramp_block) = Ok l /\
            length l = n_bands CONFIG /\ Forall unit_cell l.
Proof.
  assert (H1 : (1 <= n_bands CONFIG)%nat) by (simpl; lia).
  assert (H2 : (length (to_mono ramp_block) / 2 = 0 \/
                n_bands CONFIG - 1 <= length (to_mono ramp_block) / 2)%nat)
    by (right; simpl; lia).
  exact (conj H1 (conj H2
    (compute_levels_values_in_unit_interval CONFIG None ramp_block H1 H2))).
Defined.

(** X4.  On silence, when the mono signal has no spectrum bin besides DC or
    at least [N - 1] of them, [compute_levels] returns all-zero bands. *)
Theorem compute_levels_silence_all_zero cfg cache block :
  (1 <= n_bands cfg)%nat ->
  (length (to_mono block) / 2 = 0 \/
   n_bands cfg - 1 <= length (to_mono block) / 2)%nat ->
  all_zero (data block) ->
  snd (compute_levels cfg cache block) = Ok (zeros (n_bands cfg)).
Proof. apply compute_levels_silence. Qed.

Lemma compute_levels_silence_all_zero_witness :
  (1 <= n_bands CONFIG)%nat /\
  (length (to_mono silence_2048) / 2 = 0 \/
   n_bands CONFIG - 1 <= length (to_mono silence_2048) / 2)%nat /\
  all_zero (data silence_2048) /\
  snd (compute_levels CONFIG None silence_2048) = Ok (zeros (n_bands CONFIG)).
Proof.
  assert (H1 : (1 <= n_bands CONFIG)%nat) by (simpl; lia).
  assert (H2 : (length (to_mono silence_2048) / 2 = 0 \/
                n_bands CONFIG - 1 <= length (to_mono silence_2048) / 2)%nat).
  { right. unfold to_mono, silence_2048, rows_of. cbn [shape data Nat.ltb Nat.leb].
    rewrite !length_map, length_seq. apply Nat.div_le_lower_bound; simpl; lia. }
  assert (H3 : all_zero (data silence_2048)).
  { apply Forall_forall. intros x Hx. apply repeat_spec in Hx. now subst. }
  exact (conj H1 (conj H2 (conj H3
    (compute_levels_silence_all_zero CONFIG None silence_2048 H1 H2 H3)))).
Defined.

(** X7.  When the mono signal has at least one spectrum bin besides DC,
    the cells of the result of [compute_levels] that are NaN are exactly
    those of the bands [bins .. N - 2]: the bands past the last bin, the
    last band apart. *)
Theorem compute_levels_nan_exactly_past_last_bin cfg cache block :
  (1 <= n_bands cfg)%nat ->
  (0 < length (to_mono block) / 2)%nat ->
  exists l,
    snd (compute_levels cfg cache block) = Ok l /\
    forall i, (i < n_bands cfg)%nat ->
      (nth i l (Num 0) = NaN <->
       (length (to_mono block) / 2 <= i < n_bands cfg - 1)%nat).
Proof.
  intros Hn Hb.
  destruct (compute_levels_length cfg cache block Hn) as (l & Hl & _).
  exists l. split; [exact Hl|]. intros i Hi.
  now apply (compute_levels_nan_cells cfg cache block l i).
Qed.

Lemma compute_levels_nan_exactly_past_last_bin_witness :
  (1 <= n_bands CONFIG)%nat /\
  (0 < length (to_mono short_block) / 2)%nat /\
  exists l,
    snd (compute_levels CONFIG None short_block) = Ok l /\
    forall i, (i < n_bands CONFIG)%nat ->
      (nth i l (Num 0) = NaN <->
       (length (to_mono short_block) / 2 <= i < n_bands CONFIG - 1)%nat).
Proof.
  assert (H1 : (1 <= n_bands CONFIG)%nat) by (simpl; lia).
  assert (H2 : (0 < length (to_mono short_block) / 2)%nat) by (simpl; lia).
  exact (conj H1 (conj H2
    (compute_levels_nan_exactly_past_last_bin CONFIG None short_block H1 H2))).
Defined.

(** X5.  [_handle_item_xml] never raises, whatever the item and whatever
    [base64.b64decode] does, and it leaves the buffer and the pipe alone. *)
Theorem handle_item_xml_never_raises
    (b64decode : str -> result bytes) (decode_utf8 : bytes -> str) r now item :
  exists r',
    handle_item_xml b64decode decode_utf8 r now item = Ok r' /\
    buffer r' = buffer r /\ pipe r' = pipe r.
Proof. apply handle_item_xml_total. Qed.

(** X6.  Every index the loop of [ambient_step] reads from [SPINNER_PATH] is
    a valid one, also where [current_index - i] is negative. *)
Theorem ambient_tail_indices_valid c i :
  (0 <= Ambient.pos_index c i < Z.of_nat (length Ambient.SPINNER_PATH))%Z.
Proof. apply pos_index_valid. Qed.

End FurtherFacts.

(** ** The audio thread *)

Section AudioThreadFacts.
Import Np Audio.
Local Open Scope R_scope.

(** A window cache as the program can hold it: empty, or a Hann window. *)
Lemma window_for_hanning cache n :
  cache = None \/ (exists m, cache = Some (hanning m)) ->
  window_for cache n = hanning n.
Proof.
  intros [->|[m ->]]; unfold window_for, get_hann_window; simpl.
  - rewrite length_hanning, Nat.eqb_refl. reflexivity.
  - rewrite length_hanning. destruct (m =? n)%nat eqn:E; simpl.
    + apply Nat.eqb_eq in E. subst m. rewrite length_hanning, Nat.eqb_refl. reflexivity.
    + rewrite length_hanning, Nat.eqb_refl. reflexivity.
Qed.

Lemma compute_levels_cache_hanning cfg cache block :
  cache = None \/ (exists m, cache = Some (hanning m)) ->
  snd (compute_levels cfg cache block) = snd (compute_levels cfg None block) /\
  (fst (compute_levels cfg cache block) = None \/
   exists m, fst (compute_levels cfg cache block) = Some (hanning m)).
Proof.
  intros H. split.
  - rewrite !compute_levels_eq. unfold magnitudes.
    rewrite (window_for_hanning cache _ H), (window_for_hanning None) by (left; reflexivity).
    reflexivity.
  - unfold compute_levels. cbv zeta.
    destruct (length (to_mono block) =? 0)%nat; [exact H|].
    assert (Hc : fst (get_hann_window cache (length (to_mono block))) = None \/
                 exists m, fst (get_hann_window cache (length (to_mono block))) = Some (hanning m)).
    { unfold get_hann_window. destruct cache as [w|]; simpl.
      - destruct (length w =? _)%nat; simpl; [exact H | right; eexists; reflexivity].
      - right; eexists; reflexivity. }
    destruct (get_hann_window cache (length (to_mono block))) as [c1 w0]. simpl in Hc.
    destruct (rfft _); simpl; [|exact Hc].
    destruct (_ <=? 0)%nat; [exact Hc|].
    destruct (n_bands cfg =? 0)%nat; exact Hc.
Qed.

Lemma audio_callback_W_HANN cfg w indata now :
  W_HANN (fst (audio_callback cfg w indata now)) =
  fst (compute_levels cfg (W_HANN w) (callback_frame cfg w indata)).
Proof.
  unfold audio_callback, callback_frame, callback_gain. cbv zeta.
  destruct (compute_levels _ _ _) as [c [l|e]]; reflexivity.
Qed.

Lemma run_callbacks_cache_hanning cfg blocks : forall w,
  W_HANN w = None \/ (exists m, W_HANN w = Some (hanning m)) ->
  W_HANN (run_callbacks cfg w blocks) = None \/
  exists m, W_HANN (run_callbacks cfg w blocks) = Some (hanning m).
Proof.
  induction blocks as [|[indata now] rest IH]; intros w Hw; [exact Hw|].
  simpl.
  pose proof (audio_callback_W_HANN cfg w indata now) as E.
  pose proof (proj2 (compute_levels_cache_hanning cfg (W_HANN w) (callback_frame cfg w indata) Hw)) as Hc.
  rewrite <- E in Hc.
  destruct (audio_callback cfg w indata now) as [w' [u|e]]; simpl in *.
  - apply IH, Hc.
  - exact Hc.
Qed.

Lemma length_to_mono_limited cfg g indata :
  length (to_mono (limited_frame cfg g indata)) = length (to_mono indata).
Proof.
  unfold to_mono, limited_frame. simpl.
  destruct (shape indata) as [|r [|c [|? ?]]]; try apply length_map.
  destruct (1 <? c)%nat; [|apply length_map].
  unfold rows_of. rewrite !length_map. reflexivity.
Qed.

Lemma ema_unit s p b :
  0 <= s <= 1 -> unit_cell p -> unit_cell b -> unit_cell (ema s p b).
Proof.
  intros Hs (x & -> & Hx) (y & -> & Hy). unfold ema. simpl.
  eexists; split; [reflexivity|]. nra.
Qed.

Lemma smooth_unit s a b :
  0 <= s <= 1 -> Forall unit_cell a -> Forall unit_cell b ->
  Forall unit_cell (smooth s a b).
Proof.
  intros Hs Ha. revert b. induction Ha as [|x a Hx Ha IH]; intros b Hb.
  - constructor.
  - destruct Hb as [|y b Hy Hb]; [constructor|].
    unfold smooth. simpl. constructor; [now apply ema_unit | apply IH, Hb].
Qed.

Lemma run_callbacks_levels_unit cfg blocks :
  (1 <= n_bands cfg)%nat ->
  0 <= smoothing cfg <= 1 ->
  Forall (fun b => let bins := (length (to_mono (fst b)) / 2)%nat in
                   bins = 0%nat \/ (n_bands cfg - 1 <= bins)%nat) blocks ->
  forall w, Forall unit_cell (levels_smooth (W_STATE w)) ->
  Forall unit_cell (levels_smooth (W_STATE (run_callbacks cfg w blocks))).
Proof.
  intros Hn Hs Hb. induction Hb as [|[indata now] rest Hx Hrest IH]; intros w Hw; [exact Hw|].
  simpl.
  destruct (audio_callback_levels cfg w indata now Hn) as (bands & Hc & Hlen & Hok & Hl).
  destruct (compute_levels_unit_interval cfg (W_HANN w) (callback_frame cfg w indata) Hn)
    as (l & Hl1 & _ & Hu).
  { unfold callback_frame. rewrite length_to_mono_limited. exact Hx. }
  rewrite Hc in Hl1. injection Hl1 as <-.
  destruct (audio_callback cfg w indata now) as [w' r]. simpl in *. subst r.
  apply IH. rewrite Hl. now apply smooth_unit.
Qed.

Lemma rms_of_all_zero xs : all_zero xs -> rms_of xs = 0.
Proof.
  intros H. destruct xs as [|x xs]; [reflexivity|].
  unfold rms_of. rewrite mean_fin_all_zero; [apply sqrt_0|].
  unfold all_zero in *. rewrite Forall_forall in *. intros y Hy.
  apply in_map_iff in Hy. destruct Hy as (z & <- & Hz). rewrite <- (H z Hz). lra.
Qed.

Lemma clip_zero T : 0 <= T -> clip (- T) T 0 = 0.
Proof.
  intros H. unfold clip. rewrite Rmax_left by lra. apply Rmin_left. lra.
Qed.

Lemma frame_rms_all_zero indata : all_zero (data indata) -> frame_rms indata = 0.
Proof.
  intros H. unfold frame_rms. apply rms_of_all_zero.
  unfold all_zero in *. rewrite Forall_forall in *. intros y Hy.
  apply in_map_iff in Hy. destruct Hy as (z & <- & Hz). rewrite <- (H z Hz).
  symmetry. replace (-1) with (- (1)) by lra. apply clip_zero. lra.
Qed.

Lemma limited_frame_all_zero cfg g indata :
  0 <= limit_threshold cfg ->
  all_zero (data indata) -> all_zero (data (limited_frame cfg g indata)).
Proof.
  intros HT H. unfold limited_frame. simpl.
  unfold all_zero in *. rewrite Forall_forall in *. intros y Hy.
  apply in_map_iff in Hy. destruct Hy as (z & <- & Hz). rewrite <- (H z Hz).
  replace (-1) with (- (1)) by lra. rewrite clip_zero by lra.
  rewrite Rmult_0_l. symmetry. now apply clip_zero.
Qed.

Lemma smooth_zeros s a n :
  length a = n ->
  smooth s a (zeros n) = map (lift (Rmult s)) a.
Proof.
  revert n. induction a as [|x a IH]; intros n Hn; [reflexivity|].
  destruct n as [|n]; [discriminate|]. injection Hn as Hn.
  unfold smooth, zeros in *. simpl. f_equal; [|apply IH, Hn].
  unfold ema. destruct x as [|x]; simpl; [reflexivity|]. f_equal. lra.
Qed.

Lemma mean_cells_zeros n : (1 <= n)%nat -> mean_cells (zeros n) = Num 0.
Proof.
  intros Hn. assert (Hs : sum_cells (zeros n) = Num 0).
  { unfold zeros. clear Hn. induction n as [|n IH]; simpl; [reflexivity|].
    rewrite IH. f_equal. lra. }
  destruct n as [|n]; [lia|].
  unfold mean_cells. change (zeros (S n)) with (Num 0 :: zeros n) at 1.
  cbv iota. change (Num 0 :: zeros n) with (zeros (S n)). rewrite Hs.
  f_equal. unfold Rdiv. apply Rmult_0_l.
Qed.

(** The target gain of the AGC for a frame of RMS [rms]. *)
Lemma agc_update_towards cfg g rms :
  1e-6 < rms ->
  0 <= agc_attack cfg <= 1 -> 0 <= agc_release cfg <= 1 ->
  let t := Rmax (Rmin (agc_target_rms cfg / rms) (agc_max_gain cfg)) (agc_min_gain cfg) in
  (g <= t -> t - agc_update cfg g rms = (1 - agc_attack cfg) * (t - g)) /\
  (t <= g -> agc_update cfg g rms - t = (1 - agc_release cfg) * (g - t)).
Proof.
  intros Hr Ha Hl t. unfold agc_update.
  destruct (Rlt_dec 1e-6 rms); [|lra]. fold t.
  destruct (Rlt_dec g t); split; intros; try lra.
  assert (g = t) by lra. subst g. lra.
Qed.

Lemma run_callbacks_gain_geometric cfg c blocks :
  (1 <= n_bands cfg)%nat ->
  0 <= agc_attack cfg <= 1 -> 0 <= agc_release cfg <= 1 ->
  1e-6 < c ->
  Forall (fun b => frame_rms (fst b) = c) blocks ->
  let t := Rmax (Rmin (agc_target_rms cfg / c) (agc_max_gain cfg)) (agc_min_gain cfg) in
  forall w,
  let g0 := agc_gain (W_STATE w) in
  let g := agc_gain (W_STATE (run_callbacks cfg w blocks)) in
  (g0 <= t -> t - g = (1 - agc_attack cfg) ^ length blocks * (t - g0)) /\
  (t <= g0 -> g - t = (1 - agc_release cfg) ^ length blocks * (g0 - t)).
Proof.
  intros Hn Ha Hl Hc Hb t.
  induction Hb as [|[indata now] rest Hx Hrest IH]; intros w g0 g.
  - subst g g0. simpl. split; intros; lra.
  - subst g g0. simpl in Hx. cbn [run_callbacks].
    pose proof (audio_callback_gain cfg w indata now) as Hg.
    destruct (audio_callback_levels cfg w indata now Hn) as (_ & _ & _ & Hok & _).
    destruct (audio_callback cfg w indata now) as [w' r]. simpl in Hg, Hok. subst r.
    unfold callback_gain in Hg. rewrite Hx in Hg.
    destruct (agc_update_towards cfg (agc_gain (W_STATE w)) c Hc Ha Hl) as [Hup Hdn].
    fold t in Hup, Hdn. rewrite <- Hg in Hup, Hdn.
    destruct (IH w') as [IHup IHdn]. cbn [length pow].
    split; intros H.
    + specialize (Hup H).
      assert (agc_gain (W_STATE w') <= t) by nra.
      rewrite (IHup H0). nra.
    + specialize (Hdn H).
      assert (t <= agc_gain (W_STATE w')) by nra.
      rewrite (IHdn H0). nra.
Qed.


Lemma nth_error_smooth s a b i :
  nth_error (smooth s a b) i =
  match nth_error a i, nth_error b i with
  | Some p, Some q => Some (ema s p q)
  | _, _ => None
  end.
Proof.
  unfold smooth. revert b i. induction a as [|x a IH]; intros b i.
  - destruct i; reflexivity.
  - destruct b as [|y b].
    + destruct i; cbn; [reflexivity|]. destruct (nth_error a i); reflexivity.
    + destruct i as [|i]; [reflexivity|]. cbn [combine map nth_error]. apply IH.
Qed.

Lemma ema_nan_l s b : ema s NaN b = NaN.
Proof. reflexivity. Qed.

Lemma ema_nan_r s p : ema s p NaN = NaN.
Proof. destruct p; reflexivity. Qed.

Lemma audio_callback_keeps_nan cfg w indata now i :
  (1 <= n_bands cfg)%nat -> (i < n_bands cfg)%nat ->
  nth_error (levels_smooth (W_STATE w)) i = Some NaN ->
  nth_error (levels_smooth (W_STATE (fst (audio_callback cfg w indata now)))) i
  = Some NaN.
Proof.
  intros Hn Hi Hnan.
  destruct (audio_callback_levels cfg w indata now Hn) as (bands & _ & Hlen & _ & Hl).
  rewrite Hl, nth_error_smooth, Hnan.
  destruct (nth_error bands i) eqn:E; [reflexivity|].
  apply nth_error_None in E. lia.
Qed.

Lemma run_callbacks_keeps_nan cfg i blocks :
  (1 <= n_bands cfg)%nat -> (i < n_bands cfg)%nat ->
  forall w,
  nth_error (levels_smooth (W_STATE w)) i = Some NaN ->
  nth_error (levels_smooth (W_STATE (run_callbacks cfg w blocks))) i = Some NaN.
Proof.
  intros Hn Hi. induction blocks as [|[indata now] rest IH]; intros w Hw; [exact Hw|].
  cbn [run_callbacks].
  pose proof (audio_callback_keeps_nan cfg w indata now i Hn Hi Hw) as Hk.
  destruct (audio_callback_levels cfg w indata now Hn) as (_ & _ & _ & Hok & _).
  destruct (audio_callback cfg w indata now) as [w' r]. cbn [fst snd] in *. subst r.
  now apply IH.
Qed.

Lemma run_callbacks_app cfg a b w :
  (1 <= n_bands cfg)%nat ->
  run_callbacks cfg w (a ++ b) = run_callbacks cfg (run_callbacks cfg w a) b.
Proof.
  intros Hn. revert w. induction a as [|[indata now] a IH]; intros w; [reflexivity|].
  cbn [app run_callbacks].
  destruct (audio_callback_levels cfg w indata now Hn) as (_ & _ & _ & Hok & _).
  destruct (audio_callback cfg w indata now) as [w' r]. cbn [snd] in Hok. subst r.
  apply IH.
Qed.

Lemma audio_callback_poison cfg w indata now :
  let bins := (length (to_mono indata) / 2)%nat in
  (0 < bins < n_bands cfg - 1)%nat ->
  length (levels_smooth (W_STATE w)) = n_bands cfg ->
  nth_error (levels_smooth (W_STATE (fst (audio_callback cfg w indata now)))) bins
  = Some NaN.
Proof.
  intros bins Hb Hlen.
  assert (Hn : (1 <= n_bands cfg)%nat) by lia.
  destruct (audio_callback_levels cfg w indata now Hn) as (bands & Hc & Hl & _ & Hs).
  rewrite Hs, nth_error_smooth.
  destruct (nth_error (levels_smooth (W_STATE w)) bins) as [p|] eqn:Ep.
  2:{ apply nth_error_None in Ep. lia. }
  assert (Hq : nth bins bands (Num 0) = NaN).
  { apply (compute_levels_nan_cells cfg (W_HANN w) (callback_frame cfg w indata) bands bins);
      unfold callback_frame; rewrite ?length_to_mono_limited; fold bins; try lia.
    exact Hc. }
  destruct (nth_error bands bins) as [q|] eqn:Eq.
  2:{ apply nth_error_None in Eq. lia. }
  apply (nth_error_nth _ _ (Num 0)) in Eq. rewrite Hq in Eq. subst q.
  now rewrite ema_nan_r.
Qed.

Lemma audio_callback_stream_active cfg w indata now :
  stream_active (W_STATE (fst (audio_callback cfg w indata now))) =
  stream_active (W_STATE w).
Proof.
  unfold audio_callback. cbv zeta.
  destruct (compute_levels _ _ _) as [c [l|e]];
    destruct (Rlt_dec 1e-6 (frame_rms indata));
    try destruct (gtb _ _); try destruct (ltb _ _); reflexivity.
Qed.

Lemma run_callbacks_stream_active cfg blocks : forall w,
  stream_active (W_STATE (run_callbacks cfg w blocks)) = stream_active (W_STATE w).
Proof.
  induction blocks as [|[indata now] rest IH]; intros w; [reflexivity|].
  cbn [run_callbacks].
  pose proof (audio_callback_stream_active cfg w indata now) as H.
  destruct (audio_callback cfg w indata now) as [w' [u|e]]; cbn [fst] in H.
  - now rewrite IH.
  - exact H.
Qed.


Lemma frame_rms_full_scale : frame_rms Samples.full_scale_block = 1.
Proof.
  unfold frame_rms, Samples.full_scale_block, rms_of, mean_fin, Np.sum, clip. cbn.
  rewrite (Rmax_left 1 (-1)) by lra. rewrite (Rmin_left 1 1) by lra.
  replace ((1 * 1 + (1 * 1 + 0)) / (1 + 1)) with 1 by lra.
  apply sqrt_1.
Qed.

(** X8.  The levels [compute_levels] returns for a block do not depend on
    the blocks the audio thread has processed before: with the window
    cache as any run of callbacks from the initial state leaves it, the
    result is the one computed with an empty cache. *)
Theorem compute_levels_forgets_earlier_blocks cfg blocks block :
  snd (compute_levels cfg (W_HANN (run_callbacks cfg (World_init cfg) blocks)) block)
  = snd (compute_levels cfg None block).
Proof.
  apply (proj1 (compute_levels_cache_hanning cfg _ block
                  (run_callbacks_cache_hanning cfg blocks (World_init cfg)
                     (or_introl eq_refl)))).
Qed.

(** X9.  The stored levels stay within [[0, 1]].  For a band count
    [N >= 1] and a smoothing factor in [[0, 1]], after any number of
    callbacks on blocks that each have no spectrum bin besides DC or at
    least [N - 1] of them, [STATE.levels_smooth] has [N] cells and each is
    a value of [[0, 1]]. *)
Theorem levels_smooth_stay_in_unit_interval cfg blocks :
  (1 <= n_bands cfg)%nat ->
  0 <= smoothing cfg <= 1 ->
  Forall (fun b => let bins := (length (to_mono (fst b)) / 2)%nat in
                   bins = 0%nat \/ (n_bands cfg - 1 <= bins)%nat) blocks ->
  let lv := levels_smooth (W_STATE (run_callbacks cfg (World_init cfg) blocks)) in
  length lv = n_bands cfg /\ Forall unit_cell lv.
Proof.
  intros Hn Hs Hb lv. split.
  - apply run_callbacks_levels_length; [exact Hn | apply length_zeros].
  - apply run_callbacks_levels_unit; try assumption. apply zeros_unit.
Qed.

Lemma levels_smooth_stay_in_unit_interval_witness :
  let lv := levels_smooth
              (W_STATE (run_callbacks CONFIG (World_init CONFIG)
                          [(ramp_block, 1); (ramp_block, 2)])) in
  length lv = n_bands CONFIG /\ Forall unit_cell lv.
Proof.
  apply (levels_smooth_stay_in_unit_interval CONFIG [(ramp_block, 1); (ramp_block, 2)]).
  - simpl. lia.
  - simpl. lra.
  - apply Forall_cons; [right; simpl; lia|].
    apply Forall_cons; [right; simpl; lia|]. apply Forall_nil.
Defined.

(** X10.  A block of silence fades the display and marks the silence.  Let
    every sample of the block be zero, the limiter threshold not negative,
    and the block have no spectrum bin besides DC or at least [N - 1] of
    them.  Then the callback returns normally, multiplies every stored
    level by [smoothing], sets [silence_detected], and leaves
    [audio_last_active] and the AGC gain as they were. *)
Theorem silent_block_fades_levels cfg w indata now :
  let bins := (length (to_mono indata) / 2)%nat in
  let w' := fst (audio_callback cfg w indata now) in
  (1 <= n_bands cfg)%nat ->
  bins = 0%nat \/ (n_bands cfg - 1 <= bins)%nat ->
  0 <= limit_threshold cfg ->
  all_zero (data indata) ->
  length (levels_smooth (W_STATE w)) = n_bands cfg ->
  snd (audio_callback cfg w indata now) = Ok tt /\
  levels_smooth (W_STATE w') =
    map (lift (Rmult (smoothing cfg))) (levels_smooth (W_STATE w)) /\
  silence_detected (W_STATE w') = true /\
  audio_last_active (W_STATE w') = audio_last_active (W_STATE w) /\
  agc_gain (W_STATE w') = agc_gain (W_STATE w).
Proof.
  intros bins w' Hn Hb HT Hz Hlen. subst w'.
  assert (Hrms : frame_rms indata = 0) by now apply frame_rms_all_zero.
  assert (Hg : agc_update cfg (agc_gain (W_STATE w)) (frame_rms indata) = agc_gain (W_STATE w)).
  { apply agc_update_quiet. rewrite Hrms. lra. }
  assert (Hc : snd (compute_levels cfg (W_HANN w)
                      (limited_frame cfg (agc_gain (W_STATE w)) indata)) =
               Ok (zeros (n_bands cfg))).
  { apply compute_levels_silence; [exact Hn| |now apply limited_frame_all_zero].
    rewrite length_to_mono_limited. exact Hb. }
  unfold audio_callback. cbv zeta. rewrite Hg.
  destruct (compute_levels _ _ _) as [c r]. simpl in Hc. subst r.
  rewrite mean_cells_zeros by exact Hn.
  destruct (Rlt_dec 1e-6 (frame_rms indata)) as [H|H]; [rewrite Hrms in H; lra|].
  unfold gtb, ltb.
  destruct (Rlt_dec 0.01 0); [lra|]. destruct (Rlt_dec 0 0.001); [|lra].
  simpl. rewrite smooth_zeros by exact Hlen. repeat split; reflexivity.
Qed.


Lemma silent_block_fades_levels_witness :
  let w' := fst (audio_callback CONFIG (World_init CONFIG) silence_2048 3) in
  snd (audio_callback CONFIG (World_init CONFIG) silence_2048 3) = Ok tt /\
  levels_smooth (W_STATE w') =
    map (lift (Rmult (smoothing CONFIG))) (levels_smooth (W_STATE (World_init CONFIG))) /\
  silence_detected (W_STATE w') = true /\
  audio_last_active (W_STATE w') = audio_last_active (W_STATE (World_init CONFIG)) /\
  agc_gain (W_STATE w') = agc_gain (W_STATE (World_init CONFIG)).
Proof.
  apply (silent_block_fades_levels CONFIG (World_init CONFIG) silence_2048 3).
  - simpl. lia.
  - right. unfold to_mono, silence_2048, rows_of. cbn [shape data Nat.ltb Nat.leb].
    rewrite !length_map, length_seq. apply Nat.div_le_lower_bound; simpl; lia.
  - simpl. lra.
  - apply Forall_forall. intros x Hx. apply repeat_spec in Hx. now subst.
  - reflexivity.
Defined.

(** X11.  On frames of one RMS the AGC gain approaches its target
    geometrically and never overshoots.  Let every block have the RMS
    [c > 1e-6], let [t] be the target gain [agc_target_rms / c] clamped to
    [[agc_min_gain, agc_max_gain]], and let attack and release be in
    [[0, 1]].  After [n] callbacks from the initial gain 1 the distance to
    the target is [(1 - agc_attack) ^ n] times the initial one when the
    gain starts below the target, [(1 - agc_release) ^ n] times when it
    starts above. *)
Theorem agc_gain_converges_geometrically cfg c blocks :
  (1 <= n_bands cfg)%nat ->
  0 <= agc_attack cfg <= 1 -> 0 <= agc_release cfg <= 1 ->
  1e-6 < c ->
  Forall (fun b => frame_rms (fst b) = c) blocks ->
  let t := Rmax (Rmin (agc_target_rms cfg / c) (agc_max_gain cfg)) (agc_min_gain cfg) in
  let g := agc_gain (W_STATE (run_callbacks cfg (World_init cfg) blocks)) in
  (1 <= t -> t - g = (1 - agc_attack cfg) ^ length blocks * (t - 1)) /\
  (t <= 1 -> g - t = (1 - agc_release cfg) ^ length blocks * (1 - t)).
Proof.
  intros Hn Ha Hr Hc Hb t g.
  exact (run_callbacks_gain_geometric cfg c blocks Hn Ha Hr Hc Hb (World_init cfg)).
Qed.

Lemma agc_gain_converges_geometrically_witness :
  let blocks := [(Samples.full_scale_block, 1); (Samples.full_scale_block, 2)] in
  let t := Rmax (Rmin (agc_target_rms CONFIG / 1) (agc_max_gain CONFIG))
                (agc_min_gain CONFIG) in
  let g := agc_gain (W_STATE (run_callbacks CONFIG (World_init CONFIG) blocks)) in
  (1 <= t -> t - g = (1 - agc_attack CONFIG) ^ length blocks * (t - 1)) /\
  (t <= 1 -> g - t = (1 - agc_release CONFIG) ^ length blocks * (1 - t)).
Proof.
  apply (agc_gain_converges_geometrically CONFIG 1
           [(Samples.full_scale_block, 1); (Samples.full_scale_block, 2)]).
  - simpl. lia.
  - simpl. lra.
  - simpl. lra.
  - lra.
  - repeat constructor; exact frame_rms_full_scale.
Defined.

Lemma short_block_poisons_levels_at cfg before indata now after :
  let bins := (length (to_mono indata) / 2)%nat in
  (0 < bins < n_bands cfg - 1)%nat ->
  nth_error
    (levels_smooth
       (W_STATE (run_callbacks cfg (World_init cfg)
                   (before ++ (indata, now) :: after))))
    bins = Some NaN.
Proof.
  intros bins Hb.
  assert (Hn : (1 <= n_bands cfg)%nat) by lia.
  rewrite run_callbacks_app by exact Hn. cbn [run_callbacks].
  set (w := run_callbacks cfg (World_init cfg) before).
  assert (Hl : length (levels_smooth (W_STATE w)) = n_bands cfg).
  { apply run_callbacks_levels_length; [exact Hn | apply length_zeros]. }
  pose proof (audio_callback_poison cfg w indata now Hb Hl) as Hp.
  destruct (audio_callback_levels cfg w indata now Hn) as (_ & _ & _ & Hok & _).
  destruct (audio_callback cfg w indata now) as [w' r]. cbn [fst snd] in *. subst r.
  apply run_callbacks_keeps_nan; (lia || exact Hp).
Qed.

(** X12.  One short block spoils a level for good.  When a block has at
    least one spectrum bin besides DC but fewer than [N - 1], the callback
    on it stores NaN as the level of band [bins], and NaN it stays
    whatever blocks come after: in the state reached from the initial one
    by any blocks, this block and any further blocks, the level of band
    [bins] is NaN. *)
Theorem short_block_poisons_levels cfg before indata now after :
  let bins := (length (to_mono indata) / 2)%nat in
  (0 < bins < n_bands cfg - 1)%nat ->
  nth_error
    (levels_smooth
       (W_STATE (run_callbacks cfg (World_init cfg)
                   (before ++ (indata, now) :: after))))
    bins = Some NaN.
Proof. apply short_block_poisons_levels_at. Qed.

Lemma short_block_poisons_levels_witness :
  nth_error
    (levels_smooth
       (W_STATE (run_callbacks CONFIG (World_init CONFIG)
                   ([(ramp_block, 1)] ++ (short_block, 2) :: [(ramp_block, 3)]))))
    (length (to_mono short_block) / 2) = Some NaN.
Proof.
  apply (short_block_poisons_levels CONFIG [(ramp_block, 1)] short_block 2
           [(ramp_block, 3)]).
  simpl. lia.
Defined.

End AudioThreadFacts.

(** ** The read loop of the metadata reader *)

Section FindFacts.

Lemma find_None_startswith sub s i :
  find sub s = None -> startswith sub (skipn i s) = false.
Proof.
  intros H. apply (find_None_skipn _ _ i) in H.
  destruct (startswith sub (skipn i s)) eqn:E; [|reflexivity].
  apply find_startswith in E. congruence.
Qed.

Lemma find_Some_first sub s p i :
  find sub s = Some p -> (i < p)%nat -> startswith sub (skipn i s) = false.
Proof.
  revert p i. induction s as [|c s IH]; intros p i H Hi.
  - simpl in H. destruct (startswith sub []); [injection H as <-; lia | discriminate].
  - cbn [find] in H. destruct (startswith sub (c :: s)) eqn:E.
    + injection H as <-. lia.
    + destruct (find sub s) as [j|] eqn:F; [|discriminate].
      injection H as <-. destruct i as [|i]; [exact E|].
      simpl. apply (IH j); [reflexivity | lia].
Qed.

(** A prefix in which no occurrence begins only shifts the result. *)
Lemma find_skip_prefix sub x y :
  (forall i, (i < length x)%nat -> startswith sub (skipn i (x ++ y)) = false) ->
  find sub (x ++ y) = option_map (Nat.add (length x)) (find sub y).
Proof.
  induction x as [|c x IH]; intros H.
  - simpl. destruct (find sub y); reflexivity.
  - pose proof (H 0%nat ltac:(simpl; lia)) as E0. cbn [skipn] in E0.
    change ((c :: x) ++ y) with (c :: (x ++ y)) in *. cbn [find].
    rewrite E0, IH.
    + destruct (find sub y); reflexivity.
    + intros i Hi. apply (H (S i)). simpl. lia.
Qed.

Lemma find_from_eq sub s start :
  (start <= length s)%nat ->
  find_from sub s start = option_map (Nat.add start) (find sub (skipn start s)).
Proof.
  intros H. unfold find_from.
  destruct (length s <? start)%nat eqn:E; [apply Nat.ltb_lt in E; lia | reflexivity].
Qed.

Lemma find_from_Some_bound sub s start stop :
  find_from sub s start = Some stop ->
  (start <= stop /\ stop + length sub <= length s)%nat.
Proof.
  unfold find_from. destruct (length s <? start)%nat eqn:E; [discriminate|].
  apply Nat.ltb_ge in E.
  destruct (find sub (skipn start s)) as [j|] eqn:F; [|discriminate].
  intros H. injection H as <-. apply find_Some_bound in F.
  rewrite length_skipn in F. lia.
Qed.

Lemma find_from_app_Some sub a b start stop :
  find_from sub a start = Some stop -> find_from sub (a ++ b) start = Some stop.
Proof.
  intros H. pose proof (find_from_Some_bound _ _ _ _ H) as [H1 H2].
  unfold find_from in *.
  destruct (length a <? start)%nat eqn:E; [discriminate|]. apply Nat.ltb_ge in E.
  replace (length (a ++ b) <? start)%nat with false
    by (symmetry; apply Nat.ltb_ge; rewrite length_app; lia).
  rewrite skipn_app. replace (start - length a)%nat with 0%nat by lia.
  cbn [skipn].
  destruct (find sub (skipn start a)) as [j|] eqn:F; [|discriminate].
  now rewrite (find_app_Some _ _ _ _ F).
Qed.

Lemma slice_app_l {A} (a b : list A) start stop :
  (stop <= length a)%nat -> Np.slice (a ++ b) start stop = Np.slice a start stop.
Proof.
  intros H. unfold Np.slice. rewrite skipn_app, firstn_app, length_skipn.
  replace (stop - start - (length a - start))%nat with 0%nat by lia.
  cbn [firstn]. apply app_nil_r.
Qed.

Lemma skipn_app_l {A} (a b : list A) n :
  (n <= length a)%nat -> skipn n (a ++ b) = skipn n a ++ b.
Proof.
  intros H. rewrite skipn_app. replace (n - length a)%nat with 0%nat by lia.
  reflexivity.
Qed.

Lemma last_chars_app n x y :
  (n <= length y)%nat -> last_chars n (x ++ y) = last_chars n y.
Proof.
  intros H. unfold last_chars. rewrite length_app, skipn_app.
  rewrite skipn_all2 by lia. cbn [app]. f_equal. lia.
Qed.

End FindFacts.

Section ReaderLoopFacts.
Variable b64decode : str -> result bytes.
Variable decode_utf8 : bytes -> str.

Local Abbreviation handle := (handle_item_xml b64decode decode_utf8).
Local Abbreviation items := (process_items b64decode decode_utf8).
Local Abbreviation loop := (read_loop b64decode decode_utf8).
Local Abbreviation track := (get_track b64decode decode_utf8).
Local Abbreviation carry := (carries b64decode).
Local Abbreviation text := (text_of decode_utf8).

Lemma set_buffer_set_buffer r a b : set_buffer (set_buffer r a) b = set_buffer r b.
Proof. reflexivity. Qed.

Lemma set_buffer_buffer r : set_buffer r (buffer r) = r.
Proof. destruct r; reflexivity. Qed.

(** The handler does not look at the buffer. *)
Lemma handle_item_xml_set_buffer r b now item :
  handle (set_buffer r b) now item =
  match handle r now item with
  | Ok r' => Ok (set_buffer r' b)
  | Raise e => Raise e
  end.
Proof.
  unfold handle_item_xml.
  destruct (RE_PIPE_TYPE item); [|reflexivity].
  destruct (RE_PIPE_CODE item); [|reflexivity].
  destruct (RE_PIPE_DATA item); [|reflexivity].
  destruct (decode_type_code _ _) as [[t c]|e].
  - destruct (b64decode _); [|reflexivity].
    destruct (_ && _); [reflexivity|].
    destruct (_ && _); reflexivity.
  - destruct (is_ValueError e); reflexivity.
Qed.

(** What one handled item leaves of the reader's track. *)
Lemma handle_item_xml_cases r now item r' :
  handle r now item = Ok r' ->
  r' = r \/ (exists v, r' = set_artist r v now) \/ (exists v, r' = set_title r v now).
Proof.
  unfold handle_item_xml.
  destruct (RE_PIPE_TYPE item); [|intros H; injection H as <-; now left].
  destruct (RE_PIPE_CODE item); [|intros H; injection H as <-; now left].
  destruct (RE_PIPE_DATA item); [|intros H; injection H as <-; now left].
  destruct (decode_type_code _ _) as [[t c]|e].
  - destruct (b64decode _); [|intros H; injection H as <-; now left].
    destruct (_ && _); [intros H; injection H as <-; right; left; eauto|].
    destruct (_ && _); intros H; injection H as <-; [right; right; eauto | now left].
  - destruct (is_ValueError e); [intros H; injection H as <-; now left | discriminate].
Qed.

(** Induction along the turns of the item loop. *)
Lemma process_items_ind now_at (P : nat -> Reader -> Reader * result nat -> Prop) :
  (forall k r,
     find ITEM_START (buffer r) = None ->
     P k r (set_buffer r (last_chars 1024 (buffer r)), Ok k)) ->
  (forall k r start,
     find ITEM_START (buffer r) = Some start ->
     find_from ITEM_END (buffer r) start = None ->
     P k r (if (0 <? start)%nat then set_buffer r (skipn start (buffer r)) else r, Ok k)) ->
  (forall k r start stop r',
     find ITEM_START (buffer r) = Some start ->
     find_from ITEM_END (buffer r) start = Some stop ->
     handle r (now_at k) (Np.slice (buffer r) start (stop + 7)) = Ok r' ->
     P (S k) (set_buffer r' (skipn (stop + 7) (buffer r)))
       (items now_at (S k) (set_buffer r' (skipn (stop + 7) (buffer r)))) ->
     P k r (items now_at (S k) (set_buffer r' (skipn (stop + 7) (buffer r))))) ->
  forall k r, P k r (items now_at k r).
Proof.
  intros H1 H2 H3 k r.
  remember (length (buffer r)) as n eqn:Hn. revert k r Hn.
  induction n as [n IH] using lt_wf_ind. intros k r Hn.
  rewrite process_items_eq.
  destruct (find ITEM_START (buffer r)) as [start|] eqn:Es; [|now apply H1].
  destruct (find_from ITEM_END (buffer r) start) as [stop|] eqn:Ee; [|now apply H2].
  change (length ITEM_END) with 7%nat.
  rewrite handle_item_xml_set_buffer.
  destruct (handle_item_xml_total b64decode decode_utf8 r (now_at k)
              (Np.slice (buffer r) start (stop + 7))) as (r' & Hr' & Hb & _).
  rewrite Hr'.
  apply (H3 k r start stop r' Es Ee Hr').
  apply (IH (length (skipn (stop + 7) (buffer r)))); [|reflexivity].
  subst n. rewrite length_skipn.
  apply find_from_Some_bound in Ee. change (length ITEM_END) with 7%nat in Ee. lia.
Qed.

(** The item loop always returns. *)
Lemma process_items_total now_at k r :
  exists r' k', items now_at k r = (r', Ok k') /\ (k <= k')%nat.
Proof.
  apply (process_items_ind now_at
           (fun k _ out => exists r' k', out = (r', Ok k') /\ (k <= k')%nat)).
  - intros; eauto.
  - intros; eauto.
  - intros k0 r0 start stop r' _ _ _ (r1 & k1 & E & Hk). rewrite E. exists r1, k1.
    split; [reflexivity | lia].
Qed.

(** After the item loop the buffer holds no complete item: it has no start
    marker (and then at most 1024 characters), or it begins with the only
    start marker there is a use for and has no end marker after it. *)
Lemma process_items_buffer now_at k r :
  let b := buffer (fst (items now_at k r)) in
  (find ITEM_START b = None /\ (length b <= 1024)%nat) \/
  (find ITEM_START b = Some 0%nat /\ find ITEM_END b = None).
Proof.
  apply (process_items_ind now_at
           (fun _ _ out =>
              let b := buffer (fst out) in
              (find ITEM_START b = None /\ (length b <= 1024)%nat) \/
              (find ITEM_START b = Some 0%nat /\ find ITEM_END b = None))).
  - intros k0 r0 H. left. cbn [fst buffer set_buffer]. split.
    + unfold last_chars. now apply find_None_skipn.
    + apply length_last_chars.
  - intros k0 r0 start Hs He. right.
    assert (Hb : buffer (if (0 <? start)%nat
                         then set_buffer r0 (skipn start (buffer r0)) else r0)
                 = skipn start (buffer r0)).
    { destruct start; reflexivity. }
    cbn [fst]. cbv zeta. rewrite Hb.
    pose proof (find_Some_bound _ _ _ Hs) as Hlen.
    rewrite find_from_eq in He by lia.
    destruct (find ITEM_END (skipn start (buffer r0))); [discriminate|].
    split; [|reflexivity].
    apply find_Some in Hs as (pre & post & E & Hl).
    rewrite E, <- Hl, skipn_app, skipn_all, Nat.sub_diag. cbn [skipn app].
    apply find_startswith, startswith_iff. eauto.
  - intros. assumption.
Qed.

(** The reader's timestamp after the item loop is the old one or the time
    of one of the items handled. *)
Lemma process_items_last_update now_at k r :
  let out := items now_at k r in
  last_update (fst out) = last_update r \/
  exists j k', snd out = Ok k' /\ (k <= j < k')%nat /\ last_update (fst out) = now_at j.
Proof.
  apply (process_items_ind now_at
           (fun k r out =>
              last_update (fst out) = last_update r \/
              exists j k', snd out = Ok k' /\ (k <= j < k')%nat /\
                           last_update (fst out) = now_at j)).
  - intros; now left.
  - intros k0 r0 start _ _. left. destruct (0 <? start)%nat; reflexivity.
  - intros k0 r0 start stop r' _ _ Hh IH.
    destruct (process_items_total now_at (S k0)
                (set_buffer r' (skipn (stop + 7) (buffer r0)))) as (r1 & k1 & E & Hk).
    rewrite E in *. cbn [fst snd] in *.
    destruct IH as [IH|(j & k' & Hk' & Hj & IH)].
    + cbn [last_update set_buffer] in IH.
      destruct (handle_item_xml_cases _ _ _ _ Hh) as [->|[[v ->]|[v ->]]].
      * now left.
      * right. exists k0, k1. cbn [last_update set_artist] in IH. repeat split; [lia|lia|exact IH].
      * right. exists k0, k1. cbn [last_update set_title] in IH. repeat split; [lia|lia|exact IH].
    + right. exists j, k'. repeat split; [exact Hk' | lia | lia | exact IH].
Qed.

(** A prefix of the buffer in which no start marker begins is junk. *)
Lemma process_items_skip_junk now_at k r x y :
  (forall i, (i < length x)%nat -> startswith ITEM_START (skipn i (x ++ y)) = false) ->
  (find ITEM_START y = None -> x = [] \/ (1024 <= length y)%nat) ->
  items now_at k (set_buffer r (x ++ y)) = items now_at k (set_buffer r y).
Proof.
  intros Hx Hy.
  destruct x as [|c x']; [reflexivity|]. set (x := c :: x') in *.
  assert (Hxl : (0 < length x)%nat) by (simpl; lia).
  rewrite (process_items_eq _ _ now_at k (set_buffer r (x ++ y))).
  rewrite (process_items_eq _ _ now_at k (set_buffer r y)).
  cbn [buffer set_buffer]. rewrite (find_skip_prefix _ _ _ Hx).
  assert (Hsk : forall n, skipn (length x + n) (x ++ y) = skipn n y).
  { intros n. rewrite skipn_app, skipn_all2 by lia. cbn [app]. f_equal. lia. }
  destruct (find ITEM_START y) as [p|] eqn:Ep; cbn [option_map].
  - pose proof (find_Some_bound _ _ _ Ep) as Hp.
    rewrite !find_from_eq by (rewrite ?length_app; lia).
    rewrite Hsk.
    destruct (find ITEM_END (skipn p y)) as [q|] eqn:Eq; cbn [option_map].
    + pose proof (find_Some_bound _ _ _ Eq) as Hq. rewrite length_skipn in Hq.
      change (length ITEM_END) with 7%nat in *.
      rewrite !set_buffer_set_buffer.
      unfold Np.slice.
      replace (length x + p + q + 7)%nat with (length x + (p + q + 7))%nat by lia.
      rewrite !Hsk.
      replace (length x + (p + q + 7) - (length x + p))%nat with (p + q + 7 - p)%nat by lia.
      rewrite !handle_item_xml_set_buffer.
      destruct (handle r (now_at k) _); reflexivity.
    + replace (0 <? length x + p)%nat with true by (symmetry; apply Nat.ltb_lt; lia).
      destruct p; reflexivity.
  - rewrite !set_buffer_set_buffer. destruct (Hy eq_refl) as [E|E]; [discriminate|].
    now rewrite last_chars_app.
Qed.

(** Text appended after the item loop has run gives what the loop gives on
    the whole text at once. *)
Lemma process_items_append now_at b k r :
  match items now_at k r with
  | (r1, Ok k1) =>
      items now_at k1 (set_buffer r1 (buffer r1 ++ b)) =
      items now_at k (set_buffer r (buffer r ++ b))
  | (_, Raise _) => True
  end.
Proof.
  apply (process_items_ind now_at
           (fun k r out =>
              match out with
              | (r1, Ok k1) =>
                  items now_at k1 (set_buffer r1 (buffer r1 ++ b)) =
                  items now_at k (set_buffer r (buffer r ++ b))
              | (_, Raise _) => True
              end)).
  - intros k0 r0 H. cbn [buffer set_buffer]. rewrite set_buffer_set_buffer.
    unfold last_chars.
    replace (buffer r0 ++ b)
      with (firstn (length (buffer r0) - 1024) (buffer r0) ++
            (skipn (length (buffer r0) - 1024) (buffer r0) ++ b))
      by (now rewrite app_assoc, firstn_skipn).
    symmetry. apply process_items_skip_junk.
    + intros i Hi. rewrite app_assoc, firstn_skipn.
      rewrite length_firstn in Hi.
      rewrite skipn_app_l by lia.
      rewrite startswith_app.
      * now apply find_None_startswith.
      * rewrite length_skipn. change (length ITEM_START) with 6%nat. lia.
    + intros _. destruct (Nat.le_gt_cases (length (buffer r0)) 1024) as [L|L].
      * left. replace (length (buffer r0) - 1024)%nat with 0%nat by lia. reflexivity.
      * right. rewrite length_app, length_skipn. lia.
  - intros k0 r0 start Hs He.
    assert (E : set_buffer (if (0 <? start)%nat
                            then set_buffer r0 (skipn start (buffer r0)) else r0)
                  (buffer (if (0 <? start)%nat
                           then set_buffer r0 (skipn start (buffer r0)) else r0) ++ b)
                = set_buffer r0 (skipn start (buffer r0) ++ b)).
    { destruct start; reflexivity. }
    rewrite E.
    pose proof (find_Some_bound _ _ _ Hs) as Hlen.
    replace (buffer r0 ++ b)
      with (firstn start (buffer r0) ++ (skipn start (buffer r0) ++ b))
      by (now rewrite app_assoc, firstn_skipn).
    symmetry. apply process_items_skip_junk.
    + intros i Hi. rewrite app_assoc, firstn_skipn.
      rewrite length_firstn in Hi.
      apply (find_Some_first _ _ start); [|lia].
      now apply find_app_Some.
    + intros Hn. exfalso.
      apply find_Some in Hs as (pre & post & Eb & Hl).
      rewrite Eb, <- Hl, skipn_app, skipn_all, Nat.sub_diag in Hn. cbn [skipn app] in Hn.
      rewrite <- app_assoc in Hn.
      exact (find_occurrence ITEM_START [] (post ++ b) Hn).
  - intros k0 r0 start stop r' Hs He Hh IH.
    destruct (items now_at (S k0) (set_buffer r' (skipn (stop + 7) (buffer r0))))
      as [r1 [k1|e]]; [|exact I].
    rewrite IH. cbn [buffer set_buffer]. rewrite set_buffer_set_buffer.
    rewrite (process_items_eq _ _ now_at k0 (set_buffer r0 (buffer r0 ++ b))).
    cbn [buffer set_buffer].
    rewrite (find_app_Some _ _ _ _ Hs), (find_from_app_Some _ _ _ _ _ He).
    pose proof (find_from_Some_bound _ _ _ _ He) as [Hb1 Hb2].
    change (length ITEM_END) with 7%nat in *.
    rewrite set_buffer_set_buffer, slice_app_l, skipn_app_l by lia.
    rewrite handle_item_xml_set_buffer, Hh. reflexivity.
Qed.


Lemma handle_all_set_buffer its : forall r b,
  handle_all b64decode decode_utf8 (set_buffer r b) its =
  set_buffer (handle_all b64decode decode_utf8 r its) b.
Proof.
  induction its as [|[now item] rest IH]; intros r b; [reflexivity|].
  cbn [handle_all]. rewrite handle_item_xml_set_buffer.
  destruct (handle r now item) as [r'|e]; [apply IH | reflexivity].
Qed.

Lemma process_items_framed_list now_at tail (Ht : find ITEM_START tail = None) its :
  forall k r,
  Forall framed its ->
  items now_at k (set_buffer r (concat its ++ tail)) =
  (set_buffer (handle_all b64decode decode_utf8 r
                 (combine (map now_at (seq k (length its))) its))
              (last_chars 1024 tail),
   Ok (k + length its)%nat).
Proof.
  induction its as [|item rest IH]; intros k r Hf.
  - cbn [concat app length seq map combine handle_all].
    rewrite process_items_no_start by exact Ht.
    rewrite Nat.add_0_r. reflexivity.
  - inversion Hf as [|? ? Hi Hr]; subst.
    cbn [concat length seq map combine handle_all].
    rewrite (process_items_framed _ _ now_at k _ item (concat rest ++ tail))
      by (exact Hi || (cbn [buffer set_buffer]; now rewrite <- app_assoc)).
    rewrite set_buffer_set_buffer, handle_item_xml_set_buffer.
    destruct (handle_item_xml_total b64decode decode_utf8 r (now_at k) item)
      as (r' & Hr' & _).
    rewrite Hr'. rewrite (IH (S k) r' Hr).
    f_equal. f_equal. lia.
Qed.

Lemma read_loop_prefix now_at evs1 evs2 :
  (forall k r, loop now_at k r evs1 = loop now_at k r evs2) ->
  forall pre k r, loop now_at k r (pre ++ evs1) = loop now_at k r (pre ++ evs2).
Proof.
  intros H. induction pre as [|[[|b d]|] pre IH]; intros k r; cbn [app read_loop];
    try reflexivity; [apply H|].
  destruct (items now_at k _) as [r' [k'|e]]; [apply IH | reflexivity].
Qed.

Lemma read_loop_split now_at k r d1 d2 d rest :
  d1 <> [] -> d2 <> [] -> d <> [] ->
  decode_utf8 d = decode_utf8 d1 ++ decode_utf8 d2 ->
  loop now_at k r (Chunk d1 :: Chunk d2 :: rest) = loop now_at k r (Chunk d :: rest).
Proof.
  intros H1 H2 H3 Hd.
  destruct d1 as [|a1 d1]; [congruence|].
  destruct d2 as [|a2 d2]; [congruence|].
  destruct d as [|a d]; [congruence|].
  cbn [read_loop]. rewrite Hd, app_assoc.
  pose proof (process_items_append now_at (decode_utf8 (a2 :: d2)) k
                (set_buffer r (buffer r ++ decode_utf8 (a1 :: d1)))) as Ha.
  destruct (process_items_total now_at k
              (set_buffer r (buffer r ++ decode_utf8 (a1 :: d1)))) as (r1 & k1 & E & _).
  rewrite E in *. cbn [buffer set_buffer] in Ha. rewrite set_buffer_set_buffer in Ha.
  rewrite Ha. reflexivity.
Qed.

Lemma read_loop_last_update now_at
    (Hmono : forall i j, (i <= j)%nat -> (now_at i <= now_at j)%R) evs :
  forall k r,
  (last_update r <= now_at k)%R ->
  (last_update r <= last_update (loop now_at k r evs))%R.
Proof.
  induction evs as [|[[|b d]|] evs IH]; intros k r Hr; cbn [read_loop];
    try (cbn; lra).
  pose proof (process_items_last_update now_at k
                (set_buffer r (buffer r ++ decode_utf8 (b :: d)))) as Hl.
  destruct (process_items_total now_at k
              (set_buffer r (buffer r ++ decode_utf8 (b :: d)))) as (r1 & k1 & E & Hk).
  rewrite E in *. cbn [fst snd last_update set_buffer] in Hl.
  pose proof (Hmono k k1 Hk) as Hkk.
  destruct Hl as [Hl|(j & k' & Ek & Hj & Hl)].
  - apply Rle_trans with (last_update r1); [rewrite Hl; lra|].
    apply IH. rewrite Hl. lra.
  - injection Ek as <-.
    pose proof (Hmono k j ltac:(lia)). pose proof (Hmono j k1 ltac:(lia)).
    apply Rle_trans with (last_update r1); [rewrite Hl; lra|].
    apply IH. rewrite Hl. lra.
Qed.

Lemma read_loop_buffer_invariant now_at evs : forall k r,
  let inv b :=
    (find ITEM_START b = None /\ (length b <= 1024)%nat) \/
    (find ITEM_START b = Some 0%nat /\ find ITEM_END b = None) in
  inv (buffer r) -> inv (buffer (loop now_at k r evs)).
Proof.
  induction evs as [|[[|b d]|] evs IH]; intros k r inv Hr; cbn [read_loop];
    try exact Hr.
  pose proof (process_items_buffer now_at k
                (set_buffer r (buffer r ++ decode_utf8 (b :: d)))) as Hb.
  destruct (process_items_total now_at k
              (set_buffer r (buffer r ++ decode_utf8 (b :: d)))) as (r1 & k1 & E & Hk).
  rewrite E in *. cbn [fst] in Hb. apply IH. exact Hb.
Qed.

Lemma read_loop_stops now_at pre ev post :
  ev = Fault \/ ev = Chunk [] ->
  forall k r,
  loop now_at k r (pre ++ ev :: post) = close_pipe (loop now_at k r pre).
Proof.
  intros Hev. induction pre as [|[[|b d]|] pre IH]; intros k r; cbn [app read_loop];
    try reflexivity.
  - destruct Hev as [->| ->]; reflexivity.
  - destruct (items now_at k _) as [r' [k'|e]]; [apply IH | reflexivity].
Qed.


(** X13.  Chunk boundaries do not matter.  Whether the pipe delivers a
    piece of text in one read or cut into two, wherever the cut falls
    (inside an item, a marker, or the junk between items), [get_track()]
    leaves the same reader and returns the same tuple.  The cut is one of
    the text: the decoded single chunk is the concatenation of the two
    decoded pieces, none of the reads being empty. *)
Theorem chunk_boundaries_do_not_matter env1 env2 r pre d1 d2 d post :
  can_open env1 = can_open env2 ->
  now_at env1 = now_at env2 ->
  events env1 = pre ++ Chunk d1 :: Chunk d2 :: post ->
  events env2 = pre ++ Chunk d :: post ->
  d1 <> [] -> d2 <> [] -> d <> [] ->
  decode_utf8 d = decode_utf8 d1 ++ decode_utf8 d2 ->
  get_track b64decode decode_utf8 env1 r = get_track b64decode decode_utf8 env2 r.
Proof.
  intros Hc Hn E1 E2 H1 H2 H3 Hd.
  unfold get_track, read_chunks, ensure_pipe.
  rewrite Hc, Hn, E1, E2.
  assert (H : forall r0, loop (now_at env2) 0 r0 (pre ++ Chunk d1 :: Chunk d2 :: post)
                         = loop (now_at env2) 0 r0 (pre ++ Chunk d :: post)).
  { intros r0. apply read_loop_prefix. intros k r1. now apply read_loop_split. }
  destruct (pipe r); [now rewrite H|].
  destruct (can_open env2); [now rewrite H | reflexivity].
Qed.

(** X14.  The reader never sits on a complete item.  After any sequence of
    [get_track()] calls on a new reader, whatever the pipe delivered, the
    buffer either holds no start marker, and then at most 1024 characters,
    or begins with a start marker and holds no end marker. *)
Theorem buffer_holds_no_complete_item path envs :
  let r := fold_left (fun r env => fst (get_track b64decode decode_utf8 env r))
                     envs (MetadataReader path) in
  (find ITEM_START (buffer r) = None /\ (length (buffer r) <= 1024)%nat) \/
  (find ITEM_START (buffer r) = Some 0%nat /\ find ITEM_END (buffer r) = None).
Proof.
  cbv zeta.
  assert (H : forall r0,
             (find ITEM_START (buffer r0) = None /\ (length (buffer r0) <= 1024)%nat) \/
             (find ITEM_START (buffer r0) = Some 0%nat /\ find ITEM_END (buffer r0) = None) ->
             let r := fold_left (fun r env => fst (track env r)) envs r0 in
             (find ITEM_START (buffer r) = None /\ (length (buffer r) <= 1024)%nat) \/
             (find ITEM_START (buffer r) = Some 0%nat /\ find ITEM_END (buffer r) = None)).
  { induction envs as [|env envs IH]; intros r0 H0; [exact H0|].
    cbn [fold_left]. apply IH. unfold get_track, read_chunks, ensure_pipe. cbn [fst].
    destruct (pipe r0); [now apply read_loop_buffer_invariant|].
    destruct (can_open env); [now apply read_loop_buffer_invariant | exact H0]. }
  apply H. left. split; [reflexivity | cbn; lia].
Qed.

(** X15.  The timestamp of the track never goes back.  When the clock
    does not run backwards during a call of [get_track()] and the stored
    [last_update] is not ahead of it, [last_update] after the call is at least
    what it was before the call. *)
Theorem last_update_never_decreases env r :
  (forall i j, (i <= j)%nat -> (now_at env i <= now_at env j)%R) ->
  (last_update r <= now_at env 0)%R ->
  (last_update r <= last_update (fst (get_track b64decode decode_utf8 env r)))%R.
Proof.
  intros Hm H0. unfold get_track, read_chunks, ensure_pipe. cbn [fst].
  destruct (pipe r).
  - now apply read_loop_last_update.
  - destruct (can_open env); [|cbn; lra].
    now apply (read_loop_last_update (now_at env) Hm (events env) 0%nat (set_pipe r true)).
Qed.

(** X16.  A read that holds several complete items hands them to the
    handler one by one, in the order of arrival.  When, on an open pipe
    and an empty buffer, one chunk decodes to a sequence of complete items
    followed by text without a start marker, [_read_chunks] leaves the
    reader that handling the items in that order leaves, item [i] at the
    [i]-th reading of the clock, with at most the last 1024 characters of
    the rest as its buffer. *)
Theorem items_of_a_chunk_handled_in_order env r data its tail :
  pipe r = true ->
  buffer r = [] ->
  events env = [Chunk data] ->
  data <> [] ->
  decode_utf8 data = concat its ++ tail ->
  Forall framed its ->
  find ITEM_START tail = None ->
  read_chunks b64decode decode_utf8 env r =
  set_buffer
    (handle_all b64decode decode_utf8 r
       (combine (map (now_at env) (seq 0 (length its))) its))
    (last_chars 1024 tail).
Proof.
  intros Hp Hb He Hd Ht Hf Htl. unfold read_chunks, ensure_pipe. rewrite Hp, He.
  destruct data as [|b d]; [congruence|]. cbn [read_loop].
  rewrite Ht, Hb. cbn [app].
  rewrite (process_items_framed_list (now_at env) tail Htl its 0%nat r Hf).
  reflexivity.
Qed.

(** X17.  The end of the stream closes the pipe and loses nothing.  When
    a read returns no data, or [select] or [os.read] raises [OSError],
    [_read_chunks] closes the pipe and stops: the reader is the one the
    reads before it leave, with the pipe closed, and what the pipe held
    after it is not read in this call. *)
Theorem end_of_stream_closes_pipe env r pre ev post :
  events env = pre ++ ev :: post ->
  ev = Fault \/ ev = Chunk [] ->
  let r' := read_chunks b64decode decode_utf8 env r in
  pipe r' = false /\
  r' = close_pipe
         (read_chunks b64decode decode_utf8
            {| can_open := can_open env; events := pre; now_at := now_at env |} r).
Proof.
  intros He Hev. unfold read_chunks, ensure_pipe. cbn [can_open events now_at].
  rewrite He.
  destruct (pipe r); [rewrite read_loop_stops by exact Hev; now split|].
  destruct (can_open env); [rewrite read_loop_stops by exact Hev; now split|].
  now split.
Qed.

(** X18.  Items other than artist and title items change nothing: an item
    that does not decode to type ["core"] with code ["asar"] or ["minm"]
    leaves the reader, and with it artist, title and timestamp, as it
    was. *)
Theorem other_items_are_ignored r now item :
  (forall p, ~ carries b64decode (lit "asar") item p) ->
  (forall p, ~ carries b64decode (lit "minm") item p) ->
  handle_item_xml b64decode decode_utf8 r now item = Ok r.
Proof. apply handle_item_xml_other. Qed.

End ReaderLoopFacts.

(** *** Sample runs of the read loop, with CPython's decoders *)

Section ReaderLoopRuns.
Local Open Scope R_scope.

Lemma chunk_boundaries_do_not_matter_witness :
  let cut := {| can_open := true;
                events := [Chunk (blit Samples.artist_item_head);
                           Chunk (blit Samples.artist_item_tail)];
                now_at := fun k => 5 + INR k |} in
  get_track Py.b64decode Py.decode_utf8_ignore cut (MetadataReader PIPE_PATH)
  = get_track Py.b64decode Py.decode_utf8_ignore (pipe_env [artist_item] 5)
      (MetadataReader PIPE_PATH).
Proof.
  apply (chunk_boundaries_do_not_matter Py.b64decode Py.decode_utf8_ignore
           _ _ _ [] (blit Samples.artist_item_head) (blit Samples.artist_item_tail)
           (blit artist_item) []).
  - reflexivity.
  - reflexivity.
  - reflexivity.
  - reflexivity.
  - vm_compute. discriminate.
  - vm_compute. discriminate.
  - vm_compute. discriminate.
  - vm_compute. reflexivity.
Defined.

Lemma last_update_never_decreases_witness :
  last_update (MetadataReader PIPE_PATH)
  <= last_update (fst (get_track Py.b64decode Py.decode_utf8_ignore
                         (pipe_env [artist_item] 5) (MetadataReader PIPE_PATH))).
Proof.
  apply (last_update_never_decreases Py.b64decode Py.decode_utf8_ignore
           (pipe_env [artist_item] 5) (MetadataReader PIPE_PATH)).
  - intros i j Hij. cbn. apply Rplus_le_compat_l, le_INR, Hij.
  - cbn. lra.
Defined.

Lemma items_of_a_chunk_handled_in_order_witness :
  let env := pipe_env [String.append artist_item title_item] 5 in
  let r := set_pipe (MetadataReader PIPE_PATH) true in
  read_chunks Py.b64decode Py.decode_utf8_ignore env r =
  set_buffer
    (handle_all Py.b64decode Py.decode_utf8_ignore r
       (combine (map (now_at env) (seq 0 2)) [lit artist_item; lit title_item]))
    (last_chars 1024 []).
Proof.
  apply (items_of_a_chunk_handled_in_order Py.b64decode Py.decode_utf8_ignore
           (pipe_env [String.append artist_item title_item] 5)
           (set_pipe (MetadataReader PIPE_PATH) true)
           (blit (String.append artist_item title_item))
           [lit artist_item; lit title_item] []).
  - reflexivity.
  - reflexivity.
  - reflexivity.
  - vm_compute. discriminate.
  - vm_compute. reflexivity.
  - repeat constructor; vm_compute; reflexivity.
  - reflexivity.
Defined.

Lemma end_of_stream_closes_pipe_witness :
  let env := {| can_open := true;
                events := [Chunk (blit artist_item); Chunk []; Chunk (blit title_item)];
                now_at := fun k => 5 + INR k |} in
  let r' := read_chunks Py.b64decode Py.decode_utf8_ignore env (MetadataReader PIPE_PATH) in
  pipe r' = false /\
  r' = close_pipe
         (read_chunks Py.b64decode Py.decode_utf8_ignore
            {| can_open := can_open env; events := [Chunk (blit artist_item)];
               now_at := now_at env |}
            (MetadataReader PIPE_PATH)).
Proof.
  apply (end_of_stream_closes_pipe Py.b64decode Py.decode_utf8_ignore
           {| can_open := true;
              events := [Chunk (blit artist_item); Chunk []; Chunk (blit title_item)];
              now_at := fun k => 5 + INR k |}
           (MetadataReader PIPE_PATH)
           [Chunk (blit artist_item)] (Chunk []) [Chunk (blit title_item)]).
  - reflexivity.
  - right. reflexivity.
Defined.

Lemma album_item_not_carried code :
  code = lit "asar" \/ code = lit "minm" ->
  forall p, ~ carries Py.b64decode code (lit Samples.album_item) p.
Proof.
  intros Hc p (gt & gc & gd & bt & bc & Ht & Hcode & Hd & Hbt & Hbc & Et & Ec & Hp).
  vm_compute in Hcode. injection Hcode as <-.
  vm_compute in Hbc. injection Hbc as <-.
  destruct Hc as [-> | ->]; vm_compute in Ec; discriminate.
Qed.

Lemma other_items_are_ignored_witness :
  handle_item_xml Py.b64decode Py.decode_utf8_ignore (MetadataReader PIPE_PATH) 5
    (lit Samples.album_item)
  = Ok (MetadataReader PIPE_PATH).
Proof.
  apply (other_items_are_ignored Py.b64decode Py.decode_utf8_ignore
           (MetadataReader PIPE_PATH) 5 (lit Samples.album_item)).
  - apply album_item_not_carried. now left.
  - apply album_item_not_carried. now right.
Defined.

End ReaderLoopRuns.

(** ** An artist item and then a title item, however they arrive *)

Section MarkerFacts.

(** Two lists that split the same text: the shorter head is a prefix of
    the longer. *)
Lemma app_eq_app_le {A} (a b c d : list A) :
  a ++ b = c ++ d -> (length a <= length c)%nat ->
  exists m, c = a ++ m /\ b = m ++ d.
Proof.
  revert c. induction a as [|x a IH]; intros c H Hl.
  - exists c. now split.
  - destruct c as [|y c]; [simpl in Hl; lia|].
    simpl in H. injection H as -> H.
    destruct (IH c H) as (m & -> & ->); [simpl in Hl; lia|].
    now exists m.
Qed.

(** No start marker begins in a text without one and runs into what
    follows, when that is empty or begins as the marker does: the marker
    has no border. *)
Lemma no_start_across pre x :
  find ITEM_START pre = None ->
  (forall c x', x = c :: x' -> c = 60%N) ->
  forall i, (i < length pre)%nat ->
  startswith ITEM_START (skipn i (pre ++ x)) = false.
Proof.
  intros Hp Hx i Hi. rewrite skipn_app_l by lia.
  pose proof (find_None_startswith _ _ i Hp) as Hs.
  assert (Hl : length (skipn i pre) = (length pre - i)%nat) by apply length_skipn.
  destruct (Nat.le_gt_cases 6 (length (skipn i pre))) as [L|L].
  - rewrite startswith_app; [exact Hs | exact L].
  - clear Hs. destruct x as [|c x'].
    + rewrite app_nil_r. destruct (startswith ITEM_START (skipn i pre)) eqn:E;
        [|reflexivity].
      apply startswith_length in E. change (length ITEM_START) with 6%nat in E. lia.
    + rewrite (Hx c x' eq_refl).
      destruct (skipn i pre) as [|c1 [|c2 [|c3 [|c4 [|c5 [|c6 l]]]]]];
        cbn [length] in *; try lia;
        unfold startswith; change ITEM_START with [60; 105; 116; 101; 109; 62]%N;
        cbn [strip_prefix app];
        repeat match goal with
               | |- context [(?a =? ?b)%N] =>
                   lazymatch b with
                   | 60%N => change (a =? b)%N with false
                   | _ => destruct (a =? b)%N
                   end
               end; reflexivity.
Qed.

(** The first start marker of junk followed by an item is that of the
    item. *)
Lemma find_start_after_junk pre item rest :
  find ITEM_START pre = None ->
  startswith ITEM_START item = true ->
  find ITEM_START (pre ++ item ++ rest) = Some (length pre).
Proof.
  intros Hp Hs.
  assert (Hi : startswith ITEM_START (item ++ rest) = true).
  { rewrite startswith_app; [exact Hs | now apply startswith_length]. }
  rewrite find_skip_prefix.
  - rewrite (find_startswith _ _ Hi). cbn [option_map]. f_equal. lia.
  - apply no_start_across; [exact Hp|].
    intros c x' E. apply startswith_iff in Hi as [t Ht]. rewrite E in Ht.
    change ITEM_START with ([60; 105; 116; 101; 109; 62]%N) in Ht.
    now injection Ht as ->.
Qed.

End MarkerFacts.

Section ReaderFeedFacts.
Variable b64decode : str -> result bytes.
Variable decode_utf8 : bytes -> str.

Local Abbreviation handle := (handle_item_xml b64decode decode_utf8).
Local Abbreviation items := (process_items b64decode decode_utf8).
Local Abbreviation loop := (read_loop b64decode decode_utf8).
Local Abbreviation track := (get_track b64decode decode_utf8).
Local Abbreviation tracks := (get_track_calls b64decode decode_utf8).
Local Abbreviation carry := (carries b64decode).
Local Abbreviation text := (text_of decode_utf8).
Local Abbreviation sent := (delivered decode_utf8).

(** The text [u] holds no complete item: the item loop handles nothing of
    it and leaves [b] in the buffer. *)
Local Abbreviation idle u b :=
  (forall q_ now_ k_, items now_ k_ (set_buffer q_ u) = (set_buffer q_ b, Ok k_)).

(** The buffer [b] stands for the text [u] it is left of: whatever
    arrives next, the item loop does on [b] what it does on [u]. *)
Local Abbreviation stands b u :=
  (forall q_ now_ k_ t_,
     items now_ k_ (set_buffer q_ (b ++ t_)) = items now_ k_ (set_buffer q_ (u ++ t_))).

Lemma idle_stands u b : idle u b -> stands b u.
Proof.
  intros H q now_at k t.
  pose proof (process_items_append b64decode decode_utf8 now_at t k (set_buffer q u)) as Ha.
  rewrite H in Ha. cbn [buffer set_buffer] in Ha.
  now rewrite !set_buffer_set_buffer in Ha.
Qed.

Lemma idle_no_start u : find ITEM_START u = None -> idle u (last_chars 1024 u).
Proof.
  intros H q now_at k.
  now rewrite process_items_no_start by exact H.
Qed.

Lemma idle_no_end u start :
  find ITEM_START u = Some start -> find_from ITEM_END u start = None ->
  idle u (skipn start u).
Proof.
  intros Hs He q now_at k. rewrite process_items_eq. cbn [buffer set_buffer].
  rewrite Hs, He. destruct start; reflexivity.
Qed.

(** A text in which no end marker follows the first start marker holds no
    complete item, and neither does any text it begins with. *)
Lemma idle_prefix x y :
  (forall start, find ITEM_START (x ++ y) = Some start ->
                 find_from ITEM_END (x ++ y) start = None) ->
  exists b, idle x b.
Proof.
  intros H. destruct (find ITEM_START x) as [start|] eqn:Es.
  - exists (skipn start x). apply idle_no_end; [exact Es|].
    destruct (find_from ITEM_END x start) as [stop|] eqn:Ee; [|reflexivity].
    apply (find_from_app_Some _ _ y) in Ee.
    rewrite (H start (find_app_Some _ _ _ _ Es)) in Ee. discriminate.
  - exists (last_chars 1024 x). now apply idle_no_start.
Qed.

(** An item that is not yet complete is not handled: of junk and an item
    after it, any text short of the whole is idle. *)
Lemma idle_before_item_end pre item x y :
  find ITEM_START pre = None -> framed item ->
  pre ++ item = x ++ y -> y <> [] ->
  exists b, idle x b.
Proof.
  intros Hp [Hs He] Hxy Hy.
  destruct (exists_last Hy) as (y1 & c & ->).
  apply (idle_prefix x y1).
  intros start Hf.
  assert (Hw : pre ++ item = (x ++ y1) ++ [c]) by now rewrite Hxy, app_assoc.
  assert (Hlen : (length (x ++ y1) < length pre + length item)%nat).
  { rewrite <- (length_app pre item), Hw, !length_app. cbn [length]. lia. }
  destruct (find_from ITEM_END (x ++ y1) start) as [stop|] eqn:Ee;
    [exfalso|reflexivity].
  pose proof (find_from_Some_bound _ _ _ _ Ee) as [B1 B2].
  apply (find_app_Some _ _ [c]) in Hf.
  apply (find_from_app_Some _ _ [c]) in Ee.
  rewrite <- Hw in Hf, Ee.
  pose proof (find_start_after_junk pre item [] Hp Hs) as Hf'.
  rewrite app_nil_r in Hf'. rewrite Hf' in Hf. injection Hf as <-.
  rewrite find_from_eq in Ee by (rewrite length_app; lia).
  rewrite skipn_app, skipn_all, Nat.sub_diag in Ee. cbn [skipn app] in Ee.
  rewrite He in Ee. cbn [option_map] in Ee. injection Ee as <-.
  apply find_Some_bound in He.
  change (length ITEM_END) with 7%nat in *. lia.
Qed.

(** Junk and a complete item after it: the item is handled, and the loop
    goes on with the rest. *)
Lemma process_items_junk_item now_at k q q' pre item rest :
  find ITEM_START pre = None -> framed item ->
  handle q (now_at k) item = Ok q' ->
  items now_at k (set_buffer q (pre ++ item ++ rest))
  = items now_at (S k) (set_buffer q' rest).
Proof.
  intros Hp Hf Hh.
  assert (Hi : startswith ITEM_START (item ++ rest) = true).
  { destruct Hf as [Hs _].
    rewrite startswith_app; [exact Hs | now apply startswith_length]. }
  rewrite process_items_skip_junk.
  - rewrite (process_items_framed b64decode decode_utf8 now_at k _ item rest)
      by (reflexivity || exact Hf).
    now rewrite set_buffer_set_buffer, handle_item_xml_set_buffer, Hh.
  - apply no_start_across; [exact Hp|].
    intros c x' E. apply startswith_iff in Hi as [t Ht]. rewrite E in Ht.
    change ITEM_START with ([60; 105; 116; 101; 109; 62]%N) in Ht.
    now injection Ht as ->.
  - intros Hn. apply find_startswith in Hi. congruence.
Qed.

(** *** One call of [get_track()] *)

(** Every read returns data: no end of stream, no [OSError]. *)
Local Abbreviation good evs :=
  (forall ev, In ev evs -> exists d, ev = Chunk d /\ d <> []).

(** However the text is cut into reads, the read loop does what the item
    loop does on the buffer and the whole text. *)
Lemma read_loop_text now_at evs : forall k r,
  good evs -> evs <> [] ->
  loop now_at k r evs = fst (items now_at k (set_buffer r (buffer r ++ text evs))).
Proof.
  induction evs as [|ev rest IH]; intros k r Hg Hn; [congruence|].
  destruct (Hg ev (or_introl eq_refl)) as (d & -> & Hd).
  destruct d as [|b d]; [congruence|]. cbn [read_loop text_of].
  pose proof (process_items_append b64decode decode_utf8 now_at (text rest) k
                (set_buffer r (buffer r ++ decode_utf8 (b :: d)))) as Ha.
  destruct (process_items_total b64decode decode_utf8 now_at k
              (set_buffer r (buffer r ++ decode_utf8 (b :: d)))) as (r1 & k1 & E & _).
  rewrite E in *. cbn [buffer set_buffer] in Ha.
  rewrite set_buffer_set_buffer, <- app_assoc in Ha.
  destruct rest as [|ev2 rest'].
  - cbn [read_loop text_of]. now rewrite app_nil_r, E.
  - rewrite IH; [now rewrite Ha | | discriminate].
    intros ev Hev. apply Hg. now right.
Qed.

(** The reader with its pipe open. *)
Lemma set_pipe_open r : pipe r = true -> set_pipe r true = r.
Proof. destruct r; cbn. now intros ->. Qed.

Lemma read_chunks_text env r u :
  pipe r = true \/ can_open env = true ->
  good (events env) ->
  stands (buffer r) u ->
  (events env = [] /\ read_chunks b64decode decode_utf8 env r = set_pipe r true) \/
  read_chunks b64decode decode_utf8 env r
  = fst (items (now_at env) 0
           (set_buffer (set_pipe r true) (u ++ text (events env)))).
Proof.
  intros Hp Hg Hu. unfold read_chunks.
  assert (He : ensure_pipe env r = (set_pipe r true, true)).
  { unfold ensure_pipe. destruct (pipe r) eqn:P; [now rewrite set_pipe_open|].
    destruct Hp as [Hp|Hp]; [discriminate|]. now rewrite Hp. }
  rewrite He. destruct (events env) as [|ev evs] eqn:E; [now left|]. right.
  rewrite read_loop_text by (exact Hg || discriminate).
  cbn [buffer set_pipe]. now rewrite Hu.
Qed.

(** A call that completes no item: the track is what it was, and the
    buffer stands for the text with what the call read. *)
Lemma read_chunks_idle_text env r u b :
  pipe r = true \/ can_open env = true ->
  good (events env) ->
  stands (buffer r) u ->
  idle (u ++ text (events env)) b ->
  let r' := read_chunks b64decode decode_utf8 env r in
  pipe r' = true /\
  last_artist r' = last_artist r /\ last_title r' = last_title r /\
  last_update r' = last_update r /\
  stands (buffer r') (u ++ text (events env)).
Proof.
  intros Hp Hg Hu Hi.
  destruct (read_chunks_text env r u Hp Hg Hu) as [[E ->]| ->].
  - rewrite E. cbn [text_of buffer set_pipe pipe last_artist last_title last_update].
    repeat split. intros q now_at k t. rewrite app_nil_r. apply Hu.
  - rewrite Hi. cbn [fst buffer set_buffer set_pipe pipe last_artist last_title last_update].
    repeat split. now apply idle_stands.
Qed.

(** *** Several calls *)

Lemma delivered_cons env calls :
  sent (env :: calls) = text (events env) ++ sent calls.
Proof. unfold delivered. cbn [flat_map]. apply text_of_app. Qed.

Lemma delivered_app a b : sent (a ++ b) = sent a ++ sent b.
Proof. unfold delivered. rewrite flat_map_app. apply text_of_app. Qed.

Lemma get_track_calls_cons env calls r :
  tracks (env :: calls) r =
  (fst (tracks calls (read_chunks b64decode decode_utf8 env r)),
   current_track (read_chunks b64decode decode_utf8 env r)
   :: snd (tracks calls (read_chunks b64decode decode_utf8 env r))).
Proof.
  cbn [get_track_calls]. unfold get_track.
  now destruct (tracks calls (read_chunks b64decode decode_utf8 env r)).
Qed.

Lemma get_track_calls_app a : forall b r,
  tracks (a ++ b) r =
  (fst (tracks b (fst (tracks a r))),
   snd (tracks a r) ++ snd (tracks b (fst (tracks a r)))).
Proof.
  induction a as [|env a IH]; intros b r.
  - cbn. now destruct (tracks b r).
  - cbn [app]. rewrite !get_track_calls_cons, IH. reflexivity.
Qed.

Lemma length_get_track_calls calls : forall r,
  length (snd (tracks calls r)) = length calls.
Proof.
  induction calls as [|env calls IH]; intros r; [reflexivity|].
  rewrite get_track_calls_cons. cbn [snd length]. now rewrite IH.
Qed.

Lemma nth_error_all_equal {A} (x : A) l :
  Forall (fun o => o = x) l ->
  forall n, (n < length l)%nat -> nth_error l n = Some x.
Proof.
  induction 1 as [|o l Ho Hl IH]; intros n Hn; [cbn in Hn; lia|].
  destruct n as [|n]; [now subst|]. cbn in *. apply IH. lia.
Qed.

(** *** The two items in a stream *)

Section TwoItems.

(** What the reader holds when the stream begins, the junk before the
    artist item, the artist item, the junk between the items, the title
    item, and what follows it. *)
Variables (b0 junk0 item1 junk1 item2 tail : str) (p1 p2 : bytes).

Hypothesis Hjunk0 : find ITEM_START (b0 ++ junk0) = None.
Hypothesis Hjunk1 : find ITEM_START junk1 = None.
Hypothesis Htail : forall start,
  find ITEM_START tail = Some start -> find_from ITEM_END tail start = None.
Hypothesis F1 : framed item1.
Hypothesis F2 : framed item2.
Hypothesis C1 : carry (lit "asar") item1 p1.
Hypothesis C2 : carry (lit "minm") item2 p2.

Lemma idle_in_first s y :
  s ++ y = junk0 ++ item1 -> y <> [] -> exists b, idle (b0 ++ s) b.
Proof.
  intros E Hy.
  apply (idle_before_item_end (b0 ++ junk0) item1 (b0 ++ s) y Hjunk0 F1); [|exact Hy].
  rewrite <- !app_assoc. f_equal. now symmetry.
Qed.

Lemma idle_in_second x y :
  x ++ y = junk1 ++ item2 -> y <> [] -> exists b, idle x b.
Proof.
  intros E Hy.
  apply (idle_before_item_end junk1 item2 x y Hjunk1 F2); [now symmetry | exact Hy].
Qed.

Lemma idle_in_tail x y : tail = x ++ y -> exists b, idle x b.
Proof. intros E. apply (idle_prefix x y). rewrite <- E. exact Htail. Qed.

Lemma first_item_handled now_at k r rest :
  items now_at k (set_buffer r (b0 ++ (junk0 ++ item1) ++ rest))
  = items now_at (S k)
      (set_buffer (set_artist r (strip (decode_utf8 p1)) (now_at k)) rest).
Proof.
  rewrite <- app_assoc, app_assoc.
  apply process_items_junk_item; [exact Hjunk0 | exact F1|].
  now apply handle_item_xml_artist.
Qed.

Lemma second_item_handled now_at k r rest :
  items now_at k (set_buffer r ((junk1 ++ item2) ++ rest))
  = items now_at (S k)
      (set_buffer (set_title r (strip (decode_utf8 p2)) (now_at k)) rest).
Proof.
  rewrite <- app_assoc.
  apply process_items_junk_item; [exact Hjunk1 | exact F2|].
  now apply handle_item_xml_title.
Qed.

End TwoItems.

(** *** The reader along the stream *)

Section Stages.

(** The buffer at the start, the text up to the end of the artist item,
    the text from there to the end of the title item, and the rest. *)
Variables (b0 W1 W2 tail artist title : str).

Hypothesis first_idle : forall s y,
  s ++ y = W1 -> y <> [] -> exists b, idle (b0 ++ s) b.
Hypothesis second_idle : forall x y,
  x ++ y = W2 -> y <> [] -> exists b, idle x b.
Hypothesis tail_idle : forall x y, tail = x ++ y -> exists b, idle x b.
Hypothesis first_handled : forall now_at k r rest,
  items now_at k (set_buffer r (b0 ++ W1 ++ rest))
  = items now_at (S k) (set_buffer (set_artist r artist (now_at k)) rest).
Hypothesis second_handled : forall now_at k r rest,
  items now_at k (set_buffer r (W2 ++ rest))
  = items now_at (S k) (set_buffer (set_title r title (now_at k)) rest).
Hypothesis artist_set : artist <> [].
Hypothesis title_set : title <> [].

(** The reader when [s] of the stream has been read: before the title item
    is complete, and after. *)
Local Abbreviation before_title r s :=
  ((lt (length s) (length W1) /\ stands (buffer r) (b0 ++ s)) \/
   (le (length W1) (length s) /\ last_artist r = Some artist /\
    stands (buffer r) (skipn (length W1) s))).

Local Abbreviation after_title T r s :=
  (le (length W1 + length W2) (length s) /\
   last_artist r = Some artist /\ last_title r = Some title /\ last_update r = T /\
   stands (buffer r) (skipn (length W1 + length W2) s)).

Lemma skipn_length_app {A} (a b : list A) : skipn (length a) (a ++ b) = b.
Proof. now rewrite skipn_app, skipn_all, Nat.sub_diag. Qed.

Lemma call_before_title env r s R :
  pipe r = true \/ can_open env = true ->
  good (events env) ->
  before_title r s ->
  s ++ text (events env) ++ R = W1 ++ W2 ++ tail ->
  (length (s ++ text (events env)) < length W1 + length W2)%nat ->
  let r' := read_chunks b64decode decode_utf8 env r in
  pipe r' = true /\ before_title r' (s ++ text (events env)).
Proof.
  intros Hp Hg Hst E Hl. set (te := text (events env)) in *.
  rewrite !length_app in Hl.
  destruct Hst as [[Hs Hu]|(Hs & Ha & Hu)].
  - destruct (Nat.lt_ge_cases (length (s ++ te)) (length W1)) as [L|L].
    + destruct (app_eq_app_le (s ++ te) R W1 (W2 ++ tail)) as (m & Em & ER);
        [now rewrite <- app_assoc | lia|].
      assert (Hm : m <> []).
      { intros ->. rewrite app_nil_r in Em. rewrite Em in L. lia. }
      destruct (first_idle (s ++ te) m (eq_sym Em) Hm) as [b Hb].
      rewrite app_assoc in Hb.
      destruct (read_chunks_idle_text env r (b0 ++ s) b Hp Hg Hu Hb)
        as (P & _ & _ & _ & Hu').
      split; [exact P|]. left. split; [exact L|]. now rewrite app_assoc.
    + destruct (app_eq_app_le W1 (W2 ++ tail) (s ++ te) R) as (m & Em & ER);
        [now rewrite <- app_assoc, E | exact L|].
      assert (Hml : (length m < length W2)%nat).
      { apply (f_equal (@length _)) in Em. rewrite !length_app in *. lia. }
      destruct (app_eq_app_le m R W2 tail) as (y & Ey & ER');
        [now symmetry | lia|].
      assert (Hy : y <> []).
      { intros ->. rewrite app_nil_r in Ey. rewrite Ey in Hml. lia. }
      destruct (second_idle m y (eq_sym Ey) Hy) as [b Hb].
      destruct (read_chunks_text env r (b0 ++ s) Hp Hg Hu) as [[E0 _]| ->].
      * exfalso. unfold te in L. rewrite E0 in L. cbn [text_of] in L.
        rewrite app_nil_r in L. lia.
      * fold te. rewrite <- app_assoc, Em.
        rewrite first_handled, Hb.
        cbn [fst pipe buffer set_buffer set_artist set_pipe last_artist].
        split; [reflexivity|]. right. split; [rewrite length_app; lia|].
        split; [reflexivity|].
        rewrite skipn_length_app. now apply idle_stands.
  - destruct (app_eq_app_le W1 (W2 ++ tail) s (te ++ R)) as (x0 & Ex & ER);
      [now rewrite E | exact Hs|].
    subst s. rewrite skipn_length_app in Hu.
    rewrite !length_app in Hl.
    destruct (app_eq_app_le (x0 ++ te) R W2 tail) as (y & Ey & ER');
      [now rewrite <- app_assoc | rewrite length_app; lia|].
    assert (Hy : y <> []).
    { intros ->. rewrite app_nil_r in Ey. rewrite Ey, length_app in Hl. lia. }
    destruct (second_idle (x0 ++ te) y (eq_sym Ey) Hy) as [b Hb].
    destruct (read_chunks_idle_text env r x0 b Hp Hg Hu Hb)
      as (P & A & _ & _ & Hu').
    split; [exact P|]. right. split; [rewrite !length_app; lia|].
    split; [now rewrite A|].
    rewrite <- app_assoc, skipn_length_app.
    exact Hu'.
Qed.

(** The call in which the title item is complete: the title is handled at
    the second reading of the clock when the artist item is complete in
    the same call, at the first when it was complete before. *)
Lemma call_completing_title env r s R :
  pipe r = true \/ can_open env = true ->
  good (events env) ->
  before_title r s ->
  s ++ text (events env) ++ R = W1 ++ W2 ++ tail ->
  (length s < length W1 + length W2 <= length (s ++ text (events env)))%nat ->
  let r' := read_chunks b64decode decode_utf8 env r in
  pipe r' = true /\
  after_title (now_at env (if (length s <? length W1)%nat then 1 else 0)%nat) r'
    (s ++ text (events env)).
Proof.
  intros Hp Hg Hst E Hl. set (te := text (events env)) in *.
  rewrite !length_app in Hl.
  destruct Hst as [[Hs Hu]|(Hs & Ha & Hu)].
  - replace (length s <? length W1)%nat with true by (symmetry; apply Nat.ltb_lt; lia).
    destruct (app_eq_app_le W1 (W2 ++ tail) (s ++ te) R) as (m & Em & ER);
      [now rewrite <- app_assoc, E | rewrite length_app; lia|].
    assert (Hml : (length W2 <= length m)%nat).
    { apply (f_equal (@length _)) in Em. rewrite !length_app in *. lia. }
    destruct (app_eq_app_le W2 tail m R) as (x & Ex & ER'); [exact ER | exact Hml|].
    destruct (tail_idle x R ER') as [b Hb].
    destruct (read_chunks_text env r (b0 ++ s) Hp Hg Hu) as [[E0 _]| ->].
    + exfalso. unfold te in Hl. rewrite E0 in Hl. cbn [text_of length] in Hl. lia.
    + fold te. rewrite <- app_assoc, Em, Ex.
      rewrite first_handled, second_handled, Hb.
      cbn [fst pipe buffer set_buffer set_artist set_title set_pipe
           last_artist last_title last_update].
      split; [reflexivity|]. split; [rewrite !length_app; lia|].
      repeat (split; [reflexivity|]).
      rewrite app_assoc, <- length_app, skipn_length_app. now apply idle_stands.
  - replace (length s <? length W1)%nat with false by (symmetry; apply Nat.ltb_ge; lia).
    destruct (app_eq_app_le W1 (W2 ++ tail) s (te ++ R)) as (x0 & Ex0 & ER);
      [now rewrite E | exact Hs|].
    subst s. rewrite skipn_length_app in Hu. rewrite !length_app in Hl.
    destruct (app_eq_app_le W2 tail (x0 ++ te) R) as (x & Ex & ER');
      [now rewrite <- app_assoc | rewrite length_app; lia|].
    destruct (tail_idle x R ER') as [b Hb].
    destruct (read_chunks_text env r x0 Hp Hg Hu) as [[E0 _]| ->].
    + exfalso. unfold te in Hl. rewrite E0 in Hl. cbn [text_of length] in Hl. lia.
    + fold te. rewrite Ex, second_handled, Hb.
      cbn [fst pipe buffer set_buffer set_artist set_title set_pipe
           last_artist last_title last_update].
      split; [reflexivity|]. split; [rewrite !length_app; lia|].
      split; [exact Ha|]. repeat (split; [reflexivity|]).
      rewrite <- app_assoc, Ex, app_assoc, <- length_app, skipn_length_app.
      now apply idle_stands.
Qed.

(** A call after that changes nothing of the track. *)
Lemma call_after_title env r s R T :
  pipe r = true \/ can_open env = true ->
  good (events env) ->
  after_title T r s ->
  s ++ text (events env) ++ R = W1 ++ W2 ++ tail ->
  let r' := read_chunks b64decode decode_utf8 env r in
  pipe r' = true /\ after_title T r' (s ++ text (events env)).
Proof.
  intros Hp Hg (Hs & Ha & Ht & Hup & Hu) E. set (te := text (events env)) in *.
  rewrite <- length_app in Hs, Hu. rewrite (app_assoc W1 W2 tail) in E.
  destruct (app_eq_app_le (W1 ++ W2) tail s (te ++ R)) as (x0 & Ex0 & ER);
    [now rewrite E | exact Hs|].
  subst s. rewrite skipn_length_app in Hu.
  destruct (tail_idle (x0 ++ te) R) as [b Hb]; [now rewrite <- app_assoc|].
  destruct (read_chunks_idle_text env r x0 b Hp Hg Hu Hb)
    as (P & A & B & C & Hu').
  split; [exact P|]. split; [rewrite !length_app; lia|].
  split; [now rewrite A|]. split; [now rewrite B|]. split; [now rewrite C|].
  rewrite <- length_app, <- app_assoc, skipn_length_app. exact Hu'.
Qed.

(** What [get_track()] returns then. *)
Lemma current_track_after_title T r s :
  after_title T r s -> current_track r = (Some artist, Some title, T).
Proof.
  intros (_ & Ha & Ht & Hup & _). unfold current_track.
  rewrite Ha, Ht, Hup. cbn [is_set or_default].
  now rewrite !truthy_nonempty by assumption.
Qed.

(** The calls before the one that completes the title item. *)
Lemma calls_before_title calls : forall r s R more,
  pipe r = true \/ (forall e, In e (calls ++ more) -> can_open e = true) ->
  (forall e, In e calls -> good (events e)) ->
  before_title r s ->
  s ++ sent calls ++ R = W1 ++ W2 ++ tail ->
  (length (s ++ sent calls) < length W1 + length W2)%nat ->
  let r' := fst (tracks calls r) in
  (pipe r' = true \/ (forall e, In e more -> can_open e = true)) /\
  before_title r' (s ++ sent calls).
Proof.
  induction calls as [|env calls IH]; intros r s R more Hp Hg Hst E Hl.
  - cbn [get_track_calls fst delivered flat_map text_of app].
    rewrite app_nil_r. split; [|exact Hst].
    destruct Hp as [Hp|Hp]; [now left | right; exact Hp].
  - rewrite delivered_cons in *. rewrite <- app_assoc in E.
    rewrite !length_app in Hl.
    destruct (call_before_title env r s (sent calls ++ R)) as [P Hst1];
      [|now apply Hg; left|exact Hst|exact E|rewrite length_app; lia|].
    { destruct Hp as [Hp|Hp]; [now left|]. right. apply Hp. now left. }
    rewrite get_track_calls_cons. cbn [fst]. rewrite app_assoc. apply (IH _ _ R).
    + now left.
    + intros e He. apply Hg. now right.
    + exact Hst1.
    + now rewrite <- app_assoc.
    + rewrite !length_app. lia.
Qed.

(** The calls after it: each returns the artist, the title and the time
    the title item was handled at. *)
Lemma calls_after_title calls : forall r s R T,
  pipe r = true \/ (forall e, In e calls -> can_open e = true) ->
  (forall e, In e calls -> good (events e)) ->
  after_title T r s ->
  s ++ sent calls ++ R = W1 ++ W2 ++ tail ->
  let out := tracks calls r in
  after_title T (fst out) (s ++ sent calls) /\
  Forall (fun o => o = (Some artist, Some title, T)) (snd out).
Proof.
  induction calls as [|env calls IH]; intros r s R T Hp Hg Hst E.
  - cbn [get_track_calls fst snd delivered flat_map text_of app].
    rewrite app_nil_r. split; [exact Hst | constructor].
  - rewrite delivered_cons in *. rewrite <- app_assoc in E.
    destruct (call_after_title env r s (sent calls ++ R) T) as [P Hst1];
      [|now apply Hg; left|exact Hst|exact E|].
    { destruct Hp as [Hp|Hp]; [now left|]. right. apply Hp. now left. }
    rewrite get_track_calls_cons. cbn [fst snd]. rewrite app_assoc.
    destruct (IH (read_chunks b64decode decode_utf8 env r)
                (s ++ text (events env)) R T) as [IH1 IH2];
      [now left | intros e He; apply Hg; now right | exact Hst1
      | now rewrite <- app_assoc |].
    split; [exact IH1|]. constructor; [|exact IH2].
    exact (current_track_after_title T _ _ Hst1).
Qed.

(** The whole stream, over any calls. *)
Lemma get_track_calls_two_items r before env after :
  buffer r = b0 -> W1 <> [] ->
  pipe r = true \/ (forall e, In e (before ++ env :: after) -> can_open e = true) ->
  (forall e, In e (before ++ env :: after) -> good (events e)) ->
  sent (before ++ env :: after) = W1 ++ W2 ++ tail ->
  (length (sent before) < length W1 + length W2
   <= length (sent (before ++ [env])))%nat ->
  let T := now_at env (if (length (sent before) <? length W1)%nat then 1 else 0)%nat in
  let out := tracks (before ++ env :: after) r in
  (forall n, (length before <= n < length (before ++ env :: after))%nat ->
     nth_error (snd out) n = Some (Some artist, Some title, T)) /\
  last_update (fst out) = T.
Proof.
  intros Hb Hw Hp Hg E Hl T out.
  rewrite delivered_app, delivered_cons in E.
  rewrite delivered_app, delivered_cons in Hl.
  cbn [delivered flat_map text_of] in Hl. rewrite app_nil_r in Hl.
  assert (H0 : before_title r (@nil N)).
  { left. split; [destruct W1; [congruence | cbn; lia]|].
    intros q now_at k t. now rewrite app_nil_r, Hb. }
  destruct (calls_before_title before r (@nil N) (text (events env) ++ sent after)
              (env :: after)) as [P Hst];
    [exact Hp | intros e He; apply Hg, in_or_app; now left | exact H0
    | exact E | exact (proj1 Hl) |].
  cbn [app] in Hst, P.
  destruct (call_completing_title env (fst (tracks before r)) (sent before)
              (sent after)) as [P1 Hst1];
    [ | apply Hg, in_or_app; right; now left | exact Hst | exact E
    | exact Hl |].
  { destruct P as [P|P]; [now left|]. right. apply P. now left. }
  fold T in Hst1.
  destruct (calls_after_title after
              (read_chunks b64decode decode_utf8 env (fst (tracks before r)))
              (sent before ++ text (events env)) [] T) as [Hst2 Hall];
    [now left | intros e He; apply Hg, in_or_app; right; now right | exact Hst1
    | now rewrite app_nil_r, <- app_assoc |].
  assert (Eout : out =
            (fst (tracks after
                    (read_chunks b64decode decode_utf8 env (fst (tracks before r)))),
             snd (tracks before r) ++
             current_track (read_chunks b64decode decode_utf8 env (fst (tracks before r)))
             :: snd (tracks after
                       (read_chunks b64decode decode_utf8 env (fst (tracks before r)))))).
  { unfold out. now rewrite get_track_calls_app, get_track_calls_cons. }
  rewrite Eout. cbn [fst snd]. split.
  - intros n Hn. rewrite length_app in Hn. cbn [length] in Hn.
    rewrite nth_error_app2 by (rewrite length_get_track_calls; lia).
    rewrite length_get_track_calls.
    apply nth_error_all_equal.
    + constructor; [exact (current_track_after_title T _ _ Hst1) | exact Hall].
    + cbn [length]. rewrite length_get_track_calls. lia.
  - now destruct Hst2 as (_ & _ & _ & H & _).
Qed.

End Stages.

(** C7 (amended).  [get_track()] returns the sentinel [(None, None, 0.0)]
    if and only if the reader, after the drain, stores neither a non-empty
    artist nor a non-empty title; it does so whenever no artist and no
    title item has been handled.  Let the pipe deliver, over any number of
    calls of [get_track()] and cut into reads in any way, a text that
    holds a complete item of type ["core"], code ["asar"] and then one of
    code ["minm"], whose payloads are not empty once decoded and stripped:
    text without a start marker may come before and between the items
    (and be left in the buffer from before), and after them any text
    without a complete item.  Then the call in which the second item is
    complete and every call after it return these two strings, with the
    time at which the second item was handled: the second reading of the
    clock in that call when the first item was complete in the same call,
    the first reading when it was complete before. *)
Theorem get_track_sentinel_or_pair :
  (forall env r,
     let out := track env r in
     snd out = (None, None, 0%R) <->
     is_set (last_artist (fst out)) = false /\
     is_set (last_title (fst out)) = false) /\
  (forall path its env,
     events env = [] ->
     (forall now item, In (now, item) its ->
        (forall p, ~ carry (lit "asar") item p) /\
        (forall p, ~ carry (lit "minm") item p)) ->
     snd (track env (handle_all b64decode decode_utf8 (MetadataReader path) its)) = (None, None, 0%R)) /\
  (forall r before env after junk0 item1 junk1 item2 tail p1 p2,
     pipe r = true \/
     (forall e, In e (before ++ env :: after) -> can_open e = true) ->
     (forall e ev, In e (before ++ env :: after) -> In ev (events e) ->
        exists d, ev = Chunk d /\ d <> []) ->
     delivered decode_utf8 (before ++ env :: after)
     = junk0 ++ item1 ++ junk1 ++ item2 ++ tail ->
     find ITEM_START (buffer r ++ junk0) = None ->
     find ITEM_START junk1 = None ->
     (forall start, find ITEM_START tail = Some start ->
                    find_from ITEM_END tail start = None) ->
     framed item1 -> framed item2 ->
     carry (lit "asar") item1 p1 ->
     carry (lit "minm") item2 p2 ->
     strip (decode_utf8 p1) <> [] ->
     strip (decode_utf8 p2) <> [] ->
     (length (delivered decode_utf8 before)
      < length (junk0 ++ item1 ++ junk1 ++ item2)
      <= length (delivered decode_utf8 (before ++ [env])))%nat ->
     let handled :=
       now_at env
         (if (length (delivered decode_utf8 before) <? length (junk0 ++ item1))%nat
          then 1%nat else 0%nat) in
     let out := get_track_calls b64decode decode_utf8 (before ++ env :: after) r in
     (forall n, (length before <= n < length (before ++ env :: after))%nat ->
        nth_error (snd out) n
        = Some (Some (strip (decode_utf8 p1)), Some (strip (decode_utf8 p2)),
                last_update (fst out))) /\
     last_update (fst out) = handled /\
     (handled <= last_update (fst out))%R).
Proof.
  split; [|split].
  - intros env r out. apply current_track_sentinel_iff.
  - intros path its env He H. unfold get_track. cbn [snd].
    rewrite read_chunks_idle by exact He.
    now rewrite handle_all_unobserved.
  - intros r before env after junk0 item1 junk1 item2 tail p1 p2
           Hp Hg E J0 J1 Htl F1 F2 C1 C2 N1 N2 Hl handled out.
    destruct (get_track_calls_two_items (buffer r) (junk0 ++ item1) (junk1 ++ item2)
                tail (strip (decode_utf8 p1)) (strip (decode_utf8 p2))
                (idle_in_first (buffer r) junk0 item1 J0 F1)
                (idle_in_second junk1 item2 J1 F2)
                (idle_in_tail tail Htl)
                (first_item_handled (buffer r) junk0 item1 p1 J0 F1 C1)
                (second_item_handled junk1 item2 p2 J1 F2 C2)
                N1 N2 r before env after) as [H1 H2].
    + reflexivity.
    + destruct F1 as [F1 _]. apply startswith_length in F1.
      change (length ITEM_START) with 6%nat in F1.
      intros H. apply (f_equal (@length _)) in H. rewrite length_app in H.
      cbn [length] in H. lia.
    + exact Hp.
    + intros e He ev Hev. now apply (Hg e ev).
    + rewrite E, <- !app_assoc. reflexivity.
    + rewrite (app_assoc junk0 item1), length_app in Hl. exact Hl.
    + fold handled in H1, H2. fold out in H1, H2.
      split; [|split; [exact H2 | rewrite H2; lra]].
      intros n Hn. rewrite H2. now apply H1.
Qed.

End ReaderFeedFacts.

(** *** A sample stream over three calls, with CPython's decoders *)

Section ReaderFeedRuns.
Local Open Scope R_scope.

(** The reader holds stale text that ends inside a start marker.  The
    first call reads a line break and the head of the artist item; the
    second the rest of it, text with an end marker of its own, the title
    item and the beginning of a third item, in two reads; the third call
    finds nothing to read. *)
Lemma get_track_sentinel_or_pair_witness :
  let r := set_buffer (MetadataReader PIPE_PATH) (lit "stale <it") in
  let first := pipe_env [String.append newline Samples.artist_item_head] 3 in
  let second :=
    pipe_env [String.append Samples.artist_item_tail "<!-- between --></item>";
              String.append title_item "<item><type>63"] 7 in
  let third := pipe_env [] 9 in
  let out := get_track_calls Py.b64decode Py.decode_utf8_ignore
               ([first] ++ second :: [third]) r in
  (forall n, (1 <= n < 3)%nat ->
     nth_error (snd out) n
     = Some (Some (strip (Py.decode_utf8_ignore (blit "Daft Punk"))),
             Some (strip (Py.decode_utf8_ignore (blit "One More Time"))),
             last_update (fst out))) /\
  last_update (fst out) = 7 + 1 /\
  7 + 1 <= last_update (fst out).
Proof.
  cbv zeta.
  refine (proj2 (proj2 (get_track_sentinel_or_pair Py.b64decode Py.decode_utf8_ignore))
            (set_buffer (MetadataReader PIPE_PATH) (lit "stale <it"))
            [pipe_env [String.append newline Samples.artist_item_head] 3]
            (pipe_env [String.append Samples.artist_item_tail "<!-- between --></item>";
                       String.append title_item "<item><type>63"] 7)
            [pipe_env [] 9]
            (lit newline) (lit artist_item) (lit "<!-- between --></item>")
            (lit title_item) (lit "<item><type>63")
            (blit "Daft Punk") (blit "One More Time")
            _ _ _ _ _ _
            (proj1 artist_item_framed) (proj2 artist_item_framed)
            artist_item_carries title_item_carries _ _ _).
  - right. intros e [<-|[<-|[<-|[]]]]; reflexivity.
  - intros e ev [<-|[<-|[<-|[]]]] Hev; cbn in Hev;
      repeat match type of Hev with
             | _ \/ _ => destruct Hev as [<-|Hev]
             | False => destruct Hev
             end;
      (eexists; split; [reflexivity | vm_compute; discriminate]).
  - vm_compute. reflexivity.
  - vm_compute. reflexivity.
  - vm_compute. reflexivity.
  - intros start H. vm_compute in H. injection H as <-. vm_compute. reflexivity.
  - vm_compute. discriminate.
  - vm_compute. discriminate.
  - split; [apply Nat.ltb_lt | apply Nat.leb_le]; vm_compute; reflexivity.
Defined.

(** The artist item in one call and the title item in the next: the title
    is the first item the second call handles. *)
Example get_track_calls_title_later :
  snd (get_track_calls Py.b64decode Py.decode_utf8_ignore
         [pipe_env [artist_item] 3; pipe_env [title_item] 7]
         (MetadataReader PIPE_PATH))
  = [(Some (lit "Daft Punk"), Some (lit "Unknown Track"), 3 + 0);
     (Some (lit "Daft Punk"), Some (lit "One More Time"), 7 + 0)].
Proof. vm_compute. reflexivity. Qed.

End ReaderFeedRuns.

(** ** The frames drawn on the LED matrix *)

Section DisplayFacts.
Import Np Audio Ambient Display.
Local Open Scope R_scope.


Lemma py_int_scaled c f :
  (0 <= c)%Z -> 0 <= f <= 1 -> (0 <= py_int (IZR c * f) <= c)%Z.
Proof.
  intros Hc Hf. apply IZR_le in Hc.
  assert (H0 : 0 <= IZR c * f) by nra.
  assert (H1 : IZR c * f <= IZR c) by nra.
  unfold py_int. destruct (Rle_dec 0 (IZR c * f)) as [_|N]; [|lra].
  destruct (base_Int_part (IZR c * f)) as [Hl Hu].
  split.
  - apply le_IZR. simpl.
    assert (-1 < IZR (Int_part (IZR c * f))) by lra.
    apply lt_IZR in H. apply IZR_le. lia.
  - apply le_IZR. lra.
Qed.

Lemma apply_brightness_valid color f :
  valid_pixel color -> 0 <= f <= 1 -> valid_pixel (apply_brightness color f).
Proof.
  destruct color as [[r g] b]. intros (Hr & Hg & Hb) Hf. unfold apply_brightness, valid_pixel.
  pose proof (py_int_scaled r f ltac:(lia) Hf).
  pose proof (py_int_scaled g f ltac:(lia) Hf).
  pose proof (py_int_scaled b f ltac:(lia) Hf).
  lia.
Qed.

Lemma length_list_set {A} (l : list A) i v : length (list_set l i v) = length l.
Proof.
  revert i. induction l as [|x l IH]; intros [|i]; simpl; try reflexivity.
  now rewrite IH.
Qed.

Lemma nth_list_set {A} (l : list A) i j v d :
  (i < length l)%nat ->
  nth j (list_set l i v) d = if (j =? i)%nat then v else nth j l d.
Proof.
  revert i j. induction l as [|x l IH]; intros i j Hi; [simpl in Hi; lia|].
  destruct i as [|i]; destruct j as [|j]; simpl; try reflexivity.
  apply IH. simpl in Hi. lia.
Qed.

Lemma Forall_list_set {A} (P : A -> Prop) (l : list A) i v :
  Forall P l -> P v -> Forall P (list_set l i v).
Proof.
  intros Hl Hv. revert i. induction Hl as [|x l Hx Hl IH]; intros [|i]; simpl;
    constructor; auto.
Qed.

Lemma ambient_pixels_valid cfg brightness c (Hc : valid_pixel (spinner_color cfg))
    (Hb : 0 <= brightness <= 1) ixs :
  forall px, length px = 64%nat -> Forall valid_pixel px ->
  let px' := fold_left (tail_pixel cfg brightness c) ixs px in
  length px' = 64%nat /\ Forall valid_pixel px'.
Proof.
  induction ixs as [|i ixs IH]; intros px Hl Hv; [now split|].
  cbn [fold_left]. apply IH.
  - unfold tail_pixel.
    destruct (nth _ SPINNER_PATH _) as [x y].
    destruct (apply_brightness _ _) as [[r g] b].
    destruct (_ || _); [apply eq_trans with (2 := Hl), length_list_set | exact Hl].
  - unfold tail_pixel.
    destruct (nth _ SPINNER_PATH _) as [x y].
    assert (Ht : 0 <= brightness * Rmax 0 (1 - INR i / INR TAIL_LENGTH) <= 1).
    { assert (0 <= Rmax 0 (1 - INR i / INR TAIL_LENGTH) <= 1).
      { split; [apply Rmax_l|]. apply Rmax_lub; [lra|].
        assert (0 <= INR i / INR TAIL_LENGTH).
        { unfold Rdiv. apply Rmult_le_pos; [apply pos_INR|].
          left. apply Rinv_0_lt_compat, lt_0_INR. unfold TAIL_LENGTH. lia. }
        lra. }
      nra. }
    pose proof (apply_brightness_valid _ _ Hc Ht) as Hp.
    destruct (apply_brightness _ _) as [[r g] b].
    destruct (_ || _); [now apply Forall_list_set | exact Hv].
Qed.

Lemma ambient_step_valid (cfg : Config) h t st :
  valid_pixel (spinner_color cfg) ->
  let px := fst (ambient_step cfg h t st) in
  length px = 64%nat /\ Forall valid_pixel px.
Proof.
  intros Hc. unfold ambient_step. cbn [fst].
  apply ambient_pixels_valid; try assumption.
  - split; [apply Rmax_l|]. apply Rmax_lub; [lra | apply Rmin_l].
  - apply repeat_length.
  - apply Forall_forall. intros x Hx. apply repeat_spec in Hx. subst. cbn. lia.
Qed.

(** *** The bars *)

Lemma fill_rows_app cfg b x r1 r2 px :
  fill_rows cfg b x (r1 ++ r2) px =
  (px1 <~ fill_rows cfg b x r1 px ;; fill_rows cfg b x r2 px1).
Proof.
  revert px. induction r1 as [|r r1 IH]; intros px; [reflexivity|].
  cbn [app fill_rows]. unfold set_item.
  destruct (_ <? _)%nat; [|reflexivity]. cbn [and_then]. apply IH.
Qed.

(** The column [x], filled up to height [h]. *)
Lemma fill_rows_spec cfg b x h : forall px,
  (x < 8)%nat -> (h <= 8)%nat -> length px = 64%nat ->
  exists px',
    fill_rows cfg b x (seq 0 h) px = Returns px' /\ length px' = 64%nat /\
    forall i, (i < 64)%nat ->
      nth i px' off =
      if ((i mod 8 =? x) && (7 - i / 8 <? h))%nat
      then apply_brightness (row_color cfg (7 - i / 8)) b
      else nth i px off.
Proof.
  induction h as [|h IH]; intros px Hx Hh Hl.
  - exists px. split; [reflexivity|]. split; [exact Hl|]. intros i Hi.
    rewrite andb_false_r. reflexivity.
  - destruct (IH px Hx ltac:(lia) Hl) as (px1 & E1 & L1 & N1).
    rewrite seq_S, fill_rows_app, E1. cbn [and_then Nat.add fill_rows].
    unfold set_item. rewrite L1.
    replace ((7 - h) * 8 + x <? 64)%nat with true by (symmetry; apply Nat.ltb_lt; lia).
    cbn [and_then].
    eexists. split; [reflexivity|]. split; [now rewrite length_list_set|].
    intros i Hi. rewrite nth_list_set by lia. rewrite (N1 i Hi).
    pose proof (Nat.div_mod_eq i 8). pose proof (Nat.mod_upper_bound i 8 ltac:(lia)).
    destruct (i =? (7 - h) * 8 + x)%nat eqn:E.
    + apply Nat.eqb_eq in E.
      assert (i mod 8 = x /\ i / 8 = 7 - h)%nat as [-> ->] by lia.
      rewrite Nat.eqb_refl.
      replace (7 - (7 - h) <? S h)%nat with true by (symmetry; apply Nat.ltb_lt; lia).
      replace (7 - (7 - h))%nat with h by lia. reflexivity.
    + apply Nat.eqb_neq in E.
      destruct (i mod 8 =? x)%nat eqn:Ex; [|reflexivity]. apply Nat.eqb_eq in Ex.
      cbn [andb].
      destruct (7 - i / 8 <? h)%nat eqn:E1'.
      * apply Nat.ltb_lt in E1'.
        replace (7 - i / 8 <? S h)%nat with true by (symmetry; apply Nat.ltb_lt; lia).
        reflexivity.
      * apply Nat.ltb_ge in E1'.
        replace (7 - i / 8 <? S h)%nat with false by (symmetry; apply Nat.ltb_ge; lia).
        reflexivity.
Qed.

Lemma fill_columns_app cfg b lv x1 x2 px :
  fill_columns cfg b lv (x1 ++ x2) px =
  (px1 <~ fill_columns cfg b lv x1 px ;; fill_columns cfg b lv x2 px1).
Proof.
  revert px. induction x1 as [|x x1 IH]; intros px; [reflexivity|].
  cbn [app fill_columns].
  destruct (bar_height lv x) as [h|e]; [|reflexivity]. cbn [and_then].
  destruct (fill_rows cfg b x (seq 0 h) px) as [px1|e]; [|reflexivity].
  cbn [and_then]. apply IH.
Qed.

Lemma bar_height_le lv x h : bar_height lv x = Returns h -> (h <= 8)%nat.
Proof.
  unfold bar_height. destruct (nth_error lv x) as [[|v]|]; try discriminate.
  intros H. injection H as <-. lia.
Qed.


Lemma fill_columns_spec cfg b lv n :
  (n <= 8)%nat ->
  (forall x, (x < n)%nat -> exists v, nth_error lv x = Some (Num v)) ->
  exists px',
    fill_columns cfg b lv (seq 0 n) (repeat off 64) = Returns px' /\
    length px' = 64%nat /\
    forall i, (i < 64)%nat ->
      nth i px' off =
      if ((i mod 8 <? n) && (7 - i / 8 <? height_of lv (i mod 8)))%nat
      then apply_brightness (row_color cfg (7 - i / 8)) b
      else off.
Proof.
  induction n as [|n IH]; intros Hn Hlv.
  - eexists. split; [reflexivity|]. split; [apply repeat_length|].
    intros i Hi. cbn [Nat.ltb Nat.leb andb]. apply nth_repeat.
  - destruct IH as (px1 & E1 & L1 & N1); [lia | intros x Hx; apply Hlv; lia|].
    rewrite seq_S, fill_columns_app, E1. cbn [and_then Nat.add fill_columns].
    destruct (Hlv n ltac:(lia)) as [v Hv].
    assert (Hb : bar_height lv n = Returns (height_of lv n)).
    { unfold height_of, bar_height. rewrite Hv. reflexivity. }
    rewrite Hb. cbn [and_then].
    destruct (fill_rows_spec cfg b n (height_of lv n) px1 ltac:(lia)
                (bar_height_le _ _ _ Hb) L1) as (px2 & E2 & L2 & N2).
    rewrite E2. cbn [and_then].
    exists px2. split; [reflexivity|]. split; [exact L2|].
    intros i Hi. rewrite (N2 i Hi), (N1 i Hi).
    pose proof (Nat.mod_upper_bound i 8 ltac:(lia)).
    destruct (i mod 8 =? n)%nat eqn:E.
    + apply Nat.eqb_eq in E. rewrite E.
      replace (n <? S n)%nat with true by (symmetry; apply Nat.ltb_lt; lia).
      replace (n <? n)%nat with false by (symmetry; apply Nat.ltb_ge; lia).
      cbn [andb]. destruct (_ <? _)%nat; reflexivity.
    + apply Nat.eqb_neq in E. cbn [andb].
      destruct (i mod 8 <? n)%nat eqn:E'.
      * apply Nat.ltb_lt in E'.
        replace (i mod 8 <? S n)%nat with true by (symmetry; apply Nat.ltb_lt; lia).
        reflexivity.
      * apply Nat.ltb_ge in E'.
        replace (i mod 8 <? S n)%nat with false by (symmetry; apply Nat.ltb_ge; lia).
        reflexivity.
Qed.

(** A NaN among the levels drawn makes the column loop raise. *)
Lemma fill_columns_nan cfg b lv xs : forall px,
  length px = 64%nat ->
  (forall x, In x xs -> (x < 8)%nat /\ (x < length lv)%nat) ->
  (exists x, In x xs /\ nth_error lv x = Some NaN) ->
  fill_columns cfg b lv xs px = Raises (Base ValueError).
Proof.
  induction xs as [|x xs IH]; intros px Hl Hxs (y & Hy & Hnan); [destruct Hy|].
  cbn [fill_columns].
  destruct (Hxs x (or_introl eq_refl)) as [Hx8 Hxl].
  unfold bar_height at 1.
  destruct (nth_error lv x) as [[|v]|] eqn:E.
  - reflexivity.
  - cbn [and_then].
    assert (Hb : bar_height lv x = Returns (height_of lv x)).
    { unfold height_of, bar_height. rewrite E. reflexivity. }
    destruct (fill_rows_spec cfg b x (height_of lv x) px Hx8
                (bar_height_le _ _ _ Hb) Hl) as (px2 & E2 & L2 & _).
    unfold height_of, bar_height in E2. rewrite E in E2. rewrite E2. cbn [and_then].
    apply IH; [exact L2 | intros z Hz; apply Hxs; now right|].
    destruct Hy as [->|Hy]; [congruence|]. now exists y.
  - apply nth_error_None in E. lia.
Qed.


Lemma draw_levels_nan (cfg : AppConfig) h st i :
  (n_bands cfg <= 8)%nat ->
  length (levels_smooth st) = n_bands cfg ->
  (i < n_bands cfg)%nat ->
  nth_error (levels_smooth st) i = Some NaN ->
  draw_levels cfg h st = Raises (Base ValueError).
Proof.
  intros H8 Hl Hi Hnan. unfold draw_levels.
  rewrite (fill_columns_nan cfg _ (levels_smooth st) (seq 0 (n_bands cfg))).
  - reflexivity.
  - apply repeat_length.
  - intros x Hx. apply in_seq in Hx. lia.
  - exists i. split; [apply in_seq; lia | exact Hnan].
Qed.


(** X19.  Every frame of the ambient spinner is one the Sense HAT accepts.
    When the components of [spinner_color] are within [[0, 255]], the
    pixel list [ambient_step] hands to the display has 64 entries and
    every component of every entry is within [[0, 255]], whatever the hour,
    the time and the cursor. *)
Theorem ambient_frame_is_valid (cfg : Config) h t st :
  valid_pixel (spinner_color cfg) ->
  let pixels := fst (ambient_step cfg h t st) in
  length pixels = 64%nat /\ Forall valid_pixel pixels.
Proof. apply ambient_step_valid. Qed.

Lemma ambient_frame_is_valid_witness :
  let pixels := fst (ambient_step CONFIG 12 7 STATE) in
  length pixels = 64%nat /\ Forall valid_pixel pixels.
Proof.
  apply (ambient_frame_is_valid CONFIG 12 7 STATE). cbn. lia.
Defined.



(** X21.  A NaN among the levels makes [draw_levels] raise.  With at most
    8 bands and [n_bands] stored levels of which one is NaN, the call
    raises [ValueError] (from [int(round(nan))]) instead of drawing,
    whatever the hour. *)
Theorem draw_levels_raises_on_nan (cfg : AppConfig) h st :
  (n_bands cfg <= 8)%nat ->
  unreadable cfg st ->
  draw_levels cfg h st = Raises (Base ValueError).
Proof.
  intros Hn (Hl & i & Hi & Hnan). now apply (draw_levels_nan cfg h st i).
Qed.

Lemma draw_levels_raises_on_nan_witness :
  draw_levels APP_CONFIG 12
    (W_STATE (run_callbacks CONFIG (World_init CONFIG) [(short_block, 1)]))
  = Raises (Base ValueError).
Proof.
  apply (draw_levels_raises_on_nan APP_CONFIG 12).
  - cbn. lia.
  - split.
    + apply run_callbacks_levels_length; [cbn; lia | reflexivity].
    + exists 2%nat. split; [cbn; lia|].
      apply (short_block_poisons_levels_at CONFIG [] short_block 1 []).
      cbn. lia.
Defined.

End DisplayFacts.

(** ** The input device and the start of the stream *)

Section StreamFacts.
Import Py Stream.
Local Open Scope R_scope.

Lemma first_index_Some {A} (p : A -> bool) l : forall k i,
  first_index p l k = Some i ->
  (k <= i)%nat /\
  exists x, nth_error l (i - k) = Some x /\ p x = true /\
            forall j y, (j < i - k)%nat -> nth_error l j = Some y -> p y = false.
Proof.
  induction l as [|x l IH]; intros k i H; [discriminate|].
  cbn [first_index] in H. destruct (p x) eqn:E.
  - injection H as <-. split; [lia|]. rewrite Nat.sub_diag. exists x.
    split; [reflexivity|]. split; [exact E|]. intros j y Hj. lia.
  - destruct (IH _ _ H) as (Hk & y & Hy & Py & Hbefore).
    split; [lia|]. exists y.
    replace (i - k)%nat with (S (i - S k)) by lia.
    split; [exact Hy|]. split; [exact Py|].
    intros [|j] z Hj Hz; [injection Hz as <-; exact E|].
    apply (Hbefore j); [lia | exact Hz].
Qed.

Lemma first_index_None {A} (p : A -> bool) l : forall k,
  first_index p l k = None -> forall x, In x l -> p x = false.
Proof.
  induction l as [|y l IH]; intros k H x Hx; [destruct Hx|].
  cbn [first_index] in H. destruct (p y) eqn:E; [discriminate|].
  destruct Hx as [->|Hx]; [exact E | now apply (IH (S k))].
Qed.

Variable lower : str -> str.

Lemma pick_audio_device_spec devices :
  match pick_audio_device lower (Some devices) with
  | Some idx =>
      exists dev,
        nth_error devices idx = Some dev /\ has_input dev = true /\
        ((is_pulse_input lower dev = true /\
          forall j d, (j < idx)%nat -> nth_error devices j = Some d ->
                      is_pulse_input lower d = false) \/
         ((forall d, In d devices -> is_pulse_input lower d = false) /\
          forall j d, (j < idx)%nat -> nth_error devices j = Some d ->
                      has_input d = false))
  | None => forall d, In d devices -> has_input d = false
  end.
Proof.
  unfold pick_audio_device.
  destruct (first_index (is_pulse_input lower) devices 0) as [i|] eqn:E1.
  - apply first_index_Some in E1 as (_ & dev & Hd & Hp & Hb).
    rewrite Nat.sub_0_r in *. exists dev. split; [exact Hd|].
    split; [unfold is_pulse_input in Hp; now apply andb_true_iff in Hp|].
    left. split; [exact Hp | exact Hb].
  - pose proof (first_index_None _ _ _ E1) as Hnp.
    destruct (first_index has_input devices 0) as [i|] eqn:E2.
    + apply first_index_Some in E2 as (_ & dev & Hd & Hp & Hb).
      rewrite Nat.sub_0_r in *. exists dev. split; [exact Hd|]. split; [exact Hp|].
      right. split; [exact Hnp | exact Hb].
    + now apply first_index_None with (k := 0%nat).
Qed.


Lemma start_attempts_spec cfg env (Hd : 0 <= audio_retry_delay cfg) n :
  forall a st calls,
  let '(st', calls', r) := start_attempts lower cfg env (seq a n) st calls in
  levels_smooth st' = levels_smooth st /\
  audio_last_active st' = audio_last_active st /\
  ambient_index st' = ambient_index st /\
  exists k,
    calls' = calls ++ repeat (sleep (audio_retry_delay cfg)) k /\
    (forall i, (a <= i < a + k)%nat -> attempt_fails lower (env i)) /\
    ((r = Returns None /\ k = n /\ stream_active st' = stream_active st) \/
     (exists dev,
        r = Returns (Some {| device := dev |}) /\ (k < n)%nat /\
        pick_audio_device lower (query (env (a + k)%nat)) = Some dev /\
        open (env (a + k)%nat) dev = Started /\
        stream_active st' = true)).
Proof.
  assert (Hs : time_sleep (audio_retry_delay cfg) = Returns [sleep (audio_retry_delay cfg)]).
  { unfold time_sleep. destruct (Rlt_dec _ 0); [lra | reflexivity]. }
  induction n as [|n IH]; intros a st calls.
  - cbn. repeat split; try reflexivity. exists 0%nat. cbn. rewrite app_nil_r.
    split; [reflexivity|]. split; [intros; lia|]. left. now repeat split.
  - cbn [seq start_attempts].
    destruct (pick_audio_device lower (query (env a))) as [dev|] eqn:Ep.
    + destruct (open (env a) dev) eqn:Eo.
      * cbn. repeat split; try reflexivity. exists 0%nat. cbn. rewrite app_nil_r.
        split; [reflexivity|]. split; [intros; lia|]. right. exists dev.
        rewrite Nat.add_0_r. repeat split; try assumption. lia.
      * rewrite Hs.
        specialize (IH (S a)
          {| levels_smooth := levels_smooth st;
             audio_last_active := audio_last_active st;
             ambient_index := ambient_index st;
             agc_gain := agc_gain st;
             stream_active := stream_active st;
             last_error := Some message;
             silence_detected := silence_detected st;
             saved_volume := saved_volume st;
             ducked_until := ducked_until st |}
          (calls ++ [sleep (audio_retry_delay cfg)])).
        destruct (start_attempts _ _ _ _ _ _) as [[st' calls'] r].
        destruct IH as (H1 & H2 & H3 & k & Hc & Hf & Hr).
        split; [exact H1|]. split; [exact H2|]. split; [exact H3|].
        exists (S k). split; [rewrite Hc, <- app_assoc; reflexivity|].
        split.
        { intros i Hi. destruct (Nat.eq_dec i a) as [->|Hne].
          - unfold attempt_fails. rewrite Ep, Eo. discriminate.
          - apply Hf. lia. }
        destruct Hr as [(Hr & Hk & Ha)|(d & Hr & Hk & Hp & Ho & Ha)].
        -- left. repeat split; [exact Hr | lia | exact Ha].
        -- right. exists d. replace (a + S k)%nat with (S a + k)%nat by lia.
           repeat split; try assumption. lia.
    + rewrite Hs. specialize (IH (S a) st (calls ++ [sleep (audio_retry_delay cfg)])).
      destruct (start_attempts _ _ _ _ _ _) as [[st' calls'] r].
      destruct IH as (H1 & H2 & H3 & k & Hc & Hf & Hr).
      split; [exact H1|]. split; [exact H2|]. split; [exact H3|].
      exists (S k). split; [rewrite Hc, <- app_assoc; reflexivity|].
      split.
      { intros i Hi. destruct (Nat.eq_dec i a) as [->|Hne].
        - unfold attempt_fails. now rewrite Ep.
        - apply Hf. lia. }
      destruct Hr as [(Hr & Hk & Ha)|(d & Hr & Hk & Hp & Ho & Ha)].
      * left. repeat split; [exact Hr | lia | exact Ha].
      * right. exists d. replace (a + S k)%nat with (S a + k)%nat by lia.
        repeat split; try assumption. lia.
Qed.


(** X22.  [pick_audio_device] prefers PulseAudio and never picks a device
    without input.  When it returns an index, the device there has input
    channels, and either it is the first device with input channels whose
    lowercased name contains ["pulse"], or no device is such and it is the
    first with input channels at all.  It returns [None] only when no
    device has input channels. *)
Theorem pick_audio_device_prefers_pulse devices :
  match pick_audio_device lower (Some devices) with
  | Some idx =>
      exists dev,
        nth_error devices idx = Some dev /\ has_input dev = true /\
        ((is_pulse_input lower dev = true /\
          forall j d, (j < idx)%nat -> nth_error devices j = Some d ->
                      is_pulse_input lower d = false) \/
         ((forall d, In d devices -> is_pulse_input lower d = false) /\
          forall j d, (j < idx)%nat -> nth_error devices j = Some d ->
                      has_input d = false))
  | None => forall d, In d devices -> has_input d = false
  end.
Proof. apply pick_audio_device_spec. Qed.

(** X23.  [start_audio_stream] makes at most [audio_max_retries] attempts
    and returns at the first that succeeds.  With a retry delay that is
    not negative the call returns; it has slept [audio_retry_delay] once
    for each of the [k] attempts that failed and done nothing else to the
    display or the clock; either all [audio_max_retries] attempts failed,
    the result is [None] and [stream_active] is as before, or attempt [k]
    picked a device on which the stream opened, the result is the stream
    on that device and [stream_active] is set. *)
Theorem start_audio_stream_bounded_retries cfg env st :
  0 <= audio_retry_delay cfg ->
  let '(st', calls, r) := start_audio_stream lower cfg env st in
  let n := Z.to_nat (audio_max_retries cfg) in
  exists k,
    calls = repeat (sleep (audio_retry_delay cfg)) k /\
    (forall i, (i < k)%nat -> attempt_fails lower (env i)) /\
    ((r = Returns None /\ k = n /\ stream_active st' = stream_active st) \/
     (exists dev,
        r = Returns (Some {| device := dev |}) /\ (k < n)%nat /\
        pick_audio_device lower (query (env k)) = Some dev /\
        open (env k) dev = Started /\
        stream_active st' = true)).
Proof.
  intros Hd. unfold start_audio_stream.
  pose proof (start_attempts_spec cfg env Hd (Z.to_nat (audio_max_retries cfg))
                0%nat st []) as H.
  destruct (start_attempts _ _ _ _ _ _) as [[st' calls] r].
  destruct H as (_ & _ & _ & k & Hc & Hf & Hr).
  cbv zeta. exists k. split; [exact Hc|]. split; [intros i Hi; apply Hf; lia|].
  exact Hr.
Qed.

End StreamFacts.

Section StreamRuns.
Import Py Stream Samples.
Local Open Scope R_scope.

Lemma start_audio_stream_bounded_retries_witness :
  let env := fun i => match i with 0%nat => busy | _ => ready end in
  let '(st', calls, r) := start_audio_stream ascii_lower APP_CONFIG env STATE in
  let n := Z.to_nat (audio_max_retries APP_CONFIG) in
  exists k,
    calls = repeat (sleep (audio_retry_delay APP_CONFIG)) k /\
    (forall i, (i < k)%nat -> attempt_fails ascii_lower (env i)) /\
    ((r = Returns None /\ k = n /\ stream_active st' = stream_active STATE) \/
     (exists dev,
        r = Returns (Some {| device := dev |}) /\ (k < n)%nat /\
        pick_audio_device ascii_lower (query (env k)) = Some dev /\
        open (env k) dev = Started /\
        stream_active st' = true)).
Proof.
  apply (start_audio_stream_bounded_retries ascii_lower APP_CONFIG
           (fun i => match i with 0%nat => busy | _ => ready end) STATE).
  cbn. lra.
Defined.

End StreamRuns.

(** ** The application that plays *)

Section PactlFacts.
Import Py Metadata Pactl.

Variable isdecimal : N -> bool.

Lemma block_app_name_app a b :
  block_app_name (a ++ b) =
  match block_app_name a with
  | Some g => Some g
  | None => block_app_name b
  end.
Proof.
  induction a as [|l a IH]; [reflexivity|]. cbn [app block_app_name].
  destruct (RE_APP_NAME l); [reflexivity | exact IH].
Qed.

Lemma scan_lines_first lines : forall block,
  scan_lines isdecimal lines block =
  match block_app_name (block ++ lines) with
  | Some g => g
  | None => lit "unknown"
  end.
Proof.
  induction lines as [|line rest IH]; intros block.
  - cbn [scan_lines]. now rewrite app_nil_r.
  - cbn [scan_lines]. rewrite block_app_name_app.
    destruct (RE_SINK_INPUT isdecimal line).
    + replace (if truthy_list block then block_app_name block else None)
        with (block_app_name block) by (destruct block; reflexivity).
      destruct (block_app_name block) as [g|]; [reflexivity|].
      rewrite IH. reflexivity.
    + rewrite IH, <- app_assoc, block_app_name_app. reflexivity.
Qed.

Lemma match_app_name_nonempty s g : match_app_name s = Some g -> g <> [].
Proof.
  unfold match_app_name. destruct (strip_prefix _ s) as [rest|]; [|discriminate].
  destruct (span _ rest) as [h r]. destruct h; [discriminate|].
  destruct r; [discriminate|]. intros H. injection H as <-. discriminate.
Qed.

Lemma re_search_Some {A} (m : str -> option A) s g :
  re_search m s = Some g -> exists n, m (skipn n s) = Some g.
Proof.
  induction s as [|c s IH]; cbn [re_search].
  - destruct (m []) eqn:E; [|discriminate]. intros H. exists 0%nat. cbn. congruence.
  - destruct (m (c :: s)) eqn:E.
    + intros H. exists 0%nat. cbn. congruence.
    + intros H. destruct (IH H) as [n Hn]. now exists (S n).
Qed.


(** X24.  [detect_current_app] returns the first application name in the
    output of [pactl], whatever sink input it belongs to.  When [pactl]
    completes, the result is the name on the first line of its output
    that carries an [application.name], a name that is not empty, and
    ["unknown"] when no line carries one; the lines that open a sink
    input play no part.  When [pactl] times out or is missing the result
    is ["unknown"]. *)
Theorem detect_current_app_first_name :
  (forall stdout,
     detect_current_app isdecimal (Completed stdout) =
     Returns (match block_app_name (splitlines stdout) with
              | Some g => g
              | None => lit "unknown"
              end)) /\
  (forall lines g, block_app_name lines = Some g -> g <> []) /\
  detect_current_app isdecimal TimeoutExpired = Returns (lit "unknown") /\
  detect_current_app isdecimal FileNotFoundError = Returns (lit "unknown").
Proof.
  split; [|split; [|split; reflexivity]].
  - intros stdout. unfold detect_current_app. now rewrite scan_lines_first.
  - induction lines as [|l lines IH]; intros g; [discriminate|].
    cbn [block_app_name]. destruct (RE_APP_NAME l) as [g'|] eqn:E; [|apply IH].
    intros H. injection H as <-.
    apply re_search_Some in E as [n E]. now apply match_app_name_nonempty in E.
Qed.

End PactlFacts.

(** ** The main loop *)

Section AppFacts.
Import Np Audio Ambient Py Metadata Display Stream Pactl App.
Local Open Scope R_scope.

Variable b64decode : str -> result bytes.
Variable decode_utf8 : bytes -> str.
Variable isdecimal : N -> bool.
Variable lower : str -> str.

Local Abbreviation body := (try_body b64decode decode_utf8 isdecimal lower).
Local Abbreviation turn_of := (one_turn b64decode decode_utf8 isdecimal lower).
Local Abbreviation loop_of := (while_running b64decode decode_utf8 isdecimal lower).
Local Abbreviation always := (throughout b64decode decode_utf8 isdecimal lower).
Local Abbreviation playing := (playing_track b64decode decode_utf8).

Lemma announcements_app a b : announcements (a ++ b) = announcements a ++ announcements b.
Proof. apply flat_map_app. Qed.

Lemma frames_app a b : frames (a ++ b) = (frames a + frames b)%nat.
Proof. unfold frames. now rewrite filter_app, length_app. Qed.

Lemma str_eqb_refl s : str_eqb s s = true.
Proof. now apply str_eqb_eq. Qed.

Lemma start_attempts_active cfg env attempts : forall st calls,
  let '(st', _, r) := start_attempts lower cfg env attempts st calls in
  match r with
  | Returns (Some _) => stream_active st' = true
  | _ => True
  end.
Proof.
  induction attempts as [|a rest IH]; intros st calls; [exact I|].
  cbn [start_attempts].
  destruct (pick_audio_device lower (query (env a))) as [dev|].
  - destruct (open (env a) dev); [reflexivity|].
    destruct (time_sleep _); [apply IH | exact I].
  - destruct (time_sleep _); [apply IH | exact I].
Qed.

(** What the body of the [try] leaves alone. *)
Lemma try_body_frame cfg turn app loc st :
  let '(a1, l1, st1, _, _) := body cfg turn app loc st in
  stream a1 = stream app /\ running a1 = running app /\
  levels_smooth st1 = levels_smooth st /\
  audio_last_active st1 = audio_last_active st /\
  stream_active st1 = stream_active st.
Proof.
  unfold try_body, announce.
  destruct (get_track _ _ _ _) as [r' [[artist title] updated_at]].
  repeat match goal with
         | |- context [if ?c then _ else _] => destruct c
         | |- context [match detect_current_app ?a ?b with _ => _ end] =>
             destruct (detect_current_app a b)
         | |- context [match draw_levels ?a ?b ?c with _ => _ end] =>
             destruct (draw_levels a b c)
         end; cbn; repeat split; reflexivity.
Qed.


Lemma draw_levels_calls cfg h st c :
  draw_levels cfg h st = Returns c -> exists px, c = [display_set_pixels px].
Proof.
  unfold draw_levels. destruct (fill_columns _ _ _ _ _) as [px|e]; [|discriminate].
  cbn. intros H. injection H as <-. now exists px.
Qed.

Ltac split_body :=
  repeat match goal with
         | |- context [if ?c then _ else _] => destruct c eqn:?
         | |- context [match detect_current_app ?a ?b with _ => _ end] =>
             destruct (detect_current_app a b) eqn:?
         | |- context [match draw_levels ?a ?b ?c with _ => _ end] =>
             destruct (draw_levels a b c) eqn:?
         end.

Lemma start_attempts_quiet cfg env attempts : forall st calls,
  let '(_, calls', _) := start_attempts lower cfg env attempts st calls in
  announcements calls' = announcements calls /\ frames calls' = frames calls.
Proof.
  assert (Hs : forall d c, time_sleep d = Returns c -> c = [sleep d]).
  { intros d c. unfold time_sleep. destruct (Rlt_dec d 0); [discriminate|].
    intros H. now injection H as <-. }
  induction attempts as [|a rest IH]; intros st calls; [now split|].
  cbn [start_attempts].
  destruct (pick_audio_device lower (query (env a))) as [dev|].
  - destruct (open (env a) dev); [now split|].
    destruct (time_sleep _) as [c|e] eqn:E; [|now split].
    apply Hs in E. subst c.
    match goal with |- context [start_attempts _ _ _ _ ?s ?c] => specialize (IH s c) end.
    destruct (start_attempts _ _ _ _ _ _) as [[st' calls'] r].
    rewrite announcements_app, frames_app in IH. cbn in IH.
    rewrite app_nil_r, Nat.add_0_r in IH. exact IH.
  - destruct (time_sleep _) as [c|e] eqn:E; [|now split].
    apply Hs in E. subst c.
    specialize (IH st (calls ++ [sleep (audio_retry_delay cfg)])).
    destruct (start_attempts _ _ _ _ _ _) as [[st' calls'] r].
    rewrite announcements_app, frames_app in IH. cbn in IH.
    rewrite app_nil_r, Nat.add_0_r in IH. exact IH.
Qed.

(** The [except] clause shows nothing and keeps what the loop remembers of
    the display. *)
Lemma on_error_quiet cfg turn app loc st :
  let '(a1, l1, st1, calls, _) := on_error lower cfg turn app loc st in
  announcements calls = [] /\ frames calls = 0%nat /\
  last_shown_track l1 = last_shown_track loc /\
  no_audio_shown l1 = no_audio_shown loc /\
  consecutive_errors l1 = (consecutive_errors loc + 1)%Z /\
  running a1 = running app /\
  levels_smooth st1 = levels_smooth st /\
  audio_last_active st1 = audio_last_active st.
Proof.
  unfold on_error. cbn [consecutive_errors].
  destruct (10 <? _)%Z; [now repeat split|].
  destruct (stream_died app st); [|now repeat split].
  unfold start_audio_stream.
  pose proof (start_attempts_quiet cfg (restart_env turn)
                (seq 0 (Z.to_nat (audio_max_retries cfg))) st []) as Hq.
  assert (Hf : forall attempts st0 calls0,
             let '(st', _, _) := start_attempts lower cfg (restart_env turn) attempts st0 calls0 in
             levels_smooth st' = levels_smooth st0 /\
             audio_last_active st' = audio_last_active st0).
  { induction attempts as [|a rest IH]; intros st0 calls0; [now split|].
    cbn [start_attempts].
    destruct (pick_audio_device lower _) as [dev|].
    - destruct (open _ dev); [now split|].
      destruct (time_sleep _); [|now split].
      match goal with |- context [start_attempts _ _ _ _ ?s ?c] => specialize (IH s c) end.
      destruct (start_attempts _ _ _ _ _ _) as [[st' calls'] r]. exact IH.
    - destruct (time_sleep _); [apply IH | now split]. }
  specialize (Hf (seq 0 (Z.to_nat (audio_max_retries cfg))) st []).
  destruct (start_attempts _ _ _ _ _ _) as [[st' calls'] [s|e]];
    destruct Hq as [Hq1 Hq2]; destruct Hf as [Hf1 Hf2];
    cbn; rewrite ?Hq1, ?Hq2; now repeat split.
Qed.

(** A turn while the track that plays has been announced. *)
Lemma try_body_announced cfg turn app loc st T :
  audio_recent turn st = true ->
  playing cfg turn app = None \/ playing cfg turn app = Some T ->
  last_shown_track loc = Some T -> no_audio_shown loc = false ->
  let '(_, l1, _, calls, _) := body cfg turn app loc st in
  announcements calls = [] /\
  last_shown_track l1 = Some T /\ no_audio_shown l1 = false.
Proof.
  intros Hr Hp Hl Hf. unfold try_body, playing_track in *.
  destruct (get_track _ _ _ _) as [r' [[artist title] updated_at]].
  rewrite Hr, Hl, Hf. cbn [andb negb orb differs].
  destruct (metadata_fresh cfg turn updated_at && (is_set artist || is_set title)) eqn:E.
  - destruct Hp as [Hp|Hp]; [discriminate|].
    assert (HT : T = fmt artist ++ lit " - " ++ fmt title) by congruence.
    subst T. rewrite str_eqb_refl. cbn [negb].
    destruct (draw_levels _ _ _) as [c|e] eqn:Ed;
      [apply draw_levels_calls in Ed as [px ->]|]; cbn; now repeat split.
  - destruct (draw_levels _ _ _) as [c|e] eqn:Ed;
      [apply draw_levels_calls in Ed as [px ->]|]; cbn; now repeat split.
Qed.

(** A turn while one track plays, whatever the loop remembers. *)
Lemma try_body_steady cfg turn app loc st T :
  audio_recent turn st = true ->
  playing cfg turn app = None \/ playing cfg turn app = Some T ->
  let '(_, l1, _, calls, _) := body cfg turn app loc st in
  announcements calls = [] \/
  (announcements calls = [T] /\
   last_shown_track l1 = Some T /\ no_audio_shown l1 = false).
Proof.
  intros Hr Hp. unfold try_body, playing_track, announce in *.
  destruct (get_track _ _ _ _) as [r' [[artist title] updated_at]].
  rewrite Hr. cbn [andb negb].
  destruct (metadata_fresh cfg turn updated_at && (is_set artist || is_set title)) eqn:E.
  - destruct Hp as [Hp|Hp]; [discriminate|].
    assert (HT : T = fmt artist ++ lit " - " ++ fmt title) by congruence.
    subst T. destruct (differs _ _ || _).
    + destruct (detect_current_app _ _);
        [|left; destruct (_ && Rltb _ _); reflexivity].
      destruct (draw_levels _ _ _) as [c|e] eqn:Ed;
        [apply draw_levels_calls in Ed as [px ->]|]; right; cbn;
        rewrite ?announcements_app; cbn;
        destruct (_ && Rltb _ _); cbn; now repeat split.
    + destruct (draw_levels _ _ _) as [c|e] eqn:Ed;
        [apply draw_levels_calls in Ed as [px ->]|]; now left.
  - destruct (draw_levels _ _ _) as [c|e] eqn:Ed;
      [apply draw_levels_calls in Ed as [px ->]|]; now left.
Qed.

(** A turn without recent audio. *)
Lemma try_body_idle cfg turn app loc st :
  audio_recent turn st = false ->
  let '(_, l1, _, calls, r) := body cfg turn app loc st in
  r = Returns tt /\ announcements calls = [] /\
  ((frames calls = 1%nat /\ no_audio_shown l1 = no_audio_shown loc) \/
   (frames calls = 2%nat /\ no_audio_shown loc = false /\ no_audio_shown l1 = true)).
Proof.
  intros Hr. unfold try_body.
  destruct (get_track _ _ _ _) as [r' [[artist title] updated_at]].
  rewrite Hr. cbn [andb negb].
  destruct (Rltb _ _); [|cbn; split; [reflexivity|]; split; [reflexivity|]; now left].
  destruct (no_audio_shown loc) eqn:E; cbn [negb].
  - cbn. rewrite E. split; [reflexivity|]. split; [reflexivity|]. now left.
  - cbn. split; [reflexivity|]. split; [reflexivity|]. now right.
Qed.

(** A turn with recent audio and a level that cannot be drawn. *)
Lemma try_body_raises cfg turn app loc st e :
  audio_recent turn st = true ->
  (forall h, draw_levels cfg h st = Raises e) ->
  let '(a1, l1, st1, _, r) := body cfg turn app loc st in
  (exists e', r = Raises e') /\ st1 = st /\
  consecutive_errors l1 = consecutive_errors loc /\
  running a1 = running app.
Proof.
  intros Hr Hd. unfold try_body, announce.
  destruct (get_track _ _ _ _) as [r' [[artist title] updated_at]].
  rewrite Hr, Hd. cbn [andb negb].
  split_body; cbn; repeat split; eauto.
Qed.


Lemma time_sleep_quiet d c :
  time_sleep d = Returns c -> announcements c = [] /\ frames c = 0%nat.
Proof.
  unfold time_sleep. destruct (Rlt_dec d 0); [discriminate|].
  intros H. injection H as <-. now split.
Qed.

(** The track [T] has been announced and the no-audio indicator is not up. *)
Local Abbreviation announced T l :=
  (last_shown_track l = Some T /\ no_audio_shown l = false).

(** One track plays: the audio is recent, and what the turn would announce,
    if anything, is [T]. *)
Local Abbreviation plays cfg T :=
  (fun (q : Program) (turn : Turn) =>
     audio_recent turn (W_STATE (globals q)) = true /\
     (playing cfg turn (self q) = None \/ playing cfg turn (self q) = Some T)).

Lemma one_turn_announced cfg turn p T :
  plays cfg T p turn -> announced T (locals p) ->
  let '(p1, calls, _) := turn_of cfg turn p in
  announcements calls = [] /\ announced T (locals p1).
Proof.
  intros [Hr Hp] [Hl Hf]. unfold one_turn.
  pose proof (try_body_announced cfg turn (self p) (locals p) (W_STATE (globals p)) T
                Hr Hp Hl Hf) as Hb.
  destruct (body cfg turn (self p) (locals p) (W_STATE (globals p)))
    as [[[[a1 l1] st1] calls1] r].
  destruct Hb as (Ha & Hl1 & Hf1).
  destruct r as [u|e].
  - destruct (time_sleep _) as [c|e] eqn:E; cbn [locals]; [|now repeat split].
    apply time_sleep_quiet in E as [E _].
    rewrite announcements_app, Ha, E. now repeat split.
  - pose proof (on_error_quiet cfg turn a1 l1 st1) as Hq.
    destruct (on_error lower cfg turn a1 l1 st1) as [[[[a2 l2] st2] calls2] s].
    destruct Hq as (Hq1 & _ & Hq2 & Hq3 & _).
    destruct s; [destruct (time_sleep _) as [c|e'] eqn:E| |]; cbn [locals];
      rewrite ?announcements_app, ?Ha, ?Hq1, ?Hq2, ?Hq3;
      try (apply time_sleep_quiet in E as [E _]; rewrite E);
      now repeat split.
Qed.

Lemma one_turn_steady cfg turn p T :
  plays cfg T p turn ->
  let '(p1, calls, _) := turn_of cfg turn p in
  announcements calls = [] \/
  (announcements calls = [T] /\ announced T (locals p1)).
Proof.
  intros [Hr Hp]. unfold one_turn.
  pose proof (try_body_steady cfg turn (self p) (locals p) (W_STATE (globals p)) T
                Hr Hp) as Hb.
  destruct (body cfg turn (self p) (locals p) (W_STATE (globals p)))
    as [[[[a1 l1] st1] calls1] r].
  destruct r as [u|e].
  - destruct (time_sleep _) as [c|e] eqn:E; cbn [locals]; [|exact Hb].
    apply time_sleep_quiet in E as [E _].
    rewrite announcements_app, E, app_nil_r. exact Hb.
  - pose proof (on_error_quiet cfg turn a1 l1 st1) as Hq.
    destruct (on_error lower cfg turn a1 l1 st1) as [[[[a2 l2] st2] calls2] s].
    destruct Hq as (Hq1 & _ & Hq2 & Hq3 & _).
    destruct s; [destruct (time_sleep _) as [c|e'] eqn:E| |]; cbn [locals];
      rewrite ?announcements_app, ?Hq1, ?Hq2, ?Hq3, ?app_nil_r;
      try (apply time_sleep_quiet in E as [E _]; rewrite E, ?app_nil_r);
      exact Hb.
Qed.

Lemma locals_deliver cfg blocks p : locals (deliver cfg blocks p) = locals p.
Proof. unfold deliver. destruct (stream (self p)); reflexivity. Qed.

Lemma self_deliver cfg blocks p : self (deliver cfg blocks p) = self p.
Proof. unfold deliver. destruct (stream (self p)); reflexivity. Qed.

Lemma while_running_announced cfg T turns : forall p,
  announced T (locals p) ->
  always cfg (plays cfg T) turns p ->
  announcements (snd (fst (loop_of cfg turns p))) = [].
Proof.
  induction turns as [|[blocks turn] rest IH]; intros p Ha Hs; [reflexivity|].
  cbn [while_running throughout] in *. destruct Hs as [Hs Hrest].
  destruct (running (self p)); [|reflexivity].
  rewrite <- (locals_deliver cfg blocks p) in Ha.
  pose proof (one_turn_announced cfg turn (deliver cfg blocks p) T Hs Ha) as H1.
  destruct (turn_of cfg turn (deliver cfg blocks p)) as [[p1 calls] s].
  destruct H1 as [Hc Ha1]. cbn [fst] in Hrest.
  destruct s; cbn [fst snd]; try exact Hc.
  specialize (IH p1 Ha1 Hrest).
  destruct (loop_of cfg rest p1) as [[p2 calls'] s']. cbn [fst snd] in *.
  now rewrite announcements_app, Hc, IH.
Qed.

Lemma while_running_steady cfg T turns : forall p,
  always cfg (plays cfg T) turns p ->
  announcements (snd (fst (loop_of cfg turns p))) = [] \/
  announcements (snd (fst (loop_of cfg turns p))) = [T].
Proof.
  induction turns as [|[blocks turn] rest IH]; intros p Hs; [now left|].
  cbn [while_running throughout] in *. destruct Hs as [Hs Hrest].
  destruct (running (self p)); [|now left].
  pose proof (one_turn_steady cfg turn (deliver cfg blocks p) T Hs) as H1.
  destruct (turn_of cfg turn (deliver cfg blocks p)) as [[p1 calls] s].
  cbn [fst] in Hrest.
  destruct s; cbn [fst snd]; try (destruct H1 as [H1|[H1 _]]; now auto).
  destruct H1 as [H1|[H1 Ha1]].
  - specialize (IH p1 Hrest).
    destruct (loop_of cfg rest p1) as [[p2 calls'] s']. cbn [fst snd] in *.
    rewrite announcements_app, H1. exact IH.
  - pose proof (while_running_announced cfg T rest p1 Ha1 Hrest) as H2.
    destruct (loop_of cfg rest p1) as [[p2 calls'] s']. cbn [fst snd] in *.
    rewrite announcements_app, H1, H2. now right.
Qed.

(** *** Idle turns *)

Lemma audio_last_active_ambient (cfg : Config) h t st :
  audio_last_active (snd (ambient_step cfg h t st)) = audio_last_active st.
Proof. reflexivity. Qed.

Lemma one_turn_idle cfg turn p :
  audio_recent turn (W_STATE (globals p)) = false ->
  let '(p1, calls, _) := turn_of cfg turn p in
  (frames calls = 1%nat /\ no_audio_shown (locals p1) = no_audio_shown (locals p)) \/
  (frames calls = 2%nat /\ no_audio_shown (locals p) = false /\
   no_audio_shown (locals p1) = true).
Proof.
  intros Hr. unfold one_turn.
  pose proof (try_body_idle cfg turn (self p) (locals p) (W_STATE (globals p)) Hr) as Hb.
  destruct (body cfg turn (self p) (locals p) (W_STATE (globals p)))
    as [[[[a1 l1] st1] calls1] r].
  destruct Hb as (-> & _ & Hb).
  destruct (time_sleep _) as [c|e] eqn:E; cbn [locals]; [|exact Hb].
  apply time_sleep_quiet in E as [_ E].
  rewrite frames_app, E, Nat.add_0_r. exact Hb.
Qed.

Lemma while_running_idle cfg turns : forall p,
  always cfg (fun q turn => audio_recent turn (W_STATE (globals q)) = false) turns p ->
  let n := frames (snd (fst (loop_of cfg turns p))) in
  (n <= length turns + 1)%nat /\
  (no_audio_shown (locals p) = true -> (n <= length turns)%nat).
Proof.
  induction turns as [|[blocks turn] rest IH]; intros p Hs; [cbn; split; lia|].
  cbn [while_running throughout length] in *. destruct Hs as [Hs Hrest].
  destruct (running (self p)); [|cbn; split; lia].
  pose proof (one_turn_idle cfg turn (deliver cfg blocks p) Hs) as H1.
  rewrite locals_deliver in H1.
  destruct (turn_of cfg turn (deliver cfg blocks p)) as [[p1 calls] s].
  cbn [fst] in Hrest. specialize (IH p1 Hrest).
  destruct s; cbn [fst snd].
  - destruct (loop_of cfg rest p1) as [[p2 calls'] s']. cbn [fst snd] in *.
    rewrite frames_app. destruct IH as [IH1 IH2].
    destruct H1 as [[H1 H2]|(H1 & H2 & H3)]; rewrite H1.
    + split; [lia|]. intros Hf. rewrite H2 in IH2. specialize (IH2 Hf). lia.
    + specialize (IH2 H3). split; [lia|]. intros Hf. congruence.
  - destruct H1 as [[H1 H2]|(H1 & H2 & H3)]; rewrite H1; split; try lia.
    intros Hf. congruence.
  - destruct H1 as [[H1 H2]|(H1 & H2 & H3)]; rewrite H1; split; try lia.
    intros Hf. congruence.
Qed.


(** *** The stream and the restart *)

Lemma stream_died_deliver cfg blocks p :
  stream_died (self (deliver cfg blocks p)) (W_STATE (globals (deliver cfg blocks p)))
  = stream_died (self p) (W_STATE (globals p)).
Proof.
  unfold deliver. destruct (stream (self p)) eqn:E; [|reflexivity].
  cbn [self globals]. unfold stream_died. now rewrite run_callbacks_stream_active.
Qed.

Lemma one_turn_stream cfg turn p :
  stream_died (self p) (W_STATE (globals p)) = false ->
  let '(p1, _, _) := turn_of cfg turn p in
  stream_died (self p1) (W_STATE (globals p1)) = false.
Proof.
  intros Hd. unfold one_turn.
  pose proof (try_body_frame cfg turn (self p) (locals p) (W_STATE (globals p))) as Hb.
  destruct (body cfg turn (self p) (locals p) (W_STATE (globals p)))
    as [[[[a1 l1] st1] calls1] r].
  destruct Hb as (Hs & _ & _ & _ & Ha).
  assert (Hd1 : stream_died a1 st1 = false).
  { unfold stream_died in *. now rewrite Hs, Ha. }
  destruct r as [u|e].
  - destruct (time_sleep _); exact Hd1.
  - unfold on_error. destruct (10 <? _)%Z; [exact Hd1|].
    rewrite Hd1. destruct (time_sleep _); exact Hd1.
Qed.

Lemma throughout_stream cfg turns : forall p,
  stream_died (self p) (W_STATE (globals p)) = false ->
  always cfg (fun q _ => stream_died (self q) (W_STATE (globals q)) = false) turns p.
Proof.
  induction turns as [|[blocks turn] rest IH]; intros p Hp; [exact I|].
  cbn [throughout]. rewrite <- (stream_died_deliver cfg blocks p) in Hp.
  split; [exact Hp|]. apply IH.
  pose proof (one_turn_stream cfg turn _ Hp) as H1.
  destruct (turn_of cfg turn (deliver cfg blocks p)) as [[p1 calls] s]. exact H1.
Qed.

(** *** Turns that fail *)


Lemma unreadable_deliver (cfg : AppConfig) blocks p :
  unreadable cfg (W_STATE (globals p)) ->
  unreadable cfg (W_STATE (globals (deliver cfg blocks p))).
Proof.
  intros (Hl & i & Hi & Hn). unfold deliver.
  destruct (stream (self p)); [|split; [exact Hl | now exists i]]. cbn [globals].
  split.
  - apply run_callbacks_levels_length; [lia | exact Hl].
  - exists i. split; [exact Hi|]. apply run_callbacks_keeps_nan; (lia || assumption).
Qed.

Lemma start_audio_stream_returns cfg env st :
  0 <= audio_retry_delay cfg ->
  exists st' calls s,
    start_audio_stream lower cfg env st = (st', calls, Returns s) /\
    levels_smooth st' = levels_smooth st.
Proof.
  intros Hd. unfold start_audio_stream.
  pose proof (start_attempts_spec lower cfg env Hd (Z.to_nat (audio_max_retries cfg))
                0%nat st []) as H.
  destruct (start_attempts _ _ _ _ _ _) as [[st' calls] r].
  destruct H as (Hl & _ & _ & k & _ & _ & [(-> & _)|(dev & -> & _)]);
    eauto.
Qed.

Lemma one_turn_failing (cfg : AppConfig) turn p :
  (n_bands cfg <= 8)%nat ->
  0 <= check_interval cfg -> 0 <= audio_retry_delay cfg ->
  unreadable cfg (W_STATE (globals p)) ->
  audio_recent turn (W_STATE (globals p)) = true ->
  let '(p1, _, s) := turn_of cfg turn p in
  levels_smooth (W_STATE (globals p1)) = levels_smooth (W_STATE (globals p)) /\
  running (self p1) = running (self p) /\
  consecutive_errors (locals p1) = (consecutive_errors (locals p) + 1)%Z /\
  s = if (10 <? consecutive_errors (locals p) + 1)%Z then Finished else Running.
Proof.
  intros H8 Hc Hd (Hl & i & Hi & Hn) Hr. unfold one_turn.
  pose proof (try_body_raises cfg turn (self p) (locals p) (W_STATE (globals p))
                (Base ValueError) Hr
                (fun h => draw_levels_nan cfg h _ i H8 Hl Hi Hn)) as Hb.
  destruct (body cfg turn (self p) (locals p) (W_STATE (globals p)))
    as [[[[a1 l1] st1] calls1] r].
  destruct Hb as ((e & ->) & -> & He & Hrun).
  assert (Hs : time_sleep (check_interval cfg) = Returns [sleep (check_interval cfg)]).
  { unfold time_sleep. destruct (Rlt_dec _ 0); [lra | reflexivity]. }
  unfold on_error. cbn [consecutive_errors]. rewrite He.
  destruct (10 <? consecutive_errors (locals p) + 1)%Z; [now repeat split|].
  destruct (stream_died a1 (W_STATE (globals p))).
  - destruct (start_audio_stream_returns cfg (restart_env turn) (W_STATE (globals p)) Hd)
      as (st' & calls & s & E & Hl').
    rewrite E, Hs. cbn. now repeat split.
  - rewrite Hs. cbn. now repeat split.
Qed.

(** What the body raises then: the [ValueError] of [draw_levels], unless
    [detect_current_app] failed before it. *)
Lemma try_body_raises_which cfg turn app loc st :
  audio_recent turn st = true ->
  (forall h, draw_levels cfg h st = Raises (Base ValueError)) ->
  exists e,
    snd (body cfg turn app loc st) = Raises e /\
    (e = Base ValueError \/ detect_current_app isdecimal (pactl turn) = Raises e).
Proof.
  intros Hr Hd. unfold try_body, announce.
  destruct (get_track _ _ _ _) as [r' [[artist title] updated_at]].
  rewrite Hr, Hd. cbn [andb negb].
  split_body; cbn [snd]; eauto.
Qed.

(** The turns of a run are those of every longer run. *)
Lemma throughout_firstn cfg P n : forall turns p,
  always cfg P turns p -> always cfg P (firstn n turns) p.
Proof.
  induction n as [|n IH]; intros [|[blocks turn] rest] p H; try exact I.
  cbn [firstn throughout] in *. destruct H as [H1 H2]. split; [exact H1|].
  now apply IH.
Qed.

Lemma throughout_failing (cfg : AppConfig) turns : forall p,
  (n_bands cfg <= 8)%nat ->
  0 <= check_interval cfg -> 0 <= audio_retry_delay cfg ->
  unreadable cfg (W_STATE (globals p)) ->
  always cfg (fun q turn => audio_recent turn (W_STATE (globals q)) = true) turns p ->
  always cfg
    (fun q turn =>
       draw_levels cfg (hour_frame turn) (W_STATE (globals q)) = Raises (Base ValueError) /\
       exists e,
         snd (body cfg turn (self q) (locals q) (W_STATE (globals q))) = Raises e /\
         (e = Base ValueError \/ detect_current_app isdecimal (pactl turn) = Raises e))
    turns p.
Proof.
  induction turns as [|[blocks turn] rest IH]; intros p H8 Hc Hd Hu Ha; [exact I|].
  cbn [throughout] in *. destruct Ha as [Ha Hrest].
  pose proof (unreadable_deliver cfg blocks p Hu) as Hu'.
  assert (Hdraw : forall h,
            draw_levels cfg h (W_STATE (globals (deliver cfg blocks p)))
            = Raises (Base ValueError)).
  { destruct Hu' as (Hl & i & Hi & Hn). intros h.
    exact (draw_levels_nan cfg h _ i H8 Hl Hi Hn). }
  split.
  - split; [apply Hdraw|]. now apply try_body_raises_which.
  - apply IH; try assumption.
    pose proof (one_turn_failing cfg turn (deliver cfg blocks p) H8 Hc Hd Hu' Ha) as H1.
    destruct (turn_of cfg turn (deliver cfg blocks p)) as [[p1 calls] s].
    cbn [fst]. destruct H1 as (Hl1 & _).
    unfold unreadable in *. rewrite Hl1. exact Hu'.
Qed.

(** The errors counted and the turn at which the loop is left. *)
Lemma while_running_failing (cfg : AppConfig) turns : forall p,
  (n_bands cfg <= 8)%nat ->
  0 <= check_interval cfg -> 0 <= audio_retry_delay cfg ->
  unreadable cfg (W_STATE (globals p)) ->
  running (self p) = true ->
  (0 <= consecutive_errors (locals p) <= 10)%Z ->
  always cfg (fun q turn => audio_recent turn (W_STATE (globals q)) = true)
    (firstn (Z.to_nat (11 - consecutive_errors (locals p))) turns) p ->
  let out := loop_of cfg turns p in
  let c := consecutive_errors (locals p) in
  let n := Z.of_nat (length turns) in
  ((c + n <= 10)%Z ->
   snd out = Running /\ consecutive_errors (locals (fst (fst out))) = (c + n)%Z) /\
  ((11 <= c + n)%Z ->
   snd out = Finished /\ consecutive_errors (locals (fst (fst out))) = 11%Z /\
   fst (fst out) = fst (fst (loop_of cfg (firstn (Z.to_nat (11 - c)) turns) p)) /\
   snd (fst out) = snd (fst (loop_of cfg (firstn (Z.to_nat (11 - c)) turns) p))).
Proof.
  induction turns as [|[blocks turn] rest IH]; intros p H8 Hc Hd Hu Hrun He Ha.
  - cbn. split; intros H; [split; [reflexivity | lia] | lia].
  - cbv zeta.
    assert (E11 : Z.to_nat (11 - consecutive_errors (locals p))
                  = S (Z.to_nat (11 - (consecutive_errors (locals p) + 1)))) by lia.
    rewrite E11 in *. cbn [firstn while_running throughout length] in *.
    destruct Ha as [Ha Hrest]. rewrite Hrun.
    pose proof (unreadable_deliver cfg blocks p Hu) as Hu'.
    pose proof (one_turn_failing cfg turn (deliver cfg blocks p) H8 Hc Hd Hu' Ha) as H1.
    rewrite locals_deliver, self_deliver in H1.
    destruct (turn_of cfg turn (deliver cfg blocks p)) as [[p1 calls] s].
    cbn [fst] in Hrest. destruct H1 as (Hl1 & Hr1 & He1 & ->).
    destruct (10 <? consecutive_errors (locals p) + 1)%Z eqn:E.
    + apply Z.ltb_lt in E. cbn [fst snd]. split; intros H; [lia|].
      repeat split; lia.
    + apply Z.ltb_ge in E.
      assert (Hu1 : unreadable cfg (W_STATE (globals p1)))
        by (unfold unreadable in *; rewrite Hl1; exact Hu').
      assert (Hrun1 : running (self p1) = true) by congruence.
      assert (He1' : (0 <= consecutive_errors (locals p1) <= 10)%Z) by lia.
      rewrite <- He1 in Hrest.
      specialize (IH p1 H8 Hc Hd Hu1 Hrun1 He1' Hrest). cbv zeta in IH.
      rewrite He1 in IH.
      destruct (loop_of cfg rest p1) as [[p2 calls'] s'].
      destruct (loop_of cfg (firstn _ rest) p1) as [[p3 calls3] s3].
      cbn [fst snd] in *. destruct IH as [IH1 IH2].
      split; intros H.
      * destruct IH1 as [-> ->]; [lia|]. split; [reflexivity | lia].
      * destruct IH2 as (-> & -> & -> & ->); [lia|]. now repeat split.
Qed.


(** Without a stream no callback runs: what a turn finds of the audio is
    what the first turn found. *)
Lemma one_turn_without_stream cfg turn p :
  stream (self p) = None ->
  let p1 := fst (fst (turn_of cfg turn p)) in
  stream (self p1) = None /\
  audio_last_active (W_STATE (globals p1)) = audio_last_active (W_STATE (globals p)).
Proof.
  intros Hs. unfold one_turn.
  pose proof (try_body_frame cfg turn (self p) (locals p) (W_STATE (globals p))) as Hb.
  destruct (body cfg turn (self p) (locals p) (W_STATE (globals p)))
    as [[[[a1 l1] st1] calls1] r].
  destruct Hb as (Hs1 & _ & _ & Ha & _). rewrite Hs in Hs1.
  destruct r as [u|e].
  - destruct (time_sleep _); now split.
  - unfold on_error, stream_died. rewrite Hs1. cbn [is_None negb andb].
    destruct (10 <? _)%Z; [now split|]. destruct (time_sleep _); now split.
Qed.

Lemma throughout_without_stream cfg b turns : forall p,
  stream (self p) = None ->
  Forall (fun bt => audio_recent (snd bt) (W_STATE (globals p)) = b) turns ->
  always cfg (fun q turn => audio_recent turn (W_STATE (globals q)) = b) turns p.
Proof.
  induction turns as [|[blocks turn] rest IH]; intros p Hs Hf; [exact I|].
  apply Forall_cons_iff in Hf as [H1 H2]. cbn [throughout snd] in *.
  assert (Hd : deliver cfg blocks p = p) by (unfold deliver; now rewrite Hs).
  rewrite Hd. split; [exact H1|].
  destruct (one_turn_without_stream cfg turn p Hs) as [Hs1 Ha1].
  apply IH; [exact Hs1|].
  eapply Forall_impl; [|exact H2]. intros [bl t] Ht. cbn [snd] in *.
  unfold audio_recent in *. now rewrite Ha1.
Qed.



(** X27.  A level that cannot be drawn ends the program at the eleventh
    turn.  Let the stored levels hold a NaN, the band count be at most 8,
    the check interval and the retry delay not be negative, and the loop be
    entered with no error counted.  If the audio is recent at each of the
    first eleven turns, then at each of them [draw_levels] raises
    [ValueError] and the [try] body fails, with that [ValueError] unless
    [detect_current_app] failed before it; after any [n <= 10] turns the
    loop is still running and has counted [n] errors; and with eleven turns
    or more it is left at the eleventh, with [consecutive_errors = 11 > 10]:
    no later turn is run. *)
Theorem unreadable_level_ends_the_loop (cfg : AppConfig) turns p :
  (n_bands cfg <= 8)%nat ->
  0 <= check_interval cfg -> 0 <= audio_retry_delay cfg ->
  unreadable cfg (W_STATE (globals p)) ->
  running (self p) = true ->
  consecutive_errors (locals p) = 0%Z ->
  throughout b64decode decode_utf8 isdecimal lower cfg
    (fun q turn => audio_recent turn (W_STATE (globals q)) = true) (firstn 11 turns) p ->
  throughout b64decode decode_utf8 isdecimal lower cfg
    (fun q turn =>
       draw_levels cfg (hour_frame turn) (W_STATE (globals q)) = Raises (Base ValueError) /\
       exists e,
         snd (try_body b64decode decode_utf8 isdecimal lower cfg turn
                (self q) (locals q) (W_STATE (globals q))) = Raises e /\
         (e = Base ValueError \/ detect_current_app isdecimal (pactl turn) = Raises e))
    (firstn 11 turns) p /\
  (forall n, (n <= 10)%nat ->
     let out := while_running b64decode decode_utf8 isdecimal lower cfg
                  (firstn n turns) p in
     snd out = Running /\
     consecutive_errors (locals (fst (fst out))) = Z.of_nat (Nat.min n (length turns))) /\
  ((11 <= length turns)%nat ->
     let out := while_running b64decode decode_utf8 isdecimal lower cfg turns p in
     snd out = Finished /\
     consecutive_errors (locals (fst (fst out))) = 11%Z /\
     out = while_running b64decode decode_utf8 isdecimal lower cfg (firstn 11 turns) p).
Proof.
  intros H8 Hc Hd Hu Hr He Ha. split; [|split].
  - now apply throughout_failing.
  - intros n Hn.
    assert (Ha' : always cfg
                    (fun q turn => audio_recent turn (W_STATE (globals q)) = true)
                    (firstn (Z.to_nat (11 - consecutive_errors (locals p)))
                       (firstn n turns)) p).
    { rewrite He. apply throughout_firstn.
      replace (firstn n turns) with (firstn n (firstn 11 turns))
        by (rewrite firstn_firstn; f_equal; lia).
      now apply throughout_firstn. }
    destruct (while_running_failing cfg (firstn n turns) p H8 Hc Hd Hu Hr
                ltac:(lia) Ha') as [H1 _].
    rewrite He, length_firstn in H1. cbv zeta.
    destruct H1 as [H1 H2]; [lia|]. split; [exact H1|]. rewrite H2. lia.
  - intros Hl.
    assert (Ha' : always cfg
                    (fun q turn => audio_recent turn (W_STATE (globals q)) = true)
                    (firstn (Z.to_nat (11 - consecutive_errors (locals p))) turns) p)
      by (rewrite He; exact Ha).
    destruct (while_running_failing cfg turns p H8 Hc Hd Hu Hr ltac:(lia) Ha')
      as [_ H2].
    rewrite He in H2. change (Z.to_nat (11 - 0)) with 11%nat in H2.
    destruct H2 as (H2 & H3 & H4 & H5); [lia|]. cbv zeta.
    split; [exact H2|]. split; [exact H3|].
    assert (Ha11 : always cfg
                    (fun q turn => audio_recent turn (W_STATE (globals q)) = true)
                    (firstn (Z.to_nat (11 - consecutive_errors (locals p)))
                       (firstn 11 turns)) p).
    { rewrite He. now apply throughout_firstn. }
    destruct (while_running_failing cfg (firstn 11 turns) p H8 Hc Hd Hu Hr
                ltac:(lia) Ha11) as [_ H6].
    rewrite He, length_firstn in H6.
    destruct H6 as (H6 & _); [lia|].
    destruct (while_running _ _ _ _ cfg turns p) as [[p1 c1] s1].
    destruct (while_running _ _ _ _ cfg (firstn 11 turns) p) as [[p2 c2] s2].
    cbn [fst snd] in *. congruence.
Qed.

(** X28.  The restart of the stream in the [except] clause is never taken.
    [STATE.stream_active] is set when [start_audio_stream] returns a
    stream and nothing ever clears it; so in the program as [start()]
    enters the main loop with it, and at every turn after that, whatever
    the audio thread and the turns do, the condition [self.stream is not
    None and not STATE.stream_active] is false. *)
Theorem restart_is_never_taken cfg env turns app w :
  let '(st, _, r) := start_audio_stream lower cfg env (W_STATE w) in
  match r with
  | Raises _ => True
  | Returns s =>
      throughout b64decode decode_utf8 isdecimal lower cfg
        (fun q _ => stream_died (self q) (W_STATE (globals q)) = false) turns
        {| self := {| reader := reader app; stream := s; running := true;
                      last_connection_sound_time := last_connection_sound_time app |};
           locals := Locals_init;
           globals := {| W_STATE := st; W_HANN := W_HANN w |} |}
  end.
Proof.
  unfold start_audio_stream.
  pose proof (start_attempts_active cfg env (seq 0 (Z.to_nat (audio_max_retries cfg)))
                (W_STATE w) []) as H.
  destruct (start_attempts _ _ _ _ _ _) as [[st calls] [s|e]]; [|exact I].
  apply throughout_stream. cbn [self globals W_STATE]. unfold stream_died.
  destruct s as [s|]; [|reflexivity]. cbn [stream is_None negb andb].
  now rewrite H.
Qed.

End AppFacts.

(** *** Sample runs of the loop *)

Section AppRuns.
Import Np Audio Ambient Py Metadata Display Stream Pactl App Samples.
Local Open Scope R_scope.

Local Abbreviation py_loop :=
  (while_running Py.b64decode Py.decode_utf8_ignore ascii_digit ascii_lower).
Local Abbreviation py_always :=
  (throughout Py.b64decode Py.decode_utf8_ignore ascii_digit ascii_lower).



Lemma unreadable_level_ends_the_loop_witness :
  let turns := repeat ([], quiet_turn 1) 12 in
  let out := py_loop APP_CONFIG turns poisoned_program in
  snd out = Finished /\
  consecutive_errors (locals (fst (fst out))) = 11%Z /\
  out = py_loop APP_CONFIG (firstn 11 turns) poisoned_program.
Proof.
  refine (proj2 (proj2
    (unreadable_level_ends_the_loop Py.b64decode Py.decode_utf8_ignore
       ascii_digit ascii_lower APP_CONFIG (repeat ([], quiet_turn 1) 12)
       poisoned_program _ _ _ _ _ _ _)) _).
  - cbn. lia.
  - cbn. lra.
  - cbn. lra.
  - split; [reflexivity|]. exists 0%nat. split; [cbn; lia | reflexivity].
  - reflexivity.
  - reflexivity.
  - change (firstn 11 (repeat (@nil (ndarray * R), quiet_turn 1) 12))
      with (repeat (@nil (ndarray * R), quiet_turn 1) 11).
    apply throughout_without_stream; [reflexivity|].
    apply Forall_forall. intros x Hx. apply repeat_spec in Hx. subst x.
    unfold audio_recent, Rltb. cbn.
    destruct (Rlt_dec (1 - 0) 1.5); [reflexivity | lra].
  - rewrite repeat_length. lia.
Defined.

End AppRuns.

(** ** The bands of the stand-alone visualizer *)

Section VisualizerBands.
Import Np.
Local Open Scope R_scope.

Lemma visualizer_band_level_nan_iff mag bs i :
  Visualizer.band_level mag bs i = NaN <->
  (i < Visualizer.N_BANDS - 1 /\ 0 < bs /\ length mag <= i * bs)%nat.
Proof.
  unfold Visualizer.band_level.
  destruct (i <? Visualizer.N_BANDS - 1)%nat eqn:Ei.
  - apply Nat.ltb_lt in Ei.
    destruct (i * bs <? (i + 1) * bs)%nat eqn:El.
    + apply Nat.ltb_lt in El. rewrite mean_nan_iff, slice_nil_iff by exact El.
      split; [intros H; repeat split; try assumption; nia | tauto].
    + apply Nat.ltb_ge in El. split; [discriminate|]. intros (_ & Hb & _). nia.
  - apply Nat.ltb_ge in Ei.
    destruct (i * bs <? length mag)%nat eqn:El.
    + apply Nat.ltb_lt in El. rewrite mean_nan_iff, slice_nil_iff by exact El. lia.
    + split; [discriminate | lia].
Qed.

Lemma visualizer_normalise_cases c :
  (Visualizer.normalise c = NaN <-> c = NaN) /\
  (c <> NaN -> unit_cell (Visualizer.normalise c)).
Proof.
  destruct c as [|v]; unfold Visualizer.normalise; cbn [lift].
  - split; [tauto | congruence].
  - split; [split; discriminate|]. intros _. eexists. split; [reflexivity|].
    apply clip_bounds. lra.
Qed.

Lemma visualizer_bands_cells mono :
  mono <> [] ->
  let bins := (length mono / 2)%nat in
  exists bands,
    Visualizer.bands_of mono = Ok bands /\
    length bands = Visualizer.N_BANDS /\
    forall i, (i < Visualizer.N_BANDS)%nat ->
      (nth i bands (Num 0) = NaN <-> (bins <= i < Visualizer.N_BANDS - 1)%nat) /\
      (~ (bins <= i < Visualizer.N_BANDS - 1)%nat -> unit_cell (nth i bands (Num 0))).
Proof.
  intros Hm bins. unfold Visualizer.bands_of.
  assert (Hl : length (Audio.mul mono (hanning (length mono))) = length mono)
    by (apply length_mul; now rewrite length_hanning).
  unfold rfft.
  destruct (Audio.mul mono (hanning (length mono))) as [|m ms] eqn:E.
  { destruct mono; [congruence | discriminate Hl]. }
  cbn [bind]. rewrite Hl, <- E.
  set (mag := tl (map cabs (map (dft_bin (Audio.mul mono (hanning (length mono))))
                              (seq 0 (length mono / 2 + 1))))).
  assert (Hmag : length mag = bins).
  { unfold mag. rewrite Nat.add_1_r. cbn [seq map tl].
    now rewrite !length_map, length_seq. }
  eexists. split; [reflexivity|]. split; [now rewrite !length_map, length_seq|].
  intros i Hi. rewrite map_map.
  set (f := fun x => Visualizer.normalise (Visualizer.band_level mag _ x)).
  rewrite (nth_indep _ (Num 0) (f 0%nat)) by now rewrite length_map, length_seq.
  rewrite (map_nth f), seq_nth by exact Hi. cbn [Nat.add]. unfold f.
  destruct (visualizer_normalise_cases
              (Visualizer.band_level mag (Nat.max 1 (length mag / Visualizer.N_BANDS)) i))
    as [Hn Hu].
  assert (Hiff : Visualizer.band_level mag (Nat.max 1 (length mag / Visualizer.N_BANDS)) i = NaN
                 <-> (bins <= i < Visualizer.N_BANDS - 1)%nat).
  { rewrite visualizer_band_level_nan_iff, Hmag. unfold Visualizer.N_BANDS in *.
    pose proof (Nat.div_mod_eq bins 8) as Hdm.
    pose proof (Nat.mod_upper_bound bins 8 ltac:(lia)) as Hmod.
    destruct (bins / 8)%nat as [|q]; simpl Nat.max; split; intros; nia. }
  split.
  - rewrite Hn. exact Hiff.
  - intros Hno. apply Hu. intros Hc. apply Hno, Hiff, Hc.
Qed.

(** X29.  The stand-alone visualizer has the defect of [compute_levels]
    too, its guard [end > start] notwithstanding.  On a block of at least
    one stereo frame, with [bins = len(indata) // 2] spectrum bins besides
    DC, the callback returns normally with 8 bands of which exactly those
    numbered [bins .. 6] are NaN (their slice of the spectrum starts past
    its end); every other band is a value of [[0, 1]].  So with at least 7
    bins, 14 frames, every band is in [[0, 1]]. *)
Theorem visualizer_bands_nan_or_unit self indata :
  indata <> [] ->
  let bins := (length indata / 2)%nat in
  exists bands,
    Visualizer.audio_callback self indata
    = Ok {| Visualizer.levels := Visualizer.smooth (Visualizer.levels self) bands |} /\
    length bands = Visualizer.N_BANDS /\
    forall i, (i < Visualizer.N_BANDS)%nat ->
      (nth i bands (Num 0) = NaN <-> (bins <= i < Visualizer.N_BANDS - 1)%nat) /\
      (~ (bins <= i < Visualizer.N_BANDS - 1)%nat -> unit_cell (nth i bands (Num 0))).
Proof.
  intros Hi bins.
  destruct (visualizer_bands_cells (map (fun f => mean_fin [fst f; snd f]) indata))
    as (bands & Hb & Hlen & Hc).
  { destruct indata; [congruence | discriminate]. }
  rewrite length_map in Hc. exists bands.
  unfold Visualizer.audio_callback. rewrite Hb. cbn [bind].
  split; [reflexivity|]. split; [exact Hlen | exact Hc].
Qed.

Lemma visualizer_bands_nan_or_unit_witness :
  let indata := [(0.5, 0.25); (-0.5, 0); (0.25, 0.25); (0, 0)] in
  let bins := (length indata / 2)%nat in
  exists bands,
    Visualizer.audio_callback Visualizer.AudioVisualizer_init indata
    = Ok {| Visualizer.levels :=
              Visualizer.smooth (Visualizer.levels Visualizer.AudioVisualizer_init) bands |} /\
    length bands = Visualizer.N_BANDS /\
    forall i, (i < Visualizer.N_BANDS)%nat ->
      (nth i bands (Num 0) = NaN <-> (bins <= i < Visualizer.N_BANDS - 1)%nat) /\
      (~ (bins <= i < Visualizer.N_BANDS - 1)%nat -> unit_cell (nth i bands (Num 0))).
Proof.
  apply (visualizer_bands_nan_or_unit Visualizer.AudioVisualizer_init
           [(0.5, 0.25); (-0.5, 0); (0.25, 0.25); (0, 0)]).
  discriminate.
Defined.

End VisualizerBands.
